(** * Centroid tracker of the object-detection front end

    A shallow embedding of [CentroidTracker] and of the identity
    re-association loop of [tick], both from
    [src/frontend/src/components/Tracker.jsx], with the properties the
    specification states about them.

    Conventions of the embedding.
    - Coordinates are integers ([Z]): the frame pump rounds every box it
      hands to [update].
    - A JavaScript [Map] is an association list in insertion order:
      [set] on a present key overwrites in place, [set] on an absent key
      appends, [delete] removes the key.
    - Distances are embedded twice.  [Math_hypot], [hypot_matrix],
      [greedy_f64] and [update_f64] work on doubles, as the code does:
      what is stated about the selection of the matches is stated on
      them.  [hypot2], [distance_matrix], [greedy] and [update] work on
      the exact squared distance, as if [Math.hypot] did not round: the
      square root is monotone, so [a < b] on exact distances is [<] on
      their squares, and [d > maxDistance] is [exceeds].  The two select
      the same matches on every frame where rounding flips no
      comparison ([neutral_matches]); the loops after the matching loop
      are the same code for both ([apply_matches]), and keep the state
      well-formed whatever matches they are given ([wf_update_with]).
    - [Infinity] / [-1] / [null] initial values of a running minimum are
      [None].
    - Coordinates, ids and counters are exact integers: they never
      reach the 2^53 limit of a JavaScript number.
    - [update] returns [this.objects] itself, not a copy; [tick] reads
      it before the next call, so the returned map is the [objects]
      field of the state [update] leaves.
    - Array reads [objectIDs[r]] and [inputCentroids[c]] are [nth] with
      a default that is never used: the indices come out of the scan
      of the matrix ([matches_of_valid]). *)

From Stdlib Require Import ZArith List Bool Lia Permutation Sorted.
From Stdlib Require Strings.Ascii.
From Stdlib Require Floats.
Import Ascii.AsciiSyntax.
Import PrimFloat.PrimFloatNotations.
Import ListNotations.
Open Scope Z_scope.

(* ================================================================= *)
(** ** Values *)

(** [[cx, cy]] *)
Definition centroid : Type := (Z * Z)%type.

(** [[x1, y1, x2, y2]] *)
Definition rect : Type := (Z * Z * Z * Z)%type.

(** A missed-frame counter: a number, or [NaN] (what [undefined + 1]
    gives when the counter table has no entry for the key). *)
Inductive count : Type :=
| Num (n : Z)
| NaN.

(** [Math.round((a + b) / 2)]: halves round towards plus infinity. *)
Definition round_half (s : Z) : Z := (s + 1) / 2.

Definition centroid_of (r : rect) : centroid :=
  let '(r0, r1, r2, r3) := r in
  (round_half (r0 + r2), round_half (r1 + r3)).

(** The exact square of the distance [Math.hypot(dx, dy)] approximates. *)
Definition hypot2 (dx dy : Z) : Z := dx * dx + dy * dy.

(** [d > maxDistance] for the exact distance [d] whose square is [d2]. *)
Definition exceeds (d2 maxDistance : Z) : bool :=
  (maxDistance <? 0) || (maxDistance * maxDistance <? d2).

Definition centroid_eqb (p q : centroid) : bool :=
  (fst p =? fst q) && (snd p =? snd q).

(* ================================================================= *)
(** ** Insertion-ordered maps with integer keys *)

Fixpoint map_get {V : Type} (k : Z) (m : list (Z * V)) : option V :=
  match m with
  | [] => None
  | (k', v) :: m' => if k' =? k then Some v else map_get k m'
  end.

Fixpoint map_set {V : Type} (k : Z) (v : V) (m : list (Z * V)) : list (Z * V) :=
  match m with
  | [] => [(k, v)]
  | (k', v') :: m' =>
      if k' =? k then (k, v) :: m' else (k', v') :: map_set k v m'
  end.

Definition map_delete {V : Type} (k : Z) (m : list (Z * V)) : list (Z * V) :=
  filter (fun e => negb (fst e =? k)) m.

Definition map_keys {V : Type} (m : list (Z * V)) : list Z := map fst m.

Definition map_values {V : Type} (m : list (Z * V)) : list V := map snd m.

(** Sets of array indices ([assignedRows], [unmatchedCols], ...). *)
Definition set_has (x : nat) (s : list nat) : bool := existsb (Nat.eqb x) s.

Definition set_delete (x : nat) (s : list nat) : list nat :=
  filter (fun y => negb (Nat.eqb y x)) s.

(* ================================================================= *)
(** ** The tracker object *)

Record CentroidTracker : Type := mkTracker {
  nextObjectID : Z;
  objects : list (Z * centroid);      (* id -> centroid *)
  disappeared : list (Z * count);     (* id -> count *)
  maxDisappeared : Z;
  maxDistance : Z
}.

(** The constructor has no [throw]: it returns an object for every pair
    of arguments.  [None] would stand for a rejected construction. *)
Definition constructor (maxDisappeared maxDistance : Z) : option CentroidTracker :=
  Some (mkTracker 1 [] [] maxDisappeared maxDistance).

(** The object the constructor builds. *)
Definition new_tracker (maxDisappeared maxDistance : Z) : CentroidTracker :=
  mkTracker 1 [] [] maxDisappeared maxDistance.

Definition register (c : centroid) (t : CentroidTracker) : Z * CentroidTracker :=
  let id := nextObjectID t in
  (id, mkTracker (id + 1)
         (map_set id c (objects t))
         (map_set id (Num 0) (disappeared t))
         (maxDisappeared t) (maxDistance t)).

Definition deregister (id : Z) (t : CentroidTracker) : CentroidTracker :=
  mkTracker (nextObjectID t)
    (map_delete id (objects t))
    (map_delete id (disappeared t))
    (maxDisappeared t) (maxDistance t).

(** [this.disappeared.get(id) + 1] *)
Definition count_incr (c : option count) : count :=
  match c with
  | Some (Num n) => Num (n + 1)
  | _ => NaN
  end.

(** [this.disappeared.get(id) > this.maxDisappeared] *)
Definition count_gt (c : option count) (m : Z) : bool :=
  match c with
  | Some (Num n) => m <? n
  | _ => false
  end.

(** The body shared by the two ageing loops of [update]: count one more
    missed frame for [id], and deregister it once the count is above
    [maxDisappeared]. *)
Definition miss (id : Z) (t : CentroidTracker) : CentroidTracker :=
  let t1 := mkTracker (nextObjectID t) (objects t)
              (map_set id (count_incr (map_get id (disappeared t))) (disappeared t))
              (maxDisappeared t) (maxDistance t) in
  if count_gt (map_get id (disappeared t1)) (maxDisappeared t1)
  then deregister id t1
  else t1.

(** [for (const id of ids) { ... }] with that body. *)
Definition miss_all (ids : list Z) (t : CentroidTracker) : CentroidTracker :=
  fold_left (fun t' id => miss id t') ids t.

(** [cs.forEach(c => this.register(c))], with the ids [register] returned. *)
Fixpoint register_all (cs : list centroid) (t : CentroidTracker)
  : list Z * CentroidTracker :=
  match cs with
  | [] => ([], t)
  | c :: cs' =>
      let '(id, t1) := register c t in
      let '(ids, t2) := register_all cs' t1 in
      (id :: ids, t2)
  end.

(* ================================================================= *)
(** ** The distance matrix and the greedy matcher *)

Definition dist2 (p q : centroid) : Z :=
  hypot2 (fst p - fst q) (snd p - snd q).

(** [D[i][j]]: object centroid [i] against input centroid [j]. *)
Definition distance_matrix (objectCentroids inputCentroids : list centroid)
  : list (list Z) :=
  map (fun oc => map (fun ic => dist2 oc ic) inputCentroids) objectCentroids.

(** The running minimum [(minVal, minR, minC)]. *)
Definition best : Type := option (Z * nat * nat).

(** [if (D[r][c] < minVal) { minVal = D[r][c]; minR = r; minC = c; }] *)
Definition improve (b : best) (d : Z) (r c : nat) : best :=
  match b with
  | None => Some (d, r, c)
  | Some (minVal, _, _) => if d <? minVal then Some (d, r, c) else b
  end.

(** The inner [for] loop, from column [c] on, over the rest of the row. *)
Fixpoint scan_cols (assignedCols : list nat) (r c : nat) (row : list Z) (b : best)
  : best :=
  match row with
  | [] => b
  | d :: row' =>
      scan_cols assignedCols r (S c) row'
        (if set_has c assignedCols then b else improve b d r c)
  end.

(** The outer [for] loop, from row [r] on, over the rest of the matrix. *)
Fixpoint scan_rows (assignedRows assignedCols : list nat) (r : nat)
  (D : list (list Z)) (b : best) : best :=
  match D with
  | [] => b
  | row :: D' =>
      scan_rows assignedRows assignedCols (S r) D'
        (if set_has r assignedRows then b else scan_cols assignedCols r 0 row b)
  end.

Definition find_min (D : list (list Z)) (assignedRows assignedCols : list nat) : best :=
  scan_rows assignedRows assignedCols 0 D None.

(** [while (true) { ... }]: one unit of fuel per iteration; [None] when
    the fuel runs out before a [break]. *)
Fixpoint greedy_loop (fuel : nat) (D : list (list Z)) (maxDist : Z)
  (assignedRows assignedCols : list nat) (matches : list (nat * nat))
  : option (list (nat * nat)) :=
  match fuel with
  | O => None
  | S fuel' =>
      match find_min D assignedRows assignedCols with
      | None => Some matches
      | Some (minVal, minR, minC) =>
          if exceeds minVal maxDist then Some matches
          else greedy_loop fuel' D maxDist
                 (minR :: assignedRows) (minC :: assignedCols)
                 (matches ++ [(minR, minC)])
      end
  end.

(** The matches the loop leaves in [matches]: every iteration but the
    last assigns a new row, so one more than the number of rows is
    enough fuel ([greedy_loop_total]). *)
Definition greedy (D : list (list Z)) (maxDist : Z) : list (nat * nat) :=
  match greedy_loop (S (length D)) D maxDist [] [] [] with
  | Some matches => matches
  | None => []
  end.

(* ================================================================= *)
(** ** [update] *)

(** What the body of [matches.forEach] does to the tracker: the matched
    object takes the input centroid and its counter restarts. *)
Definition rematch (objectID : Z) (c : centroid) (t : CentroidTracker)
  : CentroidTracker :=
  mkTracker (nextObjectID t)
    (map_set objectID c (objects t))
    (map_set objectID (Num 0) (disappeared t))
    (maxDisappeared t) (maxDistance t).

(** [rematch] along a list of (id, centroid) pairs: the tracker
    component of [matches.forEach] ([commit_fold]). *)
Definition rematch_all (pairs : list (Z * centroid)) (t : CentroidTracker)
  : CentroidTracker :=
  fold_left (fun t' p => rematch (fst p) (snd p) t') pairs t.

(** The body of [matches.forEach]. *)
Definition commit (objectIDs : list Z) (inputCentroids : list centroid)
  (st : list nat * list nat * CentroidTracker) (m : nat * nat)
  : list nat * list nat * CentroidTracker :=
  let '(unmatchedRows, unmatchedCols, t) := st in
  let '(r, c) := m in
  let objectID := nth r objectIDs 0 in
  (set_delete r unmatchedRows,
   set_delete c unmatchedCols,
   rematch objectID (nth c inputCentroids (0, 0)) t).

(** The matrix and the matches [update] computes in its general case. *)
Definition matrix_of (t : CentroidTracker) (rects : list rect) : list (list Z) :=
  distance_matrix (map_values (objects t)) (map centroid_of rects).

Definition matches_of (t : CentroidTracker) (rects : list rect) : list (nat * nat) :=
  greedy (matrix_of t rects) (maxDistance t).

(** Everything after the matching loop. *)
Definition apply_matches (t : CentroidTracker) (rects : list rect)
  (matches : list (nat * nat)) : list Z * CentroidTracker :=
  let inputCentroids := map centroid_of rects in
  let objectIDs := map_keys (objects t) in
  let '(unmatchedRows, unmatchedCols, t1) :=
    fold_left (commit objectIDs inputCentroids) matches
      (seq 0 (length (matrix_of t rects)), seq 0 (length inputCentroids), t) in
  let t2 := fold_left (fun t' r => miss (nth r objectIDs 0) t') unmatchedRows t1 in
  register_all (map (fun c => nth c inputCentroids (0, 0)) unmatchedCols) t2.

(** [update(rects)], paired with the ids its calls of [register] returned. *)
Definition update_full (t : CentroidTracker) (rects : list rect)
  : list Z * CentroidTracker :=
  if (length (objects t) =? 0)%nat then
    register_all (map centroid_of rects) t
  else if (length rects =? 0)%nat then
    ([], miss_all (map_keys (disappeared t)) t)
  else
    apply_matches t rects (matches_of t rects).

Definition update (t : CentroidTracker) (rects : list rect) : CentroidTracker :=
  snd (update_full t rects).

(** A run of frames, with all ids issued on the way, in order. *)
Fixpoint run_full (t : CentroidTracker) (frames : list (list rect))
  : list Z * CentroidTracker :=
  match frames with
  | [] => ([], t)
  | rects :: frames' =>
      let '(ids, t1) := update_full t rects in
      let '(ids', t2) := run_full t1 frames' in
      (ids ++ ids', t2)
  end.

Definition run (t : CentroidTracker) (frames : list (list rect)) : CentroidTracker :=
  snd (run_full t frames).

(** States of an engine driven by [update] alone. *)
Inductive reachable : CentroidTracker -> Prop :=
| reach_new : forall maxDisappeared maxDistance,
    reachable (new_tracker maxDisappeared maxDistance)
| reach_update : forall t rects,
    reachable t -> reachable (update t rects).

(* ================================================================= *)
(** ** Re-association in [tick] *)

(** [(bestDist, bestId)] after the scan of [objects.entries()] for the
    detection centred at [(cx, cy)]. *)
Definition nearest_step (cx cy : Z) (b : option (Z * Z)) (e : Z * centroid)
  : option (Z * Z) :=
  let '(id, cent) := e in
  let d := hypot2 (fst cent - cx) (snd cent - cy) in
  match b with
  | None => Some (d, id)
  | Some (bestDist, _) => if d <? bestDist then Some (d, id) else b
  end.

Definition nearest (objs : list (Z * centroid)) (cx cy : Z) : option (Z * Z) :=
  fold_left (nearest_step cx cy) objs None.

(** [bestId] *)
Definition track_id (objs : list (Z * centroid)) (r : rect) : option Z :=
  let '(cx, cy) := centroid_of r in
  option_map snd (nearest objs cx cy).

(** The [track_id] column of [detsWithIds] for one frame. *)
Definition tick_ids (t : CentroidTracker) (rects : list rect) : list (option Z) :=
  let objs := objects (update t rects) in
  map (track_id objs) rects.

(* ================================================================= *)
(** ** The greedy selection as the specification words it *)

(** [D[r][c]], when both indices are in range. *)
Definition cell (D : list (list Z)) (r c : nat) : option Z :=
  match nth_error D r with
  | Some row => nth_error row c
  | None => None
  end.

(** [(r', c')] comes before [(r, c)] in a row-major scan. *)
Definition row_major_lt (r' c' r c : nat) : Prop :=
  (r' < r)%nat \/ (r' = r /\ (c' < c)%nat).

(** [D[r][c] = v] is the globally smallest entry among the rows and
    columns not yet assigned, and the first such in row-major order. *)
Definition first_min (D : list (list Z)) (assignedRows assignedCols : list nat)
  (r c : nat) (v : Z) : Prop :=
  cell D r c = Some v /\ ~ In r assignedRows /\ ~ In c assignedCols /\
  forall r' c' v',
    cell D r' c' = Some v' -> ~ In r' assignedRows -> ~ In c' assignedCols ->
    v <= v' /\ (row_major_lt r' c' r c -> v < v').

(** "Repeatedly find the globally smallest remaining [D[i][j]] among
    rows/columns not yet assigned; if the minimum is greater than
    [max_distance], stop; otherwise commit the match", ties going to
    the first occurrence in row-major order.  The last index is the
    list of matches committed from this point on. *)
Inductive greedy_spec (D : list (list Z)) (maxDist : Z)
  : list nat -> list nat -> list (nat * nat) -> Prop :=
| greedy_exhausted : forall aR aC,
    (forall r c v, cell D r c = Some v -> ~ In r aR -> ~ In c aC -> False) ->
    greedy_spec D maxDist aR aC []
| greedy_stop : forall aR aC r c v,
    first_min D aR aC r c v ->
    exceeds v maxDist = true ->
    greedy_spec D maxDist aR aC []
| greedy_commit : forall aR aC r c v ms,
    first_min D aR aC r c v ->
    exceeds v maxDist = false ->
    greedy_spec D maxDist (r :: aR) (c :: aC) ms ->
    greedy_spec D maxDist aR aC ((r, c) :: ms).

(** ** Auxiliary notions for the proofs *)

(** A running minimum over a list, keeping the first of equal weights. *)
Definition pick_by {A : Type} (w : A -> Z) (b : option A) (x : A) : option A :=
  match b with
  | None => Some x
  | Some y => if w x <? w y then Some x else b
  end.

Definition weight (x : Z * nat * nat) : Z := fst (fst x).

(** The entries of a row, and of a matrix, in scan order, with their
    positions. *)
Fixpoint cells_row (r c : nat) (row : list Z) : list (Z * nat * nat) :=
  match row with
  | [] => []
  | d :: row' => (d, r, c) :: cells_row r (S c) row'
  end.

Fixpoint cells_from (r : nat) (D : list (list Z)) : list (Z * nat * nat) :=
  match D with
  | [] => []
  | row :: D' => cells_row r 0 row ++ cells_from (S r) D'
  end.

Definition cell_lt (x y : Z * nat * nat) : Prop :=
  row_major_lt (snd (fst x)) (snd x) (snd (fst y)) (snd y).

Definition free (aR aC : list nat) (x : Z * nat * nat) : bool :=
  negb (set_has (snd (fst x)) aR) && negb (set_has (snd x) aC).

(** The three lists the general case of [update] walks, for a list of
    matches [M]: the (id, centroid) pairs rewritten, the ids that miss
    the frame, the centroids registered. *)
Definition pairs_of (t : CentroidTracker) (rects : list rect) (M : list (nat * nat))
  : list (Z * centroid) :=
  map (fun m => (nth (fst m) (map_keys (objects t)) 0,
                 nth (snd m) (map centroid_of rects) (0, 0))) M.

Definition unmatched_rows (t : CentroidTracker) (M : list (nat * nat)) : list nat :=
  filter (fun r => negb (set_has r (map fst M))) (seq 0 (length (objects t))).

Definition unmatched_cols (rects : list rect) (M : list (nat * nat)) : list nat :=
  filter (fun c => negb (set_has c (map snd M))) (seq 0 (length rects)).

Definition unmatched_ids (t : CentroidTracker) (M : list (nat * nat)) : list Z :=
  map (fun r => nth r (map_keys (objects t)) 0) (unmatched_rows t M).

Definition new_centroids (rects : list rect) (M : list (nat * nat)) : list centroid :=
  map (fun c => nth c (map centroid_of rects) (0, 0)) (unmatched_cols rects M).

(** The tracker once the matched objects are rewritten and the others
    have missed the frame, before anything is registered. *)
Definition after_misses (t : CentroidTracker) (rects : list rect)
  (M : list (nat * nat)) : CentroidTracker :=
  miss_all (unmatched_ids t M) (rematch_all (pairs_of t rects M) t).

(** The ids of the objects a frame matches. *)
Definition matched_ids (t : CentroidTracker) (rects : list rect) : list Z :=
  map fst (pairs_of t rects (matches_of t rects)).

(** Matches over distinct rows and distinct columns, all in range. *)
Definition valid_matches (t : CentroidTracker) (rects : list rect)
  (M : list (nat * nat)) : Prop :=
  NoDup (map fst M) /\ NoDup (map snd M) /\
  forall r c, In (r, c) M ->
    (r < length (objects t))%nat /\ (c < length rects)%nat.

(** The ids [start], [start + 1], ..., [n] of them. *)
Definition id_range (start : Z) (n : nat) : list Z :=
  map (fun i => start + Z.of_nat i) (seq 0 n).

(* ================================================================= *)
(** ** Invariants *)

(** Both tables know the same ids. *)
Definition same_keys (t : CentroidTracker) : Prop :=
  forall k, map_get k (objects t) = None <-> map_get k (disappeared t) = None.

(** The two lists stand for [Map]s: no key occurs twice. *)
Definition maps_ok (t : CentroidTracker) : Prop :=
  NoDup (map_keys (objects t)) /\ NoDup (map_keys (disappeared t)).

Record wf (t : CentroidTracker) : Prop := mk_wf {
  wf_maps : maps_ok t;
  wf_same : same_keys t;
  wf_next : 0 < nextObjectID t;
  wf_fresh : forall k, In k (map_keys (objects t)) -> 0 < k < nextObjectID t;
  wf_count : forall k c, map_get k (disappeared t) = Some c ->
                         exists n, c = Num n /\ 0 <= n
}.

(** The object that stands for each input box when [update] returns:
    the matched objects with the centroids they took, then the newly
    registered ids with theirs. *)
Definition owners (t : CentroidTracker) (rects : list rect) : list (Z * centroid) :=
  let M := matches_of t rects in
  pairs_of t rects M ++
  combine (id_range (nextObjectID t) (length (new_centroids rects M)))
          (new_centroids rects M).

(** Counting centroids: how many entries of [l] equal [p], and how many
    of them sit at indices not in [used]. *)
Definition indexed {A : Type} (l : list A) : list (nat * A) :=
  combine (seq 0 (length l)) l.

Definition tally (p : centroid) (l : list centroid) : nat :=
  length (filter (fun x => centroid_eqb x p) l).

Definition spare_at (used : list nat) (p : centroid) (ix : nat * centroid) : bool :=
  negb (set_has (fst ix) used) && centroid_eqb (snd ix) p.

Definition spare (l : list centroid) (used : list nat) (p : centroid) : nat :=
  length (filter (spare_at used p) (indexed l)).

(** [tick]'s running [(bestDist, bestId)] candidate for one map entry. *)
Definition tagged (cx cy : Z) (e : Z * centroid) : Z * Z :=
  (hypot2 (fst (snd e) - cx) (snd (snd e) - cy), fst e).

(** The idempotence property as the specification states it: calling
    [update] again with the
    box list of the call just made leaves the live ids and their
    centroids as they are. *)
Definition repeat_is_noop : Prop :=
  forall t rects, reachable t ->
    let t1 := update t rects in
    let t2 := update t1 rects in
    forall id, map_get id (objects t2) = map_get id (objects t1).

(** Every stored counter is a number between 0 and [maxDisappeared]. *)
Definition counts_bounded (t : CentroidTracker) : Prop :=
  forall k c, map_get k (disappeared t) = Some c ->
              exists n, c = Num n /\ 0 <= n <= maxDisappeared t.


(** Two trackers that answer every lookup alike. *)
Definition same_view (t1 t2 : CentroidTracker) : Prop :=
  nextObjectID t1 = nextObjectID t2 /\
  maxDisappeared t1 = maxDisappeared t2 /\
  maxDistance t1 = maxDistance t2 /\
  forall k, map_get k (objects t1) = map_get k (objects t2) /\
            map_get k (disappeared t1) = map_get k (disappeared t2).

(** ** Notions for the further properties *)

Definition mem_z (k : Z) (l : list Z) : bool := existsb (Z.eqb k) l.

(** One more missed frame would put [k]'s counter above
    [maxDisappeared]: the test of the two ageing loops. *)
Definition ages_out (t : CentroidTracker) (k : Z) : bool :=
  count_gt (Some (count_incr (map_get k (disappeared t)))) (maxDisappeared t).

(** [k] misses the frame [rects] and is deregistered for it. *)
Definition dropped (t : CentroidTracker) (rects : list rect) (k : Z) : bool :=
  mem_z k (unmatched_ids t (matches_of t rects)) && ages_out t k.

(** Both tables list the same ids in the same order, the ascending one. *)
Definition in_order (t : CentroidTracker) : Prop :=
  map_keys (objects t) = map_keys (disappeared t) /\
  StronglySorted Z.lt (map_keys (objects t)).

(** The same box given by its other two corners. *)
Definition flip_rect (r : rect) : rect :=
  let '(x1, y1, x2, y2) := r in (x2, y2, x1, y1).

(* ================================================================= *)
(** ** The class filter of [tick]

    A JavaScript string is the list of its characters; the model
    stands for strings whose characters are all below U+0080
    ([ascii7]), where [trim] removes the six characters below and
    [toLowerCase] moves [A]..[Z] only. *)

Definition jsstring : Type := list Ascii.ascii.

Definition ascii7 (s : jsstring) : Prop :=
  Forall (fun c => (Ascii.N_of_ascii c < 128)%N) s.

Open Scope char_scope.

(** TAB, LF, VT, FF, CR and SPACE. *)
Definition is_space (c : Ascii.ascii) : bool :=
  existsb (Ascii.eqb c) ["009"; "010"; "011"; "012"; "013"; " "].

Definition is_comma (c : Ascii.ascii) : bool := Ascii.eqb c ",".

Close Scope char_scope.

Definition to_lower_char (c : Ascii.ascii) : Ascii.ascii :=
  let n := Ascii.N_of_ascii c in
  if ((65 <=? n) && (n <=? 90))%N then Ascii.ascii_of_N (n + 32) else c.

(** [s.toLowerCase()] *)
Definition to_lower (s : jsstring) : jsstring := map to_lower_char s.

Fixpoint trim_start (s : jsstring) : jsstring :=
  match s with
  | [] => []
  | c :: s' => if is_space c then trim_start s' else s
  end.

Definition trim_end (s : jsstring) : jsstring := rev (trim_start (rev s)).

(** [s.trim()] *)
Definition trim (s : jsstring) : jsstring := trim_end (trim_start s).

(** [s.split(',')]: the pieces between the commas, empty ones included. *)
Fixpoint split_comma (s : jsstring) : list jsstring :=
  match s with
  | [] => [[]]
  | c :: s' =>
      if is_comma c then [] :: split_comma s'
      else match split_comma s' with
           | piece :: pieces => (c :: piece) :: pieces
           | [] => [[c]]
           end
  end.

(** [Boolean(s)] for a string: it is not empty. *)
Definition truthy (s : jsstring) : bool :=
  match s with
  | [] => false
  | _ => true
  end.

Fixpoint str_eqb (a b : jsstring) : bool :=
  match a, b with
  | [], [] => true
  | x :: a', y :: b' => Ascii.eqb x y && str_eqb a' b'
  | _, _ => false
  end.

(** [wanted.includes(x)] *)
Definition includes (wanted : list jsstring) (x : jsstring) : bool :=
  existsb (str_eqb x) wanted.

(** [filterClass.split(',').map(s => s.trim().toLowerCase()).filter(Boolean)] *)
Definition wanted_of (filterClass : jsstring) : list jsstring :=
  filter truthy (map (fun s => to_lower (trim s)) (split_comma filterClass)).

(** [filtered]: [class_of p] is [p.class]. *)
Definition filter_predictions {P : Type} (class_of : P -> jsstring)
  (filterClass : jsstring) (predictions : list P) : list P :=
  let wanted := wanted_of filterClass in
  if (length wanted =? 0)%nat then predictions
  else filter (fun p => includes wanted (to_lower (class_of p))) predictions.

(* ================================================================= *)
(** ** The detections [tick] logs and the rows the backend stores

    A filtered prediction is taken with its class, its score and the
    rounded box [tick] computes for it; scores are not interpreted. *)

Record detection (C S : Type) : Type := mkDetection {
  d_track_id : option Z;
  d_class_name : C;
  d_conf : S;
  d_x1 : Z;
  d_y1 : Z;
  d_x2 : Z;
  d_y2 : Z;
  d_frame_index : Z
}.

Arguments mkDetection {C S}.
Arguments d_track_id {C S}.
Arguments d_class_name {C S}.
Arguments d_conf {C S}.
Arguments d_x1 {C S}.
Arguments d_y1 {C S}.
Arguments d_x2 {C S}.
Arguments d_y2 {C S}.
Arguments d_frame_index {C S}.

(** [detsWithIds] of one [tick], for the tracker state [t] before the
    call of [update]. *)
Definition dets_with_ids {C S : Type} (t : CentroidTracker)
  (filtered : list (C * S * rect)) (frameIdx : Z) : list (detection C S) :=
  let rects := map snd filtered in
  let objs := objects (update t rects) in
  map (fun p =>
         let '(c, s, r) := p in
         let '(r0, r1, r2, r3) := r in
         mkDetection (track_id objs r) c s r0 r1 r2 r3 frameIdx)
      filtered.

(** [x | 0] for a number [x] that is an integer: [x] modulo 2^32, taken
    in the signed 32-bit range. *)
Definition to_int32 (x : Z) : Z :=
  let m := x mod 2 ^ 32 in
  if 2 ^ 31 <=? m then m - 2 ^ 32 else m.

Definition fits_int32 (x : Z) : Prop := - 2 ^ 31 <= x < 2 ^ 31.

(** One element of [values] in the handler of [POST /api/detections],
    for a detection as [tick] sends it: [track_id ?? null],
    [class_name ?? null], the numeric [conf], and the five integers
    through [| 0]. *)
Definition row_of {C S : Type} (d : detection C S)
  : option Z * option C * S * Z * Z * Z * Z * Z :=
  (d_track_id d, Some (d_class_name d), d_conf d,
   to_int32 (d_x1 d), to_int32 (d_y1 d), to_int32 (d_x2 d), to_int32 (d_y2 d),
   to_int32 (d_frame_index d)).

(** A box reduced to the point [(x, y)], which is then its centroid. *)
Definition box_at (x y : Z) : rect := (x, y, x, y).

(* ================================================================= *)
(** ** The matching loop on doubles

    [Math.hypot] returns a double, and the tests [D[r][c] < minVal] and
    [minVal > this.maxDistance] of [update] compare doubles.  This part
    embeds the matrix and the matching loop of [update] on Rocq's
    primitive floats: the binary64 numbers of IEEE 754 with rounding to
    nearest, ties to even, which is the arithmetic of a JavaScript
    number. *)

(** The JavaScript number an integer is: the double nearest to it
    (the integer itself up to 2^53). *)
Definition number (z : Z) : PrimFloat.float :=
  FloatOps.SF2Prim (SpecFloat.binary_normalize FloatOps.prec FloatOps.emax z 0 false).

(** One round of the compensated summation inside [Math.hypot]:
    [[
      const n = absValues[i] / max;
      const summand = (n * n) - compensation;
      const preliminary = sum + summand;
      compensation = (preliminary - sum) - summand;
      sum = preliminary;
    ]] *)
Definition kahan_step (max : PrimFloat.float)
  (acc : PrimFloat.float * PrimFloat.float) (a : PrimFloat.float)
  : PrimFloat.float * PrimFloat.float :=
  let '(sum, compensation) := acc in
  let n := (a / max)%float in
  let summand := (n * n - compensation)%float in
  let preliminary := (sum + summand)%float in
  (preliminary, (preliminary - sum - summand)%float).

(** [Math.hypot(x, y)].  ECMAScript leaves its result
    "implementation-approximated"; this is the algorithm of V8, the
    engine of Chrome and Node: [max] is the larger of the two
    magnitudes, the squares of the magnitudes divided by [max] are
    added with Kahan's compensation, and the square root of the sum is
    multiplied by [max]. *)
Definition Math_hypot (x y : PrimFloat.float) : PrimFloat.float :=
  let ax := PrimFloat.abs x in
  let ay := PrimFloat.abs y in
  let max := if (PrimFloat.zero <? ax)%float then ax else PrimFloat.zero in
  let max := if (max <? ay)%float then ay else max in
  if (max =? PrimFloat.infinity)%float then PrimFloat.infinity
  else if PrimFloat.is_nan x || PrimFloat.is_nan y then PrimFloat.nan
  else if (max =? PrimFloat.zero)%float then PrimFloat.zero
  else
    let '(sum, _) :=
      fold_left (kahan_step max) [ax; ay] (PrimFloat.zero, PrimFloat.zero) in
    (PrimFloat.sqrt sum * max)%float.

(** [Math.hypot(dx, dy)] for two centroids; [dx] and [dy] are
    differences of integers, which a double holds exactly. *)
Definition distance (p q : centroid) : PrimFloat.float :=
  Math_hypot (number (fst p - fst q)) (number (snd p - snd q)).

(** [D], as lines 57-66 fill it. *)
Definition hypot_matrix (objectCentroids inputCentroids : list centroid)
  : list (list PrimFloat.float) :=
  map (fun oc => map (fun ic => distance oc ic) inputCentroids) objectCentroids.

(** The running minimum [(minVal, minR, minC)]; [None] is the state
    [(Infinity, -1, -1)] the scan starts from. *)
Definition best_f64 : Type := option (PrimFloat.float * nat * nat).

Definition minVal_of (b : best_f64) : PrimFloat.float :=
  match b with
  | Some (minVal, _, _) => minVal
  | None => PrimFloat.infinity
  end.

(** [if (D[r][c] < minVal) { minVal = D[r][c]; minR = r; minC = c; }] *)
Definition improve_f64 (b : best_f64) (d : PrimFloat.float) (r c : nat) : best_f64 :=
  if (d <? minVal_of b)%float then Some (d, r, c) else b.

Fixpoint scan_cols_f64 (assignedCols : list nat) (r c : nat)
  (row : list PrimFloat.float) (b : best_f64) : best_f64 :=
  match row with
  | [] => b
  | d :: row' =>
      scan_cols_f64 assignedCols r (S c) row'
        (if set_has c assignedCols then b else improve_f64 b d r c)
  end.

Fixpoint scan_rows_f64 (assignedRows assignedCols : list nat) (r : nat)
  (D : list (list PrimFloat.float)) (b : best_f64) : best_f64 :=
  match D with
  | [] => b
  | row :: D' =>
      scan_rows_f64 assignedRows assignedCols (S r) D'
        (if set_has r assignedRows then b else scan_cols_f64 assignedCols r 0 row b)
  end.

Definition find_min_f64 (D : list (list PrimFloat.float))
  (assignedRows assignedCols : list nat) : best_f64 :=
  scan_rows_f64 assignedRows assignedCols 0 D None.

(** [while (true) { ... }] with its two [break]s, in the order of the
    code: [minVal === Infinity], then [minVal > this.maxDistance].  One
    unit of fuel per iteration; [None] when the fuel runs out before a
    [break]. *)
Fixpoint greedy_loop_f64 (fuel : nat) (D : list (list PrimFloat.float))
  (maxDist : PrimFloat.float)
  (assignedRows assignedCols : list nat) (matches : list (nat * nat))
  : option (list (nat * nat)) :=
  match fuel with
  | O => None
  | S fuel' =>
      let b := find_min_f64 D assignedRows assignedCols in
      if (minVal_of b =? PrimFloat.infinity)%float then Some matches
      else if (maxDist <? minVal_of b)%float then Some matches
      else
        match b with
        | Some (_, minR, minC) =>
            greedy_loop_f64 fuel' D maxDist
              (minR :: assignedRows) (minC :: assignedCols)
              (matches ++ [(minR, minC)])
        | None => Some matches
        end
  end.

(** The matches the loop leaves; the fuel is enough
    ([greedy_terminates_f64]). *)
Definition greedy_f64 (D : list (list PrimFloat.float)) (maxDist : PrimFloat.float)
  : list (nat * nat) :=
  match greedy_loop_f64 (S (length D)) D maxDist [] [] [] with
  | Some matches => matches
  | None => []
  end.

(** The matrix [D] and the matches of one call of [update]. *)
Definition D_of (t : CentroidTracker) (rects : list rect)
  : list (list PrimFloat.float) :=
  hypot_matrix (map_values (objects t)) (map centroid_of rects).

Definition matches_f64 (t : CentroidTracker) (rects : list rect) : list (nat * nat) :=
  greedy_f64 (D_of t rects) (number (maxDistance t)).

(** [update(rects)] with the matching loop run on doubles. *)
Definition update_full_f64 (t : CentroidTracker) (rects : list rect)
  : list Z * CentroidTracker :=
  if (length (objects t) =? 0)%nat then
    register_all (map centroid_of rects) t
  else if (length rects =? 0)%nat then
    ([], miss_all (map_keys (disappeared t)) t)
  else
    apply_matches t rects (matches_f64 t rects).

Definition update_f64 (t : CentroidTracker) (rects : list rect) : CentroidTracker :=
  snd (update_full_f64 t rects).

(** The ids of the objects a frame matches. *)
Definition matched_ids_f64 (t : CentroidTracker) (rects : list rect) : list Z :=
  map fst (pairs_of t rects (matches_f64 t rects)).

(** [D[r][c]], when both indices are in range. *)
Definition cell_f64 (D : list (list PrimFloat.float)) (r c : nat)
  : option PrimFloat.float :=
  match nth_error D r with
  | Some row => nth_error row c
  | None => None
  end.

(** [D[r][c] = v] is the entry the scan stops on: it is below
    [Infinity], no entry among the rows and columns not yet assigned
    is smaller, and none that comes before it in row-major order is as
    small.  (An entry that is [Infinity] or not a number is never below
    the running minimum, so it is never taken.) *)
Definition first_min_f64 (D : list (list PrimFloat.float))
  (assignedRows assignedCols : list nat) (r c : nat) (v : PrimFloat.float) : Prop :=
  cell_f64 D r c = Some v /\ ~ In r assignedRows /\ ~ In c assignedCols /\
  (v <? PrimFloat.infinity)%float = true /\
  forall r' c' v',
    cell_f64 D r' c' = Some v' -> ~ In r' assignedRows -> ~ In c' assignedCols ->
    (v' <? v)%float = false /\
    (row_major_lt r' c' r c -> (v' <=? v)%float = false).

(** The greedy selection of the specification, over a matrix of
    doubles: the last index is the list of matches committed from this
    point on. *)
Inductive greedy_spec_f64 (D : list (list PrimFloat.float)) (maxDist : PrimFloat.float)
  : list nat -> list nat -> list (nat * nat) -> Prop :=
| greedy_exhausted_f64 : forall aR aC,
    (forall r c v, cell_f64 D r c = Some v -> ~ In r aR -> ~ In c aC ->
                   (v <? PrimFloat.infinity)%float = false) ->
    greedy_spec_f64 D maxDist aR aC []
| greedy_stop_f64 : forall aR aC r c v,
    first_min_f64 D aR aC r c v ->
    (maxDist <? v)%float = true ->
    greedy_spec_f64 D maxDist aR aC []
| greedy_commit_f64 : forall aR aC r c v ms,
    first_min_f64 D aR aC r c v ->
    (maxDist <? v)%float = false ->
    greedy_spec_f64 D maxDist (r :: aR) (c :: aC) ms ->
    greedy_spec_f64 D maxDist aR aC ((r, c) :: ms).

(** A running minimum over a list of things weighed by a double,
    starting from [Infinity] and keeping the first of equal weights. *)
Definition top_f64 {A : Type} (w : A -> PrimFloat.float) (b : option A)
  : PrimFloat.float :=
  match b with
  | Some y => w y
  | None => PrimFloat.infinity
  end.

Definition pick_f64 {A : Type} (w : A -> PrimFloat.float) (b : option A) (x : A)
  : option A :=
  if (w x <? top_f64 w b)%float then Some x else b.

Definition weight_f64 (x : PrimFloat.float * nat * nat) : PrimFloat.float :=
  fst (fst x).

Fixpoint cells_row_f64 (r c : nat) (row : list PrimFloat.float)
  : list (PrimFloat.float * nat * nat) :=
  match row with
  | [] => []
  | d :: row' => (d, r, c) :: cells_row_f64 r (S c) row'
  end.

Fixpoint cells_from_f64 (r : nat) (D : list (list PrimFloat.float))
  : list (PrimFloat.float * nat * nat) :=
  match D with
  | [] => []
  | row :: D' => cells_row_f64 r 0 row ++ cells_from_f64 (S r) D'
  end.

Definition cell_lt_f64 (x y : PrimFloat.float * nat * nat) : Prop :=
  row_major_lt (snd (fst x)) (snd x) (snd (fst y)) (snd y).

Definition free_f64 (aR aC : list nat) (x : PrimFloat.float * nat * nat) : bool :=
  negb (set_has (snd (fst x)) aR) && negb (set_has (snd x) aC).

(** [update] with the choice of the matches left open: [matcher] stands
    for the matching loop.  [update_full] is [update_full_with
    matches_of] and [update_full_f64] is [update_full_with
    matches_f64]; what is shown for every [matcher] that returns
    matches over distinct rows and distinct columns, all in range,
    holds for both. *)
Definition update_full_with (matcher : CentroidTracker -> list rect -> list (nat * nat))
  (t : CentroidTracker) (rects : list rect) : list Z * CentroidTracker :=
  if (length (objects t) =? 0)%nat then
    register_all (map centroid_of rects) t
  else if (length rects =? 0)%nat then
    ([], miss_all (map_keys (disappeared t)) t)
  else
    apply_matches t rects (matcher t rects).

Definition update_with (matcher : CentroidTracker -> list rect -> list (nat * nat))
  (t : CentroidTracker) (rects : list rect) : CentroidTracker :=
  snd (update_full_with matcher t rects).

(** The object [k] misses the frame under [matcher] and its count
    passes [maxDisappeared]. *)
Definition dropped_with (matcher : CentroidTracker -> list rect -> list (nat * nat))
  (t : CentroidTracker) (rects : list rect) (k : Z) : bool :=
  mem_z k (unmatched_ids t (matcher t rects)) && ages_out t k.

(** The (object centroid, input centroid) pairs of a frame. *)
Definition frame_pairs (t : CentroidTracker) (rects : list rect)
  : list (centroid * centroid) :=
  list_prod (map_values (objects t)) (map centroid_of rects).

(** Rounding changes no test of the matching loop on this frame: every
    computed distance is below [Infinity], it is above the threshold
    exactly when the exact distance is, and two computed distances
    compare as the exact ones do. *)
Definition rounding_neutral (t : CentroidTracker) (rects : list rect) : bool :=
  let ps := frame_pairs t rects in
  forallb (fun x =>
    (distance (fst x) (snd x) <? PrimFloat.infinity)%float &&
    Bool.eqb (number (maxDistance t) <? distance (fst x) (snd x))%float
             (exceeds (dist2 (fst x) (snd x)) (maxDistance t)) &&
    forallb (fun y =>
      Bool.eqb (distance (fst x) (snd x) <? distance (fst y) (snd y))%float
               (dist2 (fst x) (snd x) <? dist2 (fst y) (snd y))) ps) ps.

(* ================================================================= *)
(** * Properties *)

(** ** The scenarios of the specification, evaluated *)

Example scenario_A :
  let t1 := update (new_tracker 1 50) [box_at 10 10] in
  let t2 := update t1 [] in
  let t3 := update t2 [] in
  objects t1 = [(1, (10, 10))] /\
  objects t2 = [(1, (10, 10))] /\ disappeared t2 = [(1, Num 1)] /\
  objects t3 = [].
Proof. vm_compute. repeat split. Qed.

Example scenario_B :
  let t1 := update (new_tracker 1 50) [box_at 0 0; box_at 100 100] in
  let t2 := update t1 [box_at 2 1] in
  objects t1 = [(1, (0, 0)); (2, (100, 100))] /\
  objects t2 = [(1, (2, 1)); (2, (100, 100))] /\
  disappeared t2 = [(1, Num 0); (2, Num 1)].
Proof. vm_compute. repeat split. Qed.

Example scenario_C :
  let t1 := update (new_tracker 50 10) [box_at 0 0] in
  let t2 := update t1 [box_at 50 50] in
  objects t2 = [(1, (0, 0)); (2, (50, 50))] /\
  disappeared t2 = [(1, Num 1); (2, Num 0)].
Proof. vm_compute. repeat split. Qed.


(** ** Maps *)

Lemma map_get_set {V} (k k' : Z) (v : V) m :
  map_get k (map_set k' v m) = if k' =? k then Some v else map_get k m.
Proof.
  induction m as [|[a w] m IH]; simpl.
  - destruct (k' =? k); reflexivity.
  - destruct (a =? k') eqn:Ea; simpl.
    + apply Z.eqb_eq in Ea; subst a. destruct (k' =? k); reflexivity.
    + rewrite IH. destruct (k' =? k) eqn:Ek; [|reflexivity].
      apply Z.eqb_eq in Ek; subst k'. now rewrite Ea.
Qed.

Lemma map_get_delete {V} (k k' : Z) (m : list (Z * V)) :
  map_get k (map_delete k' m) = if k' =? k then None else map_get k m.
Proof.
  induction m as [|[a w] m IH]; simpl.
  - now destruct (k' =? k).
  - destruct (a =? k') eqn:Ea; simpl.
    + apply Z.eqb_eq in Ea; subst a. rewrite IH. now destruct (k' =? k).
    + rewrite IH. destruct (k' =? k) eqn:Ek; [|reflexivity].
      apply Z.eqb_eq in Ek; subst k'. now rewrite Ea.
Qed.

Lemma map_get_None {V} (k : Z) (m : list (Z * V)) :
  map_get k m = None <-> ~ In k (map_keys m).
Proof.
  induction m as [|[a w] m IH]; simpl.
  - tauto.
  - destruct (a =? k) eqn:Ea.
    + apply Z.eqb_eq in Ea. split; [discriminate | intros H; exfalso; auto].
    + apply Z.eqb_neq in Ea. rewrite IH. tauto.
Qed.

Lemma map_get_live {V} (k : Z) (m : list (Z * V)) :
  In k (map_keys m) <-> exists v, map_get k m = Some v.
Proof.
  destruct (map_get k m) as [v|] eqn:E.
  - split; [eauto|]. intros _.
    destruct (in_dec Z.eq_dec k (map_keys m)) as [i|n]; [exact i|].
    apply map_get_None in n. congruence.
  - split.
    + intros H. apply map_get_None in E. contradiction.
    + intros [v H]. discriminate.
Qed.

Lemma map_get_In {V} (k : Z) (v : V) m :
  map_get k m = Some v -> In (k, v) m.
Proof.
  induction m as [|[a w] m IH]; simpl; [discriminate|].
  destruct (a =? k) eqn:Ea.
  - apply Z.eqb_eq in Ea; subst. intros [= ->]. now left.
  - auto.
Qed.

Lemma map_In_get {V} (k : Z) (v : V) m :
  NoDup (map_keys m) -> In (k, v) m -> map_get k m = Some v.
Proof.
  induction m as [|[a w] m IH]; simpl; [tauto|].
  intros Hnd [E|Hin]; inversion Hnd; subst.
  - injection E as -> ->. now rewrite Z.eqb_refl.
  - destruct (a =? k) eqn:Ea; [|auto].
    apply Z.eqb_eq in Ea; subst a. exfalso.
    apply H1. change k with (fst (k, v)). now apply in_map.
Qed.

Lemma map_keys_set_nodup {V} (k : Z) (v : V) m :
  NoDup (map_keys m) -> NoDup (map_keys (map_set k v m)).
Proof.
  induction m as [|[a w] m IH]; simpl; intros Hnd.
  - constructor; [tauto | constructor].
  - inversion Hnd; subst. destruct (a =? k) eqn:Ea; simpl.
    + apply Z.eqb_eq in Ea; subst a. now constructor.
    + constructor; [|auto]. intros Hin.
      apply map_get_live in Hin. destruct Hin as [x Hx].
      rewrite map_get_set in Hx. rewrite Z.eqb_sym, Ea in Hx.
      apply H1. apply map_get_live. eauto.
Qed.

Lemma map_keys_delete_nodup {V} (k : Z) (m : list (Z * V)) :
  NoDup (map_keys m) -> NoDup (map_keys (map_delete k m)).
Proof.
  induction m as [|[a w] m IH]; simpl; intros Hnd; [constructor|].
  inversion Hnd; subst. destruct (a =? k) eqn:Ea; simpl; [auto|].
  constructor; [|auto]. intros Hin.
  apply map_get_live in Hin. destruct Hin as [x Hx].
  rewrite map_get_delete in Hx. destruct (k =? a); [discriminate|].
  apply H1. apply map_get_live. eauto.
Qed.

(** ** One step of each kind, key by key *)

Lemma miss_unfold (id : Z) (t : CentroidTracker) :
  let c' := count_incr (map_get id (disappeared t)) in
  miss id t =
  if count_gt (Some c') (maxDisappeared t)
  then mkTracker (nextObjectID t)
         (map_delete id (objects t))
         (map_delete id (map_set id c' (disappeared t)))
         (maxDisappeared t) (maxDistance t)
  else mkTracker (nextObjectID t) (objects t)
         (map_set id c' (disappeared t))
         (maxDisappeared t) (maxDistance t).
Proof.
  unfold miss; simpl. rewrite map_get_set, Z.eqb_refl. reflexivity.
Qed.

Lemma miss_fields (id : Z) (t : CentroidTracker) :
  nextObjectID (miss id t) = nextObjectID t /\
  maxDisappeared (miss id t) = maxDisappeared t /\
  maxDistance (miss id t) = maxDistance t.
Proof.
  rewrite (miss_unfold id t).
  destruct (count_gt _ _); simpl; auto.
Qed.

Lemma miss_objects (id k : Z) (t : CentroidTracker) :
  map_get k (objects (miss id t)) =
  if (id =? k) && count_gt (Some (count_incr (map_get id (disappeared t))))
                           (maxDisappeared t)
  then None else map_get k (objects t).
Proof.
  rewrite (miss_unfold id t).
  destruct (count_gt _ _); simpl.
  - rewrite map_get_delete. now rewrite andb_true_r.
  - now rewrite andb_false_r.
Qed.

Lemma miss_disappeared (id k : Z) (t : CentroidTracker) :
  map_get k (disappeared (miss id t)) =
  if id =? k then
    (if count_gt (Some (count_incr (map_get id (disappeared t)))) (maxDisappeared t)
     then None else Some (count_incr (map_get id (disappeared t))))
  else map_get k (disappeared t).
Proof.
  rewrite (miss_unfold id t).
  destruct (count_gt _ _); simpl.
  - rewrite map_get_delete, map_get_set. now destruct (id =? k).
  - now rewrite map_get_set.
Qed.

Lemma miss_maps_ok (id : Z) (t : CentroidTracker) :
  maps_ok t -> maps_ok (miss id t).
Proof.
  intros [Ho Hd].
  rewrite (miss_unfold id t).
  destruct (count_gt _ _); split; simpl;
    auto using @map_keys_set_nodup, @map_keys_delete_nodup.
Qed.

Lemma rematch_maps_ok (id : Z) (c : centroid) (t : CentroidTracker) :
  maps_ok t -> maps_ok (rematch id c t).
Proof.
  intros [Ho Hd]. split; simpl; auto using @map_keys_set_nodup.
Qed.

Lemma register_maps_ok (c : centroid) (t : CentroidTracker) :
  maps_ok t -> maps_ok (snd (register c t)).
Proof.
  intros [Ho Hd]. split; simpl; auto using @map_keys_set_nodup.
Qed.

Lemma deregister_maps_ok (id : Z) (t : CentroidTracker) :
  maps_ok t -> maps_ok (deregister id t).
Proof.
  intros [Ho Hd]. split; simpl; auto using @map_keys_delete_nodup.
Qed.

(** ** The ageing loops *)

Lemma miss_all_fields (ids : list Z) (t : CentroidTracker) :
  nextObjectID (miss_all ids t) = nextObjectID t /\
  maxDisappeared (miss_all ids t) = maxDisappeared t /\
  maxDistance (miss_all ids t) = maxDistance t.
Proof.
  revert t. induction ids as [|a ids IH]; intros t; simpl; [auto|].
  destruct (IH (miss a t)) as (H1 & H2 & H3).
  destruct (miss_fields a t) as (G1 & G2 & G3).
  unfold miss_all in *. simpl. rewrite H1, H2, H3. auto.
Qed.

Lemma miss_all_maps_ok (ids : list Z) (t : CentroidTracker) :
  maps_ok t -> maps_ok (miss_all ids t).
Proof.
  revert t. induction ids as [|a ids IH]; intros t H; simpl; [auto|].
  apply IH. now apply miss_maps_ok.
Qed.

Lemma miss_all_other (ids : list Z) (k : Z) (t : CentroidTracker) :
  ~ In k ids ->
  map_get k (objects (miss_all ids t)) = map_get k (objects t) /\
  map_get k (disappeared (miss_all ids t)) = map_get k (disappeared t).
Proof.
  revert t. induction ids as [|a ids IH]; intros t Hk; simpl; [auto|].
  simpl in Hk. destruct (IH (miss a t)) as [H1 H2]; [tauto|].
  unfold miss_all in *; simpl. rewrite H1, H2.
  rewrite miss_objects, miss_disappeared.
  assert (E : (a =? k) = false) by (apply Z.eqb_neq; tauto).
  now rewrite E.
Qed.

Lemma miss_all_hit (ids : list Z) (k : Z) (t : CentroidTracker) :
  NoDup ids -> In k ids ->
  let c' := count_incr (map_get k (disappeared t)) in
  map_get k (objects (miss_all ids t)) =
    (if count_gt (Some c') (maxDisappeared t) then None else map_get k (objects t)) /\
  map_get k (disappeared (miss_all ids t)) =
    (if count_gt (Some c') (maxDisappeared t) then None else Some c').
Proof.
  revert t. induction ids as [|a ids IH]; intros t Hnd Hin; [inversion Hin|].
  inversion Hnd as [|? ? Hna Hnd']; subst.
  destruct (Z.eq_dec a k) as [->|Hne].
  - destruct (miss_all_other ids k (miss k t) Hna) as [H1 H2].
    unfold miss_all in *; simpl. rewrite H1, H2.
    rewrite miss_objects, miss_disappeared, Z.eqb_refl. simpl. auto.
  - destruct Hin as [E|Hin]; [contradiction|].
    specialize (IH (miss a t) Hnd' Hin). simpl in IH.
    destruct (miss_fields a t) as (_ & G2 & _).
    unfold miss_all in *; simpl.
    rewrite miss_objects, miss_disappeared, G2 in IH.
    assert (E : (a =? k) = false) by (now apply Z.eqb_neq).
    rewrite E in IH. simpl in IH. exact IH.
Qed.

(** ** The loop over the matches *)

Lemma rematch_all_fields (pairs : list (Z * centroid)) (t : CentroidTracker) :
  nextObjectID (rematch_all pairs t) = nextObjectID t /\
  maxDisappeared (rematch_all pairs t) = maxDisappeared t /\
  maxDistance (rematch_all pairs t) = maxDistance t.
Proof.
  revert t. induction pairs as [|p pairs IH]; intros t; simpl; [auto|].
  destruct (IH (rematch (fst p) (snd p) t)) as (H1 & H2 & H3).
  unfold rematch_all in *. simpl. rewrite H1, H2, H3. auto.
Qed.

Lemma rematch_all_maps_ok (pairs : list (Z * centroid)) (t : CentroidTracker) :
  maps_ok t -> maps_ok (rematch_all pairs t).
Proof.
  revert t. induction pairs as [|p pairs IH]; intros t H; simpl; [auto|].
  apply IH. now apply rematch_maps_ok.
Qed.

Lemma rematch_all_other (pairs : list (Z * centroid)) (k : Z) (t : CentroidTracker) :
  ~ In k (map fst pairs) ->
  map_get k (objects (rematch_all pairs t)) = map_get k (objects t) /\
  map_get k (disappeared (rematch_all pairs t)) = map_get k (disappeared t).
Proof.
  revert t. induction pairs as [|p pairs IH]; intros t Hk; simpl; [auto|].
  simpl in Hk. destruct (IH (rematch (fst p) (snd p) t)) as [H1 H2]; [tauto|].
  unfold rematch_all in *; simpl. rewrite H1, H2. simpl.
  rewrite !map_get_set.
  assert (E : (fst p =? k) = false) by (apply Z.eqb_neq; tauto).
  now rewrite E.
Qed.

Lemma rematch_all_hit (pairs : list (Z * centroid)) (k : Z) (c : centroid)
  (t : CentroidTracker) :
  NoDup (map fst pairs) -> In (k, c) pairs ->
  map_get k (objects (rematch_all pairs t)) = Some c /\
  map_get k (disappeared (rematch_all pairs t)) = Some (Num 0).
Proof.
  revert t. induction pairs as [|p pairs IH]; intros t Hnd Hin; [inversion Hin|].
  simpl in Hnd. inversion Hnd as [|? ? Hna Hnd']; subst.
  destruct Hin as [->|Hin].
  - destruct (rematch_all_other pairs k (rematch k c t) Hna) as [H1 H2].
    unfold rematch_all in *; simpl. rewrite H1, H2. simpl.
    now rewrite !map_get_set, Z.eqb_refl.
  - unfold rematch_all in *; simpl. now apply IH.
Qed.

Lemma filter_all {A} (f : A -> bool) (l : list A) :
  (forall x, In x l -> f x = true) -> filter f l = l.
Proof.
  induction l as [|a l IH]; simpl; intros H; [reflexivity|].
  rewrite (H a) by auto. f_equal. apply IH. auto.
Qed.

Lemma filter_none {A} (f : A -> bool) (l : list A) :
  (forall x, In x l -> f x = false) -> filter f l = [].
Proof.
  induction l as [|a l IH]; simpl; intros H; [reflexivity|].
  rewrite (H a) by auto. apply IH. auto.
Qed.

Lemma filter_twice {A} (f g : A -> bool) (l : list A) :
  filter f (filter g l) = filter (fun x => g x && f x) l.
Proof.
  induction l as [|a l IH]; simpl; [reflexivity|].
  destruct (g a); simpl; [destruct (f a)|]; now rewrite IH.
Qed.

Lemma commit_fold (ids : list Z) (cs : list centroid) (M : list (nat * nat))
  (uR uC : list nat) (t : CentroidTracker) :
  fold_left (commit ids cs) M (uR, uC, t) =
  (filter (fun r => negb (set_has r (map fst M))) uR,
   filter (fun c => negb (set_has c (map snd M))) uC,
   rematch_all (map (fun m => (nth (fst m) ids 0, nth (snd m) cs (0, 0))) M) t).
Proof.
  revert uR uC t. induction M as [|[r c] M IH]; intros uR uC t; simpl.
  - rewrite !filter_all by reflexivity. reflexivity.
  - rewrite IH. unfold set_delete.
    apply f_equal2; [apply f_equal2|reflexivity].
    + rewrite filter_twice. apply filter_ext. intros a. simpl.
      now destruct (a =? r)%nat, (set_has a (map fst M)).
    + rewrite filter_twice. apply filter_ext. intros a. simpl.
      now destruct (a =? c)%nat, (set_has a (map snd M)).
Qed.

(** ** Registration of a list of centroids *)

Lemma register_all_fields (cs : list centroid) (t : CentroidTracker) :
  nextObjectID (snd (register_all cs t)) = nextObjectID t + Z.of_nat (length cs) /\
  maxDisappeared (snd (register_all cs t)) = maxDisappeared t /\
  maxDistance (snd (register_all cs t)) = maxDistance t.
Proof.
  revert t. induction cs as [|c cs IH]; intros t; simpl.
  - repeat split; lia.
  - specialize (IH (snd (register c t))). simpl in IH.
    destruct (register_all cs _) as [ids t2] eqn:E. simpl in *.
    destruct IH as (H1 & H2 & H3). repeat split; auto; lia.
Qed.

Lemma register_all_ids (cs : list centroid) (t : CentroidTracker) :
  fst (register_all cs t) = id_range (nextObjectID t) (length cs).
Proof.
  revert t. induction cs as [|c cs IH]; intros t; simpl; [reflexivity|].
  specialize (IH (snd (register c t))). simpl in IH.
  destruct (register_all cs _) as [ids t2] eqn:E. simpl in *.
  unfold id_range in *. simpl. f_equal; [lia|].
  rewrite IH, <- seq_shift, map_map. apply map_ext. intros a. lia.
Qed.

Lemma register_all_maps_ok (cs : list centroid) (t : CentroidTracker) :
  maps_ok t -> maps_ok (snd (register_all cs t)).
Proof.
  revert t. induction cs as [|c cs IH]; intros t H; simpl; [auto|].
  specialize (IH (snd (register c t)) (register_maps_ok c t H)). simpl in IH.
  now destruct (register_all cs _) as [ids t2] eqn:E.
Qed.

Lemma register_all_get (cs : list centroid) (k : Z) (t : CentroidTracker) :
  let n := nextObjectID t in
  let inside := (n <=? k) && (k <? n + Z.of_nat (length cs)) in
  map_get k (objects (snd (register_all cs t))) =
    (if inside then nth_error cs (Z.to_nat (k - n)) else map_get k (objects t)) /\
  map_get k (disappeared (snd (register_all cs t))) =
    (if inside then Some (Num 0) else map_get k (disappeared t)).
Proof.
  revert t. induction cs as [|c cs IH]; intros t; simpl.
  - replace (_ && _) with false; [auto|]. symmetry.
    apply andb_false_iff. rewrite Z.leb_gt, Z.ltb_ge. lia.
  - specialize (IH (snd (register c t))). simpl in IH.
    destruct (register_all cs _) as [ids t2] eqn:E. simpl in *.
    destruct IH as [H1 H2]. rewrite H1, H2, !map_get_set. clear H1 H2.
    set (n := nextObjectID t).
    destruct (Z.eq_dec n k) as [<-|Hne].
    + rewrite Z.eqb_refl, Z.sub_diag. simpl.
      replace ((n + 1 <=? n) && _) with false
        by (symmetry; apply andb_false_iff; left; apply Z.leb_gt; lia).
      replace ((n <=? n) && _) with true
        by (symmetry; apply andb_true_iff; split;
            [apply Z.leb_le | apply Z.ltb_lt]; lia).
      auto.
    + assert (E1 : (n =? k) = false) by now apply Z.eqb_neq.
      rewrite E1.
      destruct ((n + 1 <=? k) && (k <? n + 1 + Z.of_nat (length cs))) eqn:Ein.
      * apply andb_true_iff in Ein. rewrite Z.leb_le, Z.ltb_lt in Ein.
        replace ((n <=? k) && _) with true
          by (symmetry; apply andb_true_iff; split;
              [apply Z.leb_le | apply Z.ltb_lt]; lia).
        split; [|reflexivity].
        replace (Z.to_nat (k - n)) with (S (Z.to_nat (k - (n + 1)))) by lia.
        reflexivity.
      * apply andb_false_iff in Ein. rewrite Z.leb_gt, Z.ltb_ge in Ein.
        replace ((n <=? k) && _) with false
          by (symmetry; apply andb_false_iff; rewrite Z.leb_gt, Z.ltb_ge; lia).
        auto.
Qed.

(** ** Running minima *)

Section FirstMinimum.
Context {A : Type} (w : A -> Z).

Lemma fold_pick_some (l : list A) (b : A) :
  exists x, fold_left (pick_by w) l (Some b) = Some x.
Proof.
  revert b. induction l as [|a l IH]; intros b; simpl; [eauto|].
  destruct (w a <? w b); apply IH.
Qed.

Lemma fold_pick_from (l : list A) (b x : A) :
  fold_left (pick_by w) l (Some b) = Some x ->
  (x = b /\ Forall (fun y => w b <= w y) l) \/
  (exists l1 l2, l = l1 ++ x :: l2 /\ w x < w b /\
                 Forall (fun y => w x < w y) l1 /\
                 Forall (fun y => w x <= w y) l2).
Proof.
  revert b. induction l as [|a l IH]; intros b; simpl.
  - intros [= ->]. left. split; [reflexivity | constructor].
  - destruct (w a <? w b) eqn:E; intros H; apply IH in H.
    + apply Z.ltb_lt in E. right.
      destruct H as [[-> HF] | (l1 & l2 & -> & Hlt & H1 & H2)].
      * exists [], l. repeat split; auto.
      * exists (a :: l1), l2. repeat split; auto; try lia.
    + apply Z.ltb_ge in E.
      destruct H as [[-> HF] | (l1 & l2 & -> & Hlt & H1 & H2)].
      * left. split; [reflexivity|]. constructor; auto.
      * right. exists (a :: l1), l2. repeat split; auto.
        constructor; [lia | auto].
Qed.

Lemma fold_pick_first (l : list A) (x : A) :
  fold_left (pick_by w) l None = Some x ->
  exists l1 l2, l = l1 ++ x :: l2 /\
                Forall (fun y => w x < w y) l1 /\
                Forall (fun y => w x <= w y) l2.
Proof.
  destruct l as [|a l]; simpl; [discriminate|].
  intros H. apply fold_pick_from in H.
  destruct H as [[-> HF] | (l1 & l2 & -> & Hlt & H1 & H2)].
  - exists [], l. repeat split; auto.
  - exists (a :: l1), l2. repeat split; auto.
Qed.

Lemma fold_pick_none (l : list A) :
  fold_left (pick_by w) l None = None -> l = [].
Proof.
  destruct l as [|a l]; simpl; [reflexivity|].
  destruct (fold_pick_some l a) as [x ->]. discriminate.
Qed.

End FirstMinimum.

(** ** The scan of the matrix *)

Lemma set_has_In (x : nat) (s : list nat) : set_has x s = true <-> In x s.
Proof.
  unfold set_has. rewrite existsb_exists. split.
  - intros (y & Hy & E). apply Nat.eqb_eq in E. now subst.
  - intros H. exists x. split; [exact H | apply Nat.eqb_refl].
Qed.

Lemma set_has_not_In (x : nat) (s : list nat) : set_has x s = false <-> ~ In x s.
Proof.
  rewrite <- set_has_In. destruct (set_has x s); split; congruence.
Qed.

Lemma improve_pick (b : best) (d : Z) (r c : nat) :
  improve b d r c = pick_by weight b (d, r, c).
Proof. destruct b as [[[m ?] ?]|]; reflexivity. Qed.

Lemma scan_cols_flat (aC : list nat) (r c : nat) (row : list Z) (b : best) :
  scan_cols aC r c row b =
  fold_left (pick_by weight)
    (filter (fun x => negb (set_has (snd x) aC)) (cells_row r c row)) b.
Proof.
  revert c b. induction row as [|d row IH]; intros c b; simpl; [reflexivity|].
  rewrite IH. destruct (set_has c aC); simpl; [reflexivity|].
  now rewrite improve_pick.
Qed.

Lemma cells_row_row (r c : nat) (row : list Z) (x : Z * nat * nat) :
  In x (cells_row r c row) -> snd (fst x) = r.
Proof.
  revert c. induction row as [|d row IH]; intros c; simpl; [tauto|].
  intros [<-|H]; [reflexivity | eauto].
Qed.

Lemma scan_rows_flat (aR aC : list nat) (r : nat) (D : list (list Z)) (b : best) :
  scan_rows aR aC r D b =
  fold_left (pick_by weight) (filter (free aR aC) (cells_from r D)) b.
Proof.
  revert r b. induction D as [|row D IH]; intros r b; simpl; [reflexivity|].
  rewrite IH, filter_app, fold_left_app. f_equal.
  destruct (set_has r aR) eqn:E.
  - rewrite filter_none; [reflexivity|].
    intros x Hx. unfold free. now rewrite (cells_row_row _ _ _ _ Hx), E.
  - rewrite scan_cols_flat. f_equal. apply filter_ext_in.
    intros x Hx. unfold free. rewrite (cells_row_row _ _ _ _ Hx), E. reflexivity.
Qed.

Lemma In_cells_row (r c : nat) (row : list Z) (d : Z) (r' c' : nat) :
  In (d, r', c') (cells_row r c row) <->
  r' = r /\ (c <= c')%nat /\ nth_error row (c' - c) = Some d.
Proof.
  revert c. induction row as [|e row IH]; intros c; simpl.
  - split; [tauto|]. intros (_ & _ & H). now destruct (c' - c)%nat.
  - rewrite IH. split.
    + intros [[= -> -> ->] | (-> & Hle & Hn)].
      * rewrite Nat.sub_diag. auto.
      * repeat split; [lia|].
        replace (c' - c)%nat with (S (c' - S c)) by lia. exact Hn.
    + intros (-> & Hle & Hn).
      destruct (Nat.eq_dec c c') as [->|Hne].
      * rewrite Nat.sub_diag in Hn. simpl in Hn. injection Hn as ->. now left.
      * right. repeat split; [lia|].
        replace (c' - c)%nat with (S (c' - S c)) in Hn by lia. exact Hn.
Qed.

Lemma In_cells_from (r : nat) (D : list (list Z)) (d : Z) (r' c' : nat) :
  In (d, r', c') (cells_from r D) <->
  (r <= r')%nat /\ cell D (r' - r) c' = Some d.
Proof.
  revert r. induction D as [|row D IH]; intros r; simpl.
  - split; [tauto|]. intros [_ H]. unfold cell in H. now destruct (r' - r)%nat.
  - rewrite in_app_iff, In_cells_row, IH. unfold cell. split.
    + intros [(-> & _ & Hn) | (Hle & Hn)].
      * rewrite Nat.sub_diag, Nat.sub_0_r in *. auto.
      * split; [lia|].
        replace (r' - r)%nat with (S (r' - S r)) by lia. exact Hn.
    + intros (Hle & Hn).
      destruct (Nat.eq_dec r r') as [->|Hne].
      * rewrite Nat.sub_diag in Hn. simpl in Hn. left.
        rewrite Nat.sub_0_r. repeat split; auto; lia.
      * right. split; [lia|].
        replace (r' - r)%nat with (S (r' - S r)) in Hn by lia. exact Hn.
Qed.

Lemma sorted_app {A} (R : A -> A -> Prop) (l1 l2 : list A) :
  StronglySorted R l1 -> StronglySorted R l2 ->
  (forall x y, In x l1 -> In y l2 -> R x y) ->
  StronglySorted R (l1 ++ l2).
Proof.
  induction l1 as [|a l1 IH]; simpl; intros H1 H2 H; [exact H2|].
  inversion H1; subst. constructor.
  - apply IH; auto.
  - apply Forall_app. split; [assumption|].
    apply Forall_forall. intros y Hy. apply H; auto.
Qed.

Lemma sorted_filter {A} (R : A -> A -> Prop) (f : A -> bool) (l : list A) :
  StronglySorted R l -> StronglySorted R (filter f l).
Proof.
  induction 1 as [|a l Hs IH Hf]; simpl; [constructor|].
  destruct (f a); [|exact IH]. constructor; [exact IH|].
  apply Forall_forall. intros y Hy. apply filter_In in Hy.
  rewrite Forall_forall in Hf. apply Hf. tauto.
Qed.

Lemma sorted_split {A} (R : A -> A -> Prop) (l1 l2 : list A) (x : A) :
  StronglySorted R (l1 ++ x :: l2) ->
  Forall (fun y => R y x) l1 /\ Forall (R x) l2.
Proof.
  induction l1 as [|a l1 IH]; simpl; intros H; inversion H; subst.
  - split; [constructor | assumption].
  - destruct (IH H2) as [G1 G2]. split; [|exact G2].
    constructor; [|exact G1].
    rewrite Forall_forall in H3. apply H3. apply in_elt.
Qed.

Lemma cells_row_sorted (r c : nat) (row : list Z) :
  StronglySorted cell_lt (cells_row r c row).
Proof.
  revert c. induction row as [|d row IH]; intros c; simpl; constructor; [apply IH|].
  apply Forall_forall. intros [[e r'] c'] H. apply In_cells_row in H.
  unfold cell_lt, row_major_lt; simpl. right. split; [symmetry; tauto | lia].
Qed.

Lemma cells_from_sorted (r : nat) (D : list (list Z)) :
  StronglySorted cell_lt (cells_from r D).
Proof.
  revert r. induction D as [|row D IH]; intros r; simpl; [constructor|].
  apply sorted_app; [apply cells_row_sorted | apply IH |].
  intros [[d1 r1] c1] [[d2 r2] c2] H1 H2.
  apply In_cells_row in H1. apply In_cells_from in H2.
  unfold cell_lt, row_major_lt; simpl. left. lia.
Qed.

Lemma find_min_flat (D : list (list Z)) (aR aC : list nat) :
  find_min D aR aC =
  fold_left (pick_by weight) (filter (free aR aC) (cells_from 0 D)) None.
Proof. apply scan_rows_flat. Qed.

Lemma free_iff (aR aC : list nat) (d : Z) (r c : nat) :
  free aR aC (d, r, c) = true <-> ~ In r aR /\ ~ In c aC.
Proof.
  unfold free; simpl. rewrite andb_true_iff, !negb_true_iff, !set_has_not_In.
  tauto.
Qed.

Lemma find_min_some (D : list (list Z)) (aR aC : list nat) (v : Z) (r c : nat) :
  find_min D aR aC = Some (v, r, c) -> first_min D aR aC r c v.
Proof.
  rewrite find_min_flat. intros H.
  apply fold_pick_first in H. destruct H as (l1 & l2 & E & H1 & H2).
  assert (Hx : In (v, r, c) (filter (free aR aC) (cells_from 0 D)))
    by (rewrite E; apply in_elt).
  apply filter_In in Hx. destruct Hx as [Hc Hf].
  apply In_cells_from in Hc. rewrite Nat.sub_0_r in Hc. destruct Hc as [_ Hc].
  apply free_iff in Hf. destruct Hf as [Hr Hcol].
  repeat split; auto.
  - assert (Hy : In (v', r', c') (filter (free aR aC) (cells_from 0 D))).
    { apply filter_In. split.
      - apply In_cells_from. rewrite Nat.sub_0_r. split; [lia | assumption].
      - apply free_iff. auto. }
    rewrite E in Hy. apply in_app_or in Hy.
    rewrite Forall_forall in H1, H2.
    destruct Hy as [Hy | [Hy | Hy]].
    + specialize (H1 _ Hy). unfold weight in H1; simpl in H1. lia.
    + injection Hy as -> -> ->. lia.
    + specialize (H2 _ Hy). unfold weight in H2; simpl in H2. lia.
  - intros Hlt.
    assert (Hy : In (v', r', c') (filter (free aR aC) (cells_from 0 D))).
    { apply filter_In. split.
      - apply In_cells_from. rewrite Nat.sub_0_r. split; [lia | assumption].
      - apply free_iff. auto. }
    pose proof (sorted_filter cell_lt (free aR aC) _ (cells_from_sorted 0 D)) as Hs.
    rewrite E in Hs, Hy. apply sorted_split in Hs. destruct Hs as [_ Hs].
    apply in_app_or in Hy. rewrite Forall_forall in H1, Hs.
    destruct Hy as [Hy | [Hy | Hy]].
    + specialize (H1 _ Hy). unfold weight in H1; simpl in H1. lia.
    + injection Hy as -> -> ->. unfold row_major_lt in Hlt. lia.
    + specialize (Hs _ Hy). unfold cell_lt, row_major_lt in *; simpl in Hs. lia.
Qed.

Lemma find_min_none (D : list (list Z)) (aR aC : list nat) :
  find_min D aR aC = None ->
  forall r c v, cell D r c = Some v -> ~ In r aR -> ~ In c aC -> False.
Proof.
  rewrite find_min_flat. intros H r c v Hc Hr Hcol.
  apply fold_pick_none in H.
  assert (Hy : In (v, r, c) (filter (free aR aC) (cells_from 0 D))).
  { apply filter_In. split.
    - apply In_cells_from. rewrite Nat.sub_0_r. split; [lia | assumption].
    - apply free_iff. auto. }
  rewrite H in Hy. inversion Hy.
Qed.

(** ** The matching loop *)

Lemma cell_bounds (D : list (list Z)) (r c : nat) (v : Z) :
  cell D r c = Some v -> (r < length D)%nat.
Proof.
  unfold cell. destruct (nth_error D r) eqn:E; [|discriminate].
  intros _. apply nth_error_Some. congruence.
Qed.

Lemma greedy_loop_sound (fuel : nat) (D : list (list Z)) (maxDist : Z)
  (aR aC : list nat) (acc res : list (nat * nat)) :
  greedy_loop fuel D maxDist aR aC acc = Some res ->
  exists ms, res = acc ++ ms /\ greedy_spec D maxDist aR aC ms.
Proof.
  revert aR aC acc. induction fuel as [|fuel IH]; intros aR aC acc; simpl;
    [discriminate|].
  destruct (find_min D aR aC) as [[[v r] c]|] eqn:E.
  - apply find_min_some in E.
    destruct (exceeds v maxDist) eqn:Ex.
    + intros [= <-]. exists []. rewrite app_nil_r. split; [reflexivity|].
      eapply greedy_stop; eauto.
    + intros H. apply IH in H. destruct H as (ms & -> & Hg).
      exists ((r, c) :: ms). rewrite <- app_assoc. split; [reflexivity|].
      eapply greedy_commit; eauto.
  - intros [= <-]. exists []. rewrite app_nil_r. split; [reflexivity|].
    apply greedy_exhausted. now apply find_min_none.
Qed.

Lemma bounded_nodup_length (n : nat) (l : list nat) :
  NoDup l -> (forall x, In x l -> (x < n)%nat) -> (length l <= n)%nat.
Proof.
  intros Hnd Hb. rewrite <- (length_seq n 0).
  apply NoDup_incl_length; [exact Hnd|].
  intros x Hx. apply in_seq. specialize (Hb x Hx). lia.
Qed.

Lemma greedy_loop_total (fuel : nat) (D : list (list Z)) (maxDist : Z)
  (aR aC : list nat) (acc : list (nat * nat)) :
  NoDup aR -> (forall r, In r aR -> (r < length D)%nat) ->
  (length D < fuel + length aR)%nat ->
  exists res, greedy_loop fuel D maxDist aR aC acc = Some res.
Proof.
  revert aR aC acc. induction fuel as [|fuel IH]; intros aR aC acc Hnd Hb Hf.
  - pose proof (bounded_nodup_length _ _ Hnd Hb). simpl in Hf. lia.
  - simpl. destruct (find_min D aR aC) as [[[v r] c]|] eqn:E; [|eauto].
    destruct (exceeds v maxDist); [eauto|].
    apply find_min_some in E. destruct E as (Hc & Hr & _).
    apply IH.
    + now constructor.
    + intros x [<-|Hx]; [eapply cell_bounds; eauto | auto].
    + simpl. lia.
Qed.

(** The fuel [greedy] gives the loop is enough: the loop ends by one of
    its two [break]s. *)
Lemma greedy_terminates (D : list (list Z)) (maxDist : Z) :
  greedy_loop (S (length D)) D maxDist [] [] [] = Some (greedy D maxDist).
Proof.
  unfold greedy.
  destruct (greedy_loop_total (S (length D)) D maxDist [] [] []) as [res ->].
  - constructor.
  - intros r [].
  - simpl. lia.
  - reflexivity.
Qed.

Lemma greedy_meets_spec (D : list (list Z)) (maxDist : Z) :
  greedy_spec D maxDist [] [] (greedy D maxDist).
Proof.
  pose proof (greedy_terminates D maxDist) as H.
  apply greedy_loop_sound in H. destruct H as (ms & -> & H). exact H.
Qed.

Lemma first_min_unique (D : list (list Z)) (aR aC : list nat)
  (r c r' c' : nat) (v v' : Z) :
  first_min D aR aC r c v -> first_min D aR aC r' c' v' ->
  r = r' /\ c = c' /\ v = v'.
Proof.
  intros (Hc & Hr & Hcol & Hmin) (Hc' & Hr' & Hcol' & Hmin').
  destruct (Hmin _ _ _ Hc' Hr' Hcol') as [L1 S1].
  destruct (Hmin' _ _ _ Hc Hr Hcol) as [L2 S2].
  unfold row_major_lt in *.
  assert (r = r' /\ c = c') as [-> ->].
  { destruct (Nat.lt_trichotomy r r') as [H|[H|H]]; [lia| |lia].
    destruct (Nat.lt_trichotomy c c') as [G|[G|G]]; lia. }
  repeat split. congruence.
Qed.

Lemma greedy_spec_unique (D : list (list Z)) (maxDist : Z)
  (aR aC : list nat) (ms ms' : list (nat * nat)) :
  greedy_spec D maxDist aR aC ms -> greedy_spec D maxDist aR aC ms' -> ms = ms'.
Proof.
  intros H. revert ms'.
  induction H as [aR aC Hnone | aR aC r c v Hm Hx | aR aC r c v ms Hm Hx Hg IH];
    intros ms' H'; inversion H'; subst; try reflexivity.
  - exfalso. destruct H as (Hc & Hr & Hcol & _). eauto.
  - exfalso. destruct (first_min_unique _ _ _ _ _ _ _ _ _ Hm H) as (_ & _ & ->).
    congruence.
  - exfalso. destruct Hm as (Hc & Hr & Hcol & _). eauto.
  - exfalso. destruct (first_min_unique _ _ _ _ _ _ _ _ _ Hm H) as (_ & _ & ->).
    congruence.
  - destruct (first_min_unique _ _ _ _ _ _ _ _ _ Hm H) as (-> & -> & ->).
    f_equal. now apply IH.
Qed.

(** What every selection of the specification satisfies: distinct rows,
    distinct columns, all in range, all within [maxDist]. *)
Lemma greedy_spec_wellformed (D : list (list Z)) (maxDist : Z)
  (aR aC : list nat) (ms : list (nat * nat)) :
  greedy_spec D maxDist aR aC ms ->
  NoDup (map fst ms) /\ NoDup (map snd ms) /\
  (forall r, In r (map fst ms) -> ~ In r aR) /\
  (forall c, In c (map snd ms) -> ~ In c aC) /\
  (forall r c, In (r, c) ms ->
     exists v, cell D r c = Some v /\ exceeds v maxDist = false).
Proof.
  induction 1 as [aR aC Hnone | aR aC r c v Hm Hx | aR aC r c v ms Hm Hx Hg IH];
    simpl.
  - repeat split; try constructor; intros; tauto.
  - repeat split; try constructor; intros; tauto.
  - destruct IH as (N1 & N2 & F1 & F2 & Hin).
    destruct Hm as (Hc & Hr & Hcol & _).
    repeat split.
    + constructor; [|exact N1]. intros Hin'. apply (F1 _ Hin'). now left.
    + constructor; [|exact N2]. intros Hin'. apply (F2 _ Hin'). now left.
    + intros r' [<-|Hr']; [exact Hr|]. intros G. apply (F1 _ Hr'). now right.
    + intros c' [<-|Hc']; [exact Hcol|]. intros G. apply (F2 _ Hc'). now right.
    + intros r' c' [[= <- <-]|H']; [eauto | auto].
Qed.

(** ** The general case of [update], loop by loop *)

Lemma fold_miss_map (ids : list Z) (rows : list nat) (t : CentroidTracker) :
  fold_left (fun t' r => miss (nth r ids 0) t') rows t =
  miss_all (map (fun r => nth r ids 0) rows) t.
Proof.
  revert t. induction rows as [|r rows IH]; intros t; simpl; [reflexivity|].
  apply IH.
Qed.

Lemma matrix_rows (t : CentroidTracker) (rects : list rect) :
  length (matrix_of t rects) = length (objects t).
Proof.
  unfold matrix_of, distance_matrix, map_values. now rewrite !length_map.
Qed.

Lemma apply_matches_unfold (t : CentroidTracker) (rects : list rect)
  (M : list (nat * nat)) :
  apply_matches t rects M =
  register_all (new_centroids rects M)
    (miss_all (unmatched_ids t M) (rematch_all (pairs_of t rects M) t)).
Proof.
  unfold apply_matches. rewrite commit_fold, matrix_rows, length_map.
  rewrite fold_miss_map. reflexivity.
Qed.

Lemma nodup_map_nth (ids : list Z) (rs : list nat) :
  NoDup ids -> NoDup rs -> (forall r, In r rs -> (r < length ids)%nat) ->
  NoDup (map (fun r => nth r ids 0) rs).
Proof.
  intros Hids. induction 1 as [|r rs Hr Hnd IH]; intros Hb; simpl; constructor.
  - intros Hin. apply in_map_iff in Hin. destruct Hin as (r' & E & Hr').
    assert (r' = r).
    { apply (proj1 (NoDup_nth ids 0) Hids); auto with datatypes. }
    subst. contradiction.
  - apply IH. intros; apply Hb; now right.
Qed.

Lemma nth_injective (ids : list Z) (r r' : nat) :
  NoDup ids -> (r < length ids)%nat -> (r' < length ids)%nat ->
  nth r ids 0 = nth r' ids 0 -> r = r'.
Proof. intros H. apply (proj1 (NoDup_nth ids 0) H). Qed.

Lemma unmatched_rows_spec (t : CentroidTracker) (M : list (nat * nat)) (r : nat) :
  In r (unmatched_rows t M) <->
  (r < length (objects t))%nat /\ ~ In r (map fst M).
Proof.
  unfold unmatched_rows. rewrite filter_In, in_seq, negb_true_iff, set_has_not_In.
  intuition lia.
Qed.

Lemma unmatched_cols_spec (rects : list rect) (M : list (nat * nat)) (c : nat) :
  In c (unmatched_cols rects M) <->
  (c < length rects)%nat /\ ~ In c (map snd M).
Proof.
  unfold unmatched_cols. rewrite filter_In, in_seq, negb_true_iff, set_has_not_In.
  intuition lia.
Qed.

Lemma keys_length {V} (m : list (Z * V)) : length (map_keys m) = length m.
Proof. apply length_map. Qed.

Section GeneralCase.
Variables (t : CentroidTracker) (rects : list rect) (M : list (nat * nat)).
Hypothesis Hids : NoDup (map_keys (objects t)).
Hypothesis HM : valid_matches t rects M.

Lemma pairs_keys :
  map fst (pairs_of t rects M) =
  map (fun r => nth r (map_keys (objects t)) 0) (map fst M).
Proof. unfold pairs_of. rewrite !map_map. reflexivity. Qed.

Lemma pairs_nodup : NoDup (map fst (pairs_of t rects M)).
Proof.
  rewrite pairs_keys. destruct HM as (H1 & _ & H3).
  apply nodup_map_nth; auto.
  intros r Hr. apply in_map_iff in Hr. destruct Hr as ([r' c] & <- & Hin).
  rewrite keys_length. apply (H3 _ _ Hin).
Qed.

Lemma unmatched_ids_nodup : NoDup (unmatched_ids t M).
Proof.
  unfold unmatched_ids. apply nodup_map_nth; auto.
  - unfold unmatched_rows. apply NoDup_filter, seq_NoDup.
  - intros r Hr. apply unmatched_rows_spec in Hr. rewrite keys_length. tauto.
Qed.

Lemma pairs_in_keys (k : Z) :
  In k (map fst (pairs_of t rects M)) -> In k (map_keys (objects t)).
Proof.
  rewrite pairs_keys. intros H. apply in_map_iff in H.
  destruct H as (r & <- & Hr). apply in_map_iff in Hr.
  destruct Hr as ([r' c] & <- & Hin). apply nth_In.
  rewrite keys_length. destruct HM as (_ & _ & H3). apply (H3 _ _ Hin).
Qed.

Lemma unmatched_in_keys (k : Z) :
  In k (unmatched_ids t M) -> In k (map_keys (objects t)).
Proof.
  unfold unmatched_ids. intros H. apply in_map_iff in H.
  destruct H as (r & <- & Hr). apply unmatched_rows_spec in Hr.
  apply nth_In. rewrite keys_length. tauto.
Qed.

Lemma matched_not_unmatched (k : Z) :
  In k (map fst (pairs_of t rects M)) -> ~ In k (unmatched_ids t M).
Proof.
  rewrite pairs_keys. intros H G. apply in_map_iff in H.
  destruct H as (r & <- & Hr). unfold unmatched_ids in G.
  apply in_map_iff in G. destruct G as (r' & E & Hr').
  apply unmatched_rows_spec in Hr'. destruct Hr' as [Hb Hn].
  assert (Hrb : (r < length (objects t))%nat).
  { apply in_map_iff in Hr. destruct Hr as ([r0 c] & <- & Hin).
    destruct HM as (_ & _ & H3). apply (H3 _ _ Hin). }
  apply nth_injective in E; auto; rewrite ?keys_length; auto.
  subst. contradiction.
Qed.

Lemma keys_matched_or_not (k : Z) :
  In k (map_keys (objects t)) ->
  In k (map fst (pairs_of t rects M)) \/ In k (unmatched_ids t M).
Proof.
  intros H. apply (In_nth _ _ 0) in H. destruct H as (r & Hr & <-).
  rewrite keys_length in Hr.
  destruct (in_dec Nat.eq_dec r (map fst M)) as [i|n].
  - left. rewrite pairs_keys.
    now apply (in_map (fun r => nth r (map_keys (objects t)) 0)).
  - right. unfold unmatched_ids.
    apply (in_map (fun r => nth r (map_keys (objects t)) 0)).
    apply unmatched_rows_spec. auto.
Qed.

End GeneralCase.

Section GeneralCaseKeys.
Variables (t : CentroidTracker) (rects : list rect) (M : list (nat * nat)).
Hypothesis Hids : NoDup (map_keys (objects t)).
Hypothesis HM : valid_matches t rects M.

Lemma am_fields :
  nextObjectID (snd (apply_matches t rects M)) =
    nextObjectID t + Z.of_nat (length (new_centroids rects M)) /\
  maxDisappeared (snd (apply_matches t rects M)) = maxDisappeared t /\
  maxDistance (snd (apply_matches t rects M)) = maxDistance t.
Proof.
  rewrite apply_matches_unfold.
  destruct (register_all_fields (new_centroids rects M)
              (miss_all (unmatched_ids t M) (rematch_all (pairs_of t rects M) t)))
    as (H1 & H2 & H3).
  destruct (miss_all_fields (unmatched_ids t M) (rematch_all (pairs_of t rects M) t))
    as (G1 & G2 & G3).
  destruct (rematch_all_fields (pairs_of t rects M) t) as (F1 & F2 & F3).
  rewrite H1, H2, H3, G1, G2, G3, F1, F2, F3. auto.
Qed.

Lemma am_ids :
  fst (apply_matches t rects M) =
  id_range (nextObjectID t) (length (new_centroids rects M)).
Proof.
  rewrite apply_matches_unfold, register_all_ids.
  destruct (miss_all_fields (unmatched_ids t M) (rematch_all (pairs_of t rects M) t))
    as (G1 & _).
  destruct (rematch_all_fields (pairs_of t rects M) t) as (F1 & _).
  now rewrite G1, F1.
Qed.

Lemma am_maps_ok : maps_ok t -> maps_ok (snd (apply_matches t rects M)).
Proof.
  intros H. rewrite apply_matches_unfold.
  now apply register_all_maps_ok, miss_all_maps_ok, rematch_all_maps_ok.
Qed.

Lemma mid_next : nextObjectID (after_misses t rects M) = nextObjectID t.
Proof.
  unfold after_misses.
  destruct (miss_all_fields (unmatched_ids t M) (rematch_all (pairs_of t rects M) t))
    as (G1 & _).
  destruct (rematch_all_fields (pairs_of t rects M) t) as (F1 & _).
  now rewrite G1, F1.
Qed.

Lemma am_new (i : nat) :
  (i < length (new_centroids rects M))%nat ->
  map_get (nextObjectID t + Z.of_nat i) (objects (snd (apply_matches t rects M))) =
    nth_error (new_centroids rects M) i /\
  map_get (nextObjectID t + Z.of_nat i) (disappeared (snd (apply_matches t rects M))) =
    Some (Num 0).
Proof.
  intros Hi. rewrite apply_matches_unfold. fold (after_misses t rects M).
  destruct (register_all_get (new_centroids rects M) (nextObjectID t + Z.of_nat i)
              (after_misses t rects M))
    as [H1 H2].
  rewrite mid_next in H1, H2.
  replace ((nextObjectID t <=? nextObjectID t + Z.of_nat i) && _) with true in H1, H2
    by (symmetry; apply andb_true_iff; split;
        [apply Z.leb_le | apply Z.ltb_lt]; lia).
  rewrite H1, H2. split; [|reflexivity]. f_equal. lia.
Qed.

Lemma am_outside (k : Z) :
  k < nextObjectID t \/ nextObjectID t + Z.of_nat (length (new_centroids rects M)) <= k ->
  map_get k (objects (snd (apply_matches t rects M))) =
    map_get k (objects (after_misses t rects M)) /\
  map_get k (disappeared (snd (apply_matches t rects M))) =
    map_get k (disappeared (after_misses t rects M)).
Proof.
  intros Hk. rewrite apply_matches_unfold. fold (after_misses t rects M).
  destruct (register_all_get (new_centroids rects M) k (after_misses t rects M)) as [H1 H2].
  rewrite mid_next in H1, H2.
  replace ((nextObjectID t <=? k) && _) with false in H1, H2
    by (symmetry; apply andb_false_iff; rewrite Z.leb_gt, Z.ltb_ge; lia).
  auto.
Qed.

Lemma mid_matched (k : Z) (c : centroid) :
  In (k, c) (pairs_of t rects M) ->
  map_get k (objects (after_misses t rects M)) = Some c /\
  map_get k (disappeared (after_misses t rects M)) = Some (Num 0).
Proof.
  intros Hin. unfold after_misses.
  assert (Hk : In k (map fst (pairs_of t rects M)))
    by (change k with (fst (k, c)); now apply in_map).
  destruct (miss_all_other (unmatched_ids t M) k
              (rematch_all (pairs_of t rects M) t)) as [H1 H2].
  { now apply (matched_not_unmatched t rects M Hids HM). }
  rewrite H1, H2. apply rematch_all_hit; [now apply pairs_nodup | exact Hin].
Qed.

Lemma mid_unmatched (k : Z) :
  In k (unmatched_ids t M) ->
  let c' := count_incr (map_get k (disappeared t)) in
  map_get k (objects (after_misses t rects M)) =
    (if count_gt (Some c') (maxDisappeared t) then None else map_get k (objects t)) /\
  map_get k (disappeared (after_misses t rects M)) =
    (if count_gt (Some c') (maxDisappeared t) then None else Some c').
Proof.
  intros Hin. unfold after_misses.
  pose proof (miss_all_hit (unmatched_ids t M) k
                (rematch_all (pairs_of t rects M) t)
                (unmatched_ids_nodup t M Hids) Hin) as H.
  simpl in H.
  destruct (rematch_all_other (pairs_of t rects M) k t) as [H1 H2].
  { intros G. now apply (matched_not_unmatched t rects M Hids HM k G). }
  destruct (rematch_all_fields (pairs_of t rects M) t) as (_ & F2 & _).
  rewrite H1, H2, F2 in H. exact H.
Qed.

Lemma mid_dead (k : Z) :
  ~ In k (map_keys (objects t)) ->
  map_get k (objects (after_misses t rects M)) = map_get k (objects t) /\
  map_get k (disappeared (after_misses t rects M)) = map_get k (disappeared t).
Proof.
  intros Hk. unfold after_misses.
  destruct (miss_all_other (unmatched_ids t M) k
              (rematch_all (pairs_of t rects M) t)) as [H1 H2].
  { intros G. apply Hk. now apply (unmatched_in_keys t M). }
  destruct (rematch_all_other (pairs_of t rects M) k t) as [G1 G2].
  { intros G. apply Hk. now apply (pairs_in_keys t rects M HM). }
  rewrite H1, H2. auto.
Qed.

End GeneralCaseKeys.

(** ** The matches of a frame *)

Lemma cell_matrix (ps cs : list centroid) (r c : nat) (v : Z) :
  cell (distance_matrix ps cs) r c = Some v <->
  exists p q, nth_error ps r = Some p /\ nth_error cs c = Some q /\ v = dist2 p q.
Proof.
  unfold cell, distance_matrix. rewrite nth_error_map.
  destruct (nth_error ps r) as [p|]; simpl.
  - rewrite nth_error_map. destruct (nth_error cs c) as [q|]; simpl.
    + split.
      * intros [= <-]. eauto.
      * intros (p' & q' & [= <-] & [= <-] & ->). reflexivity.
    + split; [discriminate|]. intros (p' & q' & _ & H & _). discriminate.
  - split; [discriminate|]. intros (p' & q' & H & _). discriminate.
Qed.

Lemma matches_of_spec (t : CentroidTracker) (rects : list rect) :
  greedy_spec (matrix_of t rects) (maxDistance t) [] [] (matches_of t rects).
Proof. apply greedy_meets_spec. Qed.

Lemma matches_within (t : CentroidTracker) (rects : list rect) (r c : nat) :
  In (r, c) (matches_of t rects) ->
  exists p q, nth_error (map_values (objects t)) r = Some p /\
              nth_error (map centroid_of rects) c = Some q /\
              exceeds (dist2 p q) (maxDistance t) = false.
Proof.
  intros H.
  destruct (greedy_spec_wellformed _ _ _ _ _ (matches_of_spec t rects))
    as (_ & _ & _ & _ & Hin).
  destruct (Hin _ _ H) as (v & Hc & Hx).
  apply cell_matrix in Hc. destruct Hc as (p & q & Hp & Hq & ->). eauto.
Qed.

Lemma matches_of_valid (t : CentroidTracker) (rects : list rect) :
  valid_matches t rects (matches_of t rects).
Proof.
  destruct (greedy_spec_wellformed _ _ _ _ _ (matches_of_spec t rects))
    as (N1 & N2 & _ & _ & _).
  repeat split; auto.
  - destruct (matches_within _ _ _ _ H) as (p & q & Hp & _).
    assert (G : (r < length (map_values (objects t)))%nat)
      by (apply nth_error_Some; congruence).
    unfold map_values in G. now rewrite length_map in G.
  - destruct (matches_within _ _ _ _ H) as (p & q & _ & Hq & _).
    assert (G : (c < length (map centroid_of rects))%nat)
      by (apply nth_error_Some; congruence).
    now rewrite length_map in G.
Qed.

Lemma matches_of_no_objects (t : CentroidTracker) (rects : list rect) :
  objects t = [] -> matches_of t rects = [].
Proof.
  intros E. destruct (matches_of_valid t rects) as (_ & _ & H).
  destruct (matches_of t rects) as [|[r c] M]; [reflexivity|].
  destruct (H r c) as [G _]; [now left|]. rewrite E in G. inversion G.
Qed.

Lemma matches_of_no_rects (t : CentroidTracker) :
  matches_of t [] = [].
Proof.
  destruct (matches_of_valid t []) as (_ & _ & H).
  destruct (matches_of t []) as [|[r c] M]; [reflexivity|].
  destruct (H r c) as [_ G]; [now left|]. inversion G.
Qed.

Lemma map_nth_all {A} (d : A) (pre l : list A) :
  map (fun i => nth i (pre ++ l) d) (seq (length pre) (length l)) = l.
Proof.
  revert pre. induction l as [|a l IH]; intros pre; simpl; [reflexivity|].
  f_equal.
  - rewrite app_nth2, Nat.sub_diag; [reflexivity | lia].
  - specialize (IH (pre ++ [a])). rewrite <- app_assoc, length_app in IH.
    simpl in IH. rewrite Nat.add_1_r in IH. exact IH.
Qed.

Lemma map_nth_seq0 {A} (d : A) (l : list A) :
  map (fun i => nth i l d) (seq 0 (length l)) = l.
Proof. apply (map_nth_all d [] l). Qed.

Lemma new_centroids_nil (rects : list rect) :
  new_centroids rects [] = map centroid_of rects.
Proof.
  unfold new_centroids, unmatched_cols. simpl.
  rewrite filter_all by reflexivity.
  rewrite <- (length_map centroid_of rects). apply map_nth_seq0.
Qed.

Lemma unmatched_ids_nil (t : CentroidTracker) :
  unmatched_ids t [] = map_keys (objects t).
Proof.
  unfold unmatched_ids, unmatched_rows. simpl.
  rewrite filter_all by reflexivity.
  rewrite <- (keys_length (objects t)). apply map_nth_seq0.
Qed.

Lemma same_view_refl (t : CentroidTracker) : same_view t t.
Proof. repeat split. Qed.

Lemma miss_all_same_view (l1 l2 : list Z) (t : CentroidTracker) :
  NoDup l1 -> NoDup l2 -> (forall k, In k l1 <-> In k l2) ->
  same_view (miss_all l1 t) (miss_all l2 t).
Proof.
  intros N1 N2 Hiff.
  destruct (miss_all_fields l1 t) as (A1 & A2 & A3).
  destruct (miss_all_fields l2 t) as (B1 & B2 & B3).
  unfold same_view. rewrite A1, A2, A3, B1, B2, B3.
  repeat split.
  - destruct (in_dec Z.eq_dec k l1) as [i|n].
    + destruct (miss_all_hit l1 k t N1 i) as [-> _].
      destruct (miss_all_hit l2 k t N2 (proj1 (Hiff k) i)) as [-> _].
      reflexivity.
    + destruct (miss_all_other l1 k t n) as [-> _].
      destruct (miss_all_other l2 k t) as [-> _]; [|reflexivity].
      intros G. apply n. now apply Hiff.
  - destruct (in_dec Z.eq_dec k l1) as [i|n].
    + destruct (miss_all_hit l1 k t N1 i) as [_ ->].
      destruct (miss_all_hit l2 k t N2 (proj1 (Hiff k) i)) as [_ ->].
      reflexivity.
    + destruct (miss_all_other l1 k t n) as [_ ->].
      destruct (miss_all_other l2 k t) as [_ ->]; [|reflexivity].
      intros G. apply n. now apply Hiff.
Qed.

Lemma same_keys_In (t : CentroidTracker) (k : Z) :
  same_keys t ->
  (In k (map_keys (objects t)) <-> In k (map_keys (disappeared t))).
Proof.
  intros H. specialize (H k). rewrite !map_get_None in H.
  destruct (in_dec Z.eq_dec k (map_keys (objects t)));
    destruct (in_dec Z.eq_dec k (map_keys (disappeared t))); tauto.
Qed.

(** The two early returns of [update] agree with its general case run
    on no matches. *)
Lemma update_full_general (t : CentroidTracker) (rects : list rect) :
  maps_ok t -> same_keys t ->
  fst (update_full t rects) = fst (apply_matches t rects (matches_of t rects)) /\
  same_view (update t rects) (snd (apply_matches t rects (matches_of t rects))).
Proof.
  intros [Ho Hd] Hs. unfold update, update_full.
  destruct (length (objects t) =? 0)%nat eqn:E1.
  - apply Nat.eqb_eq, length_zero_iff_nil in E1.
    rewrite (matches_of_no_objects t rects E1), apply_matches_unfold.
    rewrite new_centroids_nil, unmatched_ids_nil, E1. simpl.
    split; [reflexivity | apply same_view_refl].
  - destruct (length rects =? 0)%nat eqn:E2.
    + apply Nat.eqb_eq, length_zero_iff_nil in E2. subst rects.
      rewrite matches_of_no_rects, apply_matches_unfold.
      rewrite unmatched_ids_nil. simpl. split; [reflexivity|].
      apply miss_all_same_view; auto.
      intros k. symmetry. now apply same_keys_In.
    + split; [reflexivity | apply same_view_refl].
Qed.

(** ** Both tables keep the same keys *)

Lemma rematch_same_keys (id : Z) (c : centroid) (t : CentroidTracker) :
  same_keys t -> same_keys (rematch id c t).
Proof.
  intros H k. simpl. rewrite !map_get_set.
  destruct (id =? k); [split; discriminate | apply H].
Qed.

Lemma register_same_keys (c : centroid) (t : CentroidTracker) :
  same_keys t -> same_keys (snd (register c t)).
Proof.
  intros H k. simpl. rewrite !map_get_set.
  destruct (nextObjectID t =? k); [split; discriminate | apply H].
Qed.

Lemma deregister_same_keys (id : Z) (t : CentroidTracker) :
  same_keys t -> same_keys (deregister id t).
Proof.
  intros H k. simpl. rewrite !map_get_delete.
  destruct (id =? k); [tauto | apply H].
Qed.

Lemma miss_same_keys (id : Z) (t : CentroidTracker) :
  same_keys t -> map_get id (objects t) <> None -> same_keys (miss id t).
Proof.
  intros H Hlive k. rewrite miss_objects, miss_disappeared.
  destruct (id =? k) eqn:E; cbn [andb]; [|apply H].
  apply Z.eqb_eq in E; subst k.
  destruct (count_gt _ _); [tauto|]. split; [contradiction | discriminate].
Qed.

Lemma miss_all_same_keys (ids : list Z) (t : CentroidTracker) :
  NoDup ids -> (forall id, In id ids -> map_get id (objects t) <> None) ->
  same_keys t -> same_keys (miss_all ids t).
Proof.
  intros Hnd. revert t. induction Hnd as [|a ids Ha Hnd IH]; intros t Hl Hs;
    simpl; [exact Hs|].
  apply IH.
  - intros id Hid. rewrite miss_objects.
    assert (E : (a =? id) = false) by (apply Z.eqb_neq; intros ->; contradiction).
    rewrite E. cbn [andb]. apply Hl. now right.
  - apply miss_same_keys; [exact Hs | apply Hl; now left].
Qed.

Lemma rematch_all_same_keys (pairs : list (Z * centroid)) (t : CentroidTracker) :
  same_keys t -> same_keys (rematch_all pairs t).
Proof.
  revert t. induction pairs as [|p pairs IH]; intros t H; simpl; [exact H|].
  apply IH. now apply rematch_same_keys.
Qed.

Lemma rematch_all_live (pairs : list (Z * centroid)) (k : Z) (t : CentroidTracker) :
  map_get k (objects t) <> None ->
  map_get k (objects (rematch_all pairs t)) <> None.
Proof.
  revert t. induction pairs as [|p pairs IH]; intros t H; simpl; [exact H|].
  apply IH. simpl. rewrite map_get_set. destruct (fst p =? k); [discriminate | exact H].
Qed.

Lemma register_all_same_keys (cs : list centroid) (t : CentroidTracker) :
  same_keys t -> same_keys (snd (register_all cs t)).
Proof.
  revert t. induction cs as [|c cs IH]; intros t H; simpl; [exact H|].
  specialize (IH (snd (register c t)) (register_same_keys c t H)). simpl in IH.
  now destruct (register_all cs _) as [ids t2] eqn:E.
Qed.

Lemma same_view_same_keys (t1 t2 : CentroidTracker) :
  same_view t1 t2 -> same_keys t2 -> same_keys t1.
Proof.
  intros (_ & _ & _ & Hv) H k. destruct (Hv k) as [-> ->]. apply H.
Qed.

Lemma apply_matches_same_keys (t : CentroidTracker) (rects : list rect)
  (M : list (nat * nat)) :
  NoDup (map_keys (objects t)) -> valid_matches t rects M -> same_keys t ->
  same_keys (snd (apply_matches t rects M)).
Proof.
  intros Hids HM Hs. rewrite apply_matches_unfold.
  apply register_all_same_keys, miss_all_same_keys.
  - now apply unmatched_ids_nodup.
  - intros id Hid. apply rematch_all_live.
    apply unmatched_in_keys in Hid. apply map_get_live in Hid.
    destruct Hid as [v ->]. discriminate.
  - now apply rematch_all_same_keys.
Qed.

Lemma update_same_keys (t : CentroidTracker) (rects : list rect) :
  maps_ok t -> same_keys t -> same_keys (update t rects).
Proof.
  intros Hm Hs.
  destruct (update_full_general t rects Hm Hs) as [_ Hv].
  apply (same_view_same_keys _ _ Hv).
  apply apply_matches_same_keys; [apply Hm | apply matches_of_valid | exact Hs].
Qed.

Lemma update_maps_ok (t : CentroidTracker) (rects : list rect) :
  maps_ok t -> maps_ok (update t rects).
Proof.
  intros H. unfold update, update_full.
  destruct (length (objects t) =? 0)%nat.
  - now apply register_all_maps_ok.
  - destruct (length rects =? 0)%nat.
    + now apply miss_all_maps_ok.
    + rewrite apply_matches_unfold.
      now apply register_all_maps_ok, miss_all_maps_ok, rematch_all_maps_ok.
Qed.

(** ** [update], key by key *)

Section UpdateKeys.
Variables (t : CentroidTracker) (rects : list rect).
Hypothesis Hwf : wf t.


Lemma update_fields :
  nextObjectID (update t rects) =
    nextObjectID t + Z.of_nat (length (new_centroids rects (matches_of t rects))) /\
  maxDisappeared (update t rects) = maxDisappeared t /\
  maxDistance (update t rects) = maxDistance t.
Proof.
  destruct (update_full_general t rects (wf_maps _ Hwf) (wf_same _ Hwf))
    as (_ & V1 & V2 & V3 & _).
  rewrite V1, V2, V3. apply am_fields.
Qed.

Lemma update_ids :
  fst (update_full t rects) =
  id_range (nextObjectID t) (length (new_centroids rects (matches_of t rects))).
Proof.
  destruct (update_full_general t rects (wf_maps _ Hwf) (wf_same _ Hwf))
    as (-> & _).
  apply am_ids.
Qed.

Lemma update_new (i : nat) :
  (i < (length (new_centroids rects (matches_of t rects))))%nat ->
  map_get (nextObjectID t + Z.of_nat i) (objects (update t rects)) =
    nth_error (new_centroids rects (matches_of t rects)) i /\
  map_get (nextObjectID t + Z.of_nat i) (disappeared (update t rects)) = Some (Num 0).
Proof.
  intros Hi.
  destruct (update_full_general t rects (wf_maps _ Hwf) (wf_same _ Hwf))
    as (_ & _ & _ & _ & V).
  destruct (V (nextObjectID t + Z.of_nat i)) as [-> ->]. now apply am_new.
Qed.

Lemma update_matched (k : Z) (c : centroid) :
  In (k, c) (pairs_of t rects (matches_of t rects)) ->
  map_get k (objects (update t rects)) = Some c /\
  map_get k (disappeared (update t rects)) = Some (Num 0).
Proof.
  intros Hin.
  destruct (update_full_general t rects (wf_maps _ Hwf) (wf_same _ Hwf))
    as (_ & _ & _ & _ & V).
  destruct (V k) as [-> ->].
  pose proof (matches_of_valid t rects) as HM.
  pose proof (proj1 (wf_maps _ Hwf)) as Hids.
  assert (Hk : k < nextObjectID t).
  { apply (wf_fresh _ Hwf). apply (pairs_in_keys t rects (matches_of t rects) HM).
    change k with (fst (k, c)). now apply in_map. }
  destruct (am_outside t rects (matches_of t rects) k) as [-> ->]; [now left|].
  now apply mid_matched.
Qed.

Lemma update_unmatched (k : Z) :
  In k (unmatched_ids t (matches_of t rects)) ->
  let c' := count_incr (map_get k (disappeared t)) in
  map_get k (objects (update t rects)) =
    (if count_gt (Some c') (maxDisappeared t) then None else map_get k (objects t)) /\
  map_get k (disappeared (update t rects)) =
    (if count_gt (Some c') (maxDisappeared t) then None else Some c').
Proof.
  intros Hin.
  destruct (update_full_general t rects (wf_maps _ Hwf) (wf_same _ Hwf))
    as (_ & _ & _ & _ & V).
  destruct (V k) as [-> ->].
  pose proof (matches_of_valid t rects) as HM.
  pose proof (proj1 (wf_maps _ Hwf)) as Hids.
  assert (Hk : k < nextObjectID t).
  { apply (wf_fresh _ Hwf). now apply (unmatched_in_keys t (matches_of t rects)). }
  destruct (am_outside t rects (matches_of t rects) k) as [-> ->]; [now left|].
  now apply mid_unmatched.
Qed.

Lemma update_dead (k : Z) :
  ~ In k (map_keys (objects t)) ->
  k < nextObjectID t \/
  nextObjectID t + Z.of_nat (length (new_centroids rects (matches_of t rects))) <= k ->
  map_get k (objects (update t rects)) = None /\
  map_get k (disappeared (update t rects)) = None.
Proof.
  intros Hk Hout.
  destruct (update_full_general t rects (wf_maps _ Hwf) (wf_same _ Hwf))
    as (_ & _ & _ & _ & V).
  destruct (V k) as [-> ->].
  pose proof (matches_of_valid t rects) as HM.
  destruct (am_outside t rects (matches_of t rects) k Hout) as [-> ->].
  destruct (mid_dead t rects (matches_of t rects) HM k Hk) as [-> ->].
  apply map_get_None in Hk. split; [exact Hk|].
  now apply (wf_same _ Hwf).
Qed.

(** Every key falls in one of four classes. *)
Lemma update_classes (k : Z) :
  (exists i, (i < length (new_centroids rects (matches_of t rects)))%nat /\
             k = nextObjectID t + Z.of_nat i) \/
  (exists c, In (k, c) (pairs_of t rects (matches_of t rects))) \/
  In k (unmatched_ids t (matches_of t rects)) \/
  (~ In k (map_keys (objects t)) /\
   (k < nextObjectID t \/
    nextObjectID t + Z.of_nat (length (new_centroids rects (matches_of t rects))) <= k)).
Proof.
  destruct (in_dec Z.eq_dec k (map_keys (objects t))) as [i|no].
  - destruct (keys_matched_or_not t rects (matches_of t rects) k i) as [H|H]; [|auto].
    right; left. apply in_map_iff in H. destruct H as ([k' c] & E & H).
    simpl in E; subst. eauto.
  - destruct (Z_lt_dec k (nextObjectID t)) as [L|G]; [tauto|].
    destruct (Z_le_dec (nextObjectID t
                        + Z.of_nat (length (new_centroids rects (matches_of t rects)))) k)
      as [L'|G']; [tauto|].
    left. exists (Z.to_nat (k - (nextObjectID t))). split; lia.
Qed.

End UpdateKeys.

(** ** Well-formedness is an invariant *)

Lemma wf_new (maxDisappeared maxDistance : Z) :
  wf (new_tracker maxDisappeared maxDistance).
Proof.
  constructor; simpl.
  - split; constructor.
  - intros k. simpl. tauto.
  - lia.
  - intros k [].
  - intros k c H. discriminate.
Qed.

Lemma wf_update (t : CentroidTracker) (rects : list rect) :
  wf t -> wf (update t rects).
Proof.
  intros Hwf.
  destruct (update_fields t rects Hwf) as (Hn & _ & _).
  constructor.
  - apply update_maps_ok, Hwf.
  - apply update_same_keys; apply Hwf.
  - rewrite Hn. pose proof (wf_next _ Hwf). lia.
  - intros k Hk. rewrite Hn. apply map_get_live in Hk. destruct Hk as [v Hv].
    destruct (update_classes t rects k) as [(i & Hi & ->) | [(c & Hc) | [Hu | [Hd Ho]]]].
    + pose proof (wf_next _ Hwf). lia.
    + assert (G : 0 < k < nextObjectID t).
      { apply (wf_fresh _ Hwf).
        apply (pairs_in_keys t rects _ (matches_of_valid t rects)).
        change k with (fst (k, c)). now apply in_map. }
      lia.
    + assert (G : 0 < k < nextObjectID t).
      { apply (wf_fresh _ Hwf). exact (unmatched_in_keys t _ k Hu). }
      lia.
    + destruct (update_dead t rects Hwf k Hd Ho) as [E _]. congruence.
  - intros k c Hk.
    destruct (update_classes t rects k) as [(i & Hi & ->) | [(c0 & Hc) | [Hu | [Hd Ho]]]].
    + destruct (update_new t rects Hwf i Hi) as [_ E]. rewrite E in Hk.
      injection Hk as <-. exists 0. split; [reflexivity | lia].
    + destruct (update_matched t rects Hwf k c0 Hc) as [_ E]. rewrite E in Hk.
      injection Hk as <-. exists 0. split; [reflexivity | lia].
    + destruct (update_unmatched t rects Hwf k Hu) as [_ E]. rewrite E in Hk.
      destruct (count_gt _ _); [discriminate|]. injection Hk as <-.
      assert (Hl : In k (map_keys (disappeared t))).
      { apply same_keys_In; [apply Hwf|]. exact (unmatched_in_keys t _ k Hu). }
      apply map_get_live in Hl. destruct Hl as [c1 Hc1].
      destruct (wf_count _ Hwf _ _ Hc1) as (m & -> & Hm).
      rewrite Hc1. simpl. exists (m + 1). split; [reflexivity | lia].
    + destruct (update_dead t rects Hwf k Hd Ho) as [_ E]. congruence.
Qed.

Lemma wf_register (c : centroid) (t : CentroidTracker) :
  wf t -> wf (snd (register c t)).
Proof.
  intros Hwf. pose proof (wf_next _ Hwf) as Hn. constructor.
  - apply register_maps_ok, Hwf.
  - apply register_same_keys, Hwf.
  - simpl. lia.
  - intros k Hk. apply map_get_live in Hk. destruct Hk as [v Hv].
    simpl in Hv |- *. rewrite map_get_set in Hv.
    destruct (nextObjectID t =? k) eqn:E.
    + apply Z.eqb_eq in E. lia.
    + assert (Hin : In k (map_keys (objects t))) by (apply map_get_live; eauto).
      apply (wf_fresh _ Hwf) in Hin. lia.
  - intros k c' Hk. simpl in Hk. rewrite map_get_set in Hk.
    destruct (nextObjectID t =? k).
    + injection Hk as <-. exists 0. split; [reflexivity | lia].
    + exact (wf_count _ Hwf _ _ Hk).
Qed.

Lemma wf_deregister (id : Z) (t : CentroidTracker) :
  wf t -> wf (deregister id t).
Proof.
  intros Hwf. constructor.
  - apply deregister_maps_ok, Hwf.
  - apply deregister_same_keys, Hwf.
  - simpl. apply Hwf.
  - intros k Hk. apply map_get_live in Hk. destruct Hk as [v Hv].
    simpl in Hv |- *. rewrite map_get_delete in Hv.
    destruct (id =? k); [discriminate|].
    apply (wf_fresh _ Hwf). apply map_get_live. eauto.
  - intros k c Hk. simpl in Hk. rewrite map_get_delete in Hk.
    destruct (id =? k); [discriminate|].
    exact (wf_count _ Hwf _ _ Hk).
Qed.

Lemma reachable_wf (t : CentroidTracker) : reachable t -> wf t.
Proof.
  induction 1; [apply wf_new | now apply wf_update].
Qed.

(* ================================================================= *)
(** ** The order of doubles

    [<], [<=] and [===] on doubles, through the specification of the
    primitive floats ([SFcompare] on sign, exponent and mantissa).  The
    comparisons are false whenever an operand is not a number, so the
    lemmas are stated between comparisons that hold. *)

Ltac cmp_cases :=
  repeat match goal with
  | H : context [Z.compare ?a ?b] |- _ => destruct (Z.compare_spec a b)
  | |- context [Z.compare ?a ?b] => destruct (Z.compare_spec a b)
  | H : context [Pos.compare_cont Eq ?a ?b] |- _ =>
      change (Pos.compare_cont Eq a b) with (Pos.compare a b) in H;
      destruct (Pos.compare_spec a b)
  | |- context [Pos.compare_cont Eq ?a ?b] =>
      change (Pos.compare_cont Eq a b) with (Pos.compare a b);
      destruct (Pos.compare_spec a b)
  end.

Ltac sf_order :=
  unfold SpecFloat.SFltb, SpecFloat.SFleb, SpecFloat.SFeqb, SpecFloat.SFcompare;
  repeat match goal with
  | x : SpecFloat.spec_float |- _ => destruct x
  | b : bool |- _ => destruct b
  end; simpl; intros; try discriminate; try reflexivity;
  cmp_cases; simpl in *; try discriminate; try reflexivity; try lia.

Ltac to_spec :=
  intros;
  rewrite ?FloatAxioms.ltb_spec, ?FloatAxioms.leb_spec, ?FloatAxioms.eqb_spec in *;
  change (FloatOps.Prim2SF PrimFloat.infinity) with (SpecFloat.S754_infinity false) in *.

Lemma sf_lt_below_inf (a b : SpecFloat.spec_float) :
  SpecFloat.SFltb a b = true -> SpecFloat.SFltb a (SpecFloat.S754_infinity false) = true.
Proof. sf_order. Qed.

Lemma sf_lt_trans (a b c : SpecFloat.spec_float) :
  SpecFloat.SFltb a b = true -> SpecFloat.SFltb b c = true -> SpecFloat.SFltb a c = true.
Proof. sf_order. Qed.

Lemma sf_le_lt_trans (a b c : SpecFloat.spec_float) :
  SpecFloat.SFleb a b = true -> SpecFloat.SFltb b c = true -> SpecFloat.SFltb a c = true.
Proof. sf_order. Qed.

Lemma sf_lt_le_trans (a b c : SpecFloat.spec_float) :
  SpecFloat.SFltb a b = true -> SpecFloat.SFleb b c = true -> SpecFloat.SFltb a c = true.
Proof. sf_order. Qed.

Lemma sf_lt_le (a b : SpecFloat.spec_float) :
  SpecFloat.SFltb a b = true -> SpecFloat.SFleb a b = true.
Proof. sf_order. Qed.

Lemma sf_lt_not_ge (a b : SpecFloat.spec_float) :
  SpecFloat.SFltb a b = true -> SpecFloat.SFleb b a = false.
Proof. sf_order. Qed.

Lemma sf_lt_irrefl (a : SpecFloat.spec_float) : SpecFloat.SFltb a a = false.
Proof. sf_order. Qed.

Lemma sf_total (a b : SpecFloat.spec_float) :
  SpecFloat.SFltb a (SpecFloat.S754_infinity false) = true ->
  SpecFloat.SFltb b (SpecFloat.S754_infinity false) = true ->
  SpecFloat.SFleb a b = false -> SpecFloat.SFltb b a = true.
Proof. sf_order. Qed.

Lemma sf_total_le (a b : SpecFloat.spec_float) :
  SpecFloat.SFltb a (SpecFloat.S754_infinity false) = true ->
  SpecFloat.SFltb b (SpecFloat.S754_infinity false) = true ->
  SpecFloat.SFltb a b = false -> SpecFloat.SFleb b a = true.
Proof. sf_order. Qed.

Lemma sf_below_inf_neq (a : SpecFloat.spec_float) :
  SpecFloat.SFltb a (SpecFloat.S754_infinity false) = true ->
  SpecFloat.SFeqb a (SpecFloat.S754_infinity false) = false.
Proof. sf_order. Qed.

Lemma ltb_below_inf (a b : PrimFloat.float) :
  (a <? b)%float = true -> (a <? PrimFloat.infinity)%float = true.
Proof. to_spec. eapply sf_lt_below_inf; eauto. Qed.

Lemma ltb_trans (a b c : PrimFloat.float) :
  (a <? b)%float = true -> (b <? c)%float = true -> (a <? c)%float = true.
Proof. to_spec. eapply sf_lt_trans; eauto. Qed.

Lemma leb_ltb_trans (a b c : PrimFloat.float) :
  (a <=? b)%float = true -> (b <? c)%float = true -> (a <? c)%float = true.
Proof. to_spec. eapply sf_le_lt_trans; eauto. Qed.

Lemma ltb_leb_trans (a b c : PrimFloat.float) :
  (a <? b)%float = true -> (b <=? c)%float = true -> (a <? c)%float = true.
Proof. to_spec. eapply sf_lt_le_trans; eauto. Qed.

Lemma ltb_leb (a b : PrimFloat.float) :
  (a <? b)%float = true -> (a <=? b)%float = true.
Proof. to_spec. now apply sf_lt_le. Qed.

Lemma ltb_not_geb (a b : PrimFloat.float) :
  (a <? b)%float = true -> (b <=? a)%float = false.
Proof. to_spec. now apply sf_lt_not_ge. Qed.

Lemma ltb_irrefl (a : PrimFloat.float) : (a <? a)%float = false.
Proof. to_spec. apply sf_lt_irrefl. Qed.

Lemma not_leb_ltb (a b : PrimFloat.float) :
  (a <? PrimFloat.infinity)%float = true ->
  (b <? PrimFloat.infinity)%float = true ->
  (a <=? b)%float = false -> (b <? a)%float = true.
Proof. to_spec. now apply sf_total. Qed.

Lemma not_ltb_leb (a b : PrimFloat.float) :
  (a <? PrimFloat.infinity)%float = true ->
  (b <? PrimFloat.infinity)%float = true ->
  (a <? b)%float = false -> (b <=? a)%float = true.
Proof. to_spec. now apply sf_total_le. Qed.

Lemma below_inf_neq (a : PrimFloat.float) :
  (a <? PrimFloat.infinity)%float = true ->
  (a =? PrimFloat.infinity)%float = false.
Proof. to_spec. now apply sf_below_inf_neq. Qed.

Lemma not_leb_not_ltb (a b : PrimFloat.float) :
  (a <=? b)%float = false -> (a <? b)%float = false.
Proof.
  intros H. destruct (a <? b)%float eqn:E; [|reflexivity].
  apply ltb_leb in E. congruence.
Qed.

(** ** Running minima of doubles *)

Section FirstMinimumF64.
Context {A : Type} (w : A -> PrimFloat.float).

Lemma fold_pick_from_f64 (l : list A) (b : option A) (x : A) :
  fold_left (pick_f64 w) l b = Some x ->
  (b = Some x /\ Forall (fun y => (w y <? w x)%float = false) l) \/
  (exists l1 l2, l = l1 ++ x :: l2 /\ (w x <? top_f64 w b)%float = true /\
                 Forall (fun y => (w y <=? w x)%float = false) l1 /\
                 Forall (fun y => (w y <? w x)%float = false) l2).
Proof.
  revert b. induction l as [|a l IH]; intros b; simpl.
  - intros ->. left. split; [reflexivity | constructor].
  - unfold pick_f64 at 2.
    destruct (w a <? top_f64 w b)%float eqn:E; intros H; apply IH in H.
    + right. destruct H as [[[= ->] HF] | (l1 & l2 & -> & Hlt & H1 & H2)].
      * exists [], l. repeat split; auto.
      * simpl in Hlt. exists (a :: l1), l2. repeat split; auto.
        -- eapply ltb_trans; eauto.
        -- constructor; [|exact H1]. now apply ltb_not_geb.
    + destruct H as [[-> HF] | (l1 & l2 & -> & Hlt & H1 & H2)].
      * left. split; [reflexivity|]. constructor; [exact E | exact HF].
      * right. exists (a :: l1), l2. repeat split; auto.
        constructor; [|exact H1].
        destruct (w a <=? w x)%float eqn:G; [|reflexivity].
        rewrite (leb_ltb_trans _ _ _ G Hlt) in E. discriminate.
Qed.

Lemma fold_pick_first_f64 (l : list A) (x : A) :
  fold_left (pick_f64 w) l None = Some x ->
  exists l1 l2, l = l1 ++ x :: l2 /\
                (w x <? PrimFloat.infinity)%float = true /\
                Forall (fun y => (w y <=? w x)%float = false) l1 /\
                Forall (fun y => (w y <? w x)%float = false) l2.
Proof.
  intros H. apply fold_pick_from_f64 in H.
  destruct H as [[H _] | H]; [discriminate | exact H].
Qed.

Lemma fold_pick_some_f64 (l : list A) (b : A) :
  exists x, fold_left (pick_f64 w) l (Some b) = Some x.
Proof.
  revert b. induction l as [|a l IH]; intros b; simpl; [eauto|].
  unfold pick_f64 at 2. simpl. destruct (w a <? w b)%float; apply IH.
Qed.

Lemma fold_pick_none_f64 (l : list A) :
  fold_left (pick_f64 w) l None = None ->
  Forall (fun y => (w y <? PrimFloat.infinity)%float = false) l.
Proof.
  induction l as [|a l IH]; simpl; [constructor|].
  unfold pick_f64 at 2. simpl.
  destruct (w a <? PrimFloat.infinity)%float eqn:E.
  - destruct (fold_pick_some_f64 l a) as [x ->]. discriminate.
  - intros H. constructor; auto.
Qed.

End FirstMinimumF64.

(** ** The scan of the matrix of doubles *)

Lemma improve_pick_f64 (b : best_f64) (d : PrimFloat.float) (r c : nat) :
  improve_f64 b d r c = pick_f64 weight_f64 b (d, r, c).
Proof. destruct b as [[[m ?] ?]|]; reflexivity. Qed.

Lemma scan_cols_flat_f64 (aC : list nat) (r c : nat) (row : list PrimFloat.float)
  (b : best_f64) :
  scan_cols_f64 aC r c row b =
  fold_left (pick_f64 weight_f64)
    (filter (fun x => negb (set_has (snd x) aC)) (cells_row_f64 r c row)) b.
Proof.
  revert c b. induction row as [|d row IH]; intros c b; simpl; [reflexivity|].
  rewrite IH. destruct (set_has c aC); simpl; [reflexivity|].
  now rewrite improve_pick_f64.
Qed.

Lemma cells_row_row_f64 (r c : nat) (row : list PrimFloat.float)
  (x : PrimFloat.float * nat * nat) :
  In x (cells_row_f64 r c row) -> snd (fst x) = r.
Proof.
  revert c. induction row as [|d row IH]; intros c; simpl; [tauto|].
  intros [<-|H]; [reflexivity | eauto].
Qed.

Lemma scan_rows_flat_f64 (aR aC : list nat) (r : nat) (D : list (list PrimFloat.float))
  (b : best_f64) :
  scan_rows_f64 aR aC r D b =
  fold_left (pick_f64 weight_f64) (filter (free_f64 aR aC) (cells_from_f64 r D)) b.
Proof.
  revert r b. induction D as [|row D IH]; intros r b; simpl; [reflexivity|].
  rewrite IH, filter_app, fold_left_app. f_equal.
  destruct (set_has r aR) eqn:E.
  - rewrite filter_none; [reflexivity|].
    intros x Hx. unfold free_f64. now rewrite (cells_row_row_f64 _ _ _ _ Hx), E.
  - rewrite scan_cols_flat_f64. f_equal. apply filter_ext_in.
    intros x Hx. unfold free_f64. rewrite (cells_row_row_f64 _ _ _ _ Hx), E. reflexivity.
Qed.

Lemma In_cells_row_f64 (r c : nat) (row : list PrimFloat.float) (d : PrimFloat.float)
  (r' c' : nat) :
  In (d, r', c') (cells_row_f64 r c row) <->
  r' = r /\ (c <= c')%nat /\ nth_error row (c' - c) = Some d.
Proof.
  revert c. induction row as [|e row IH]; intros c; simpl.
  - split; [tauto|]. intros (_ & _ & H). now destruct (c' - c)%nat.
  - rewrite IH. split.
    + intros [[= -> -> ->] | (-> & Hle & Hn)].
      * rewrite Nat.sub_diag. auto.
      * repeat split; [lia|].
        replace (c' - c)%nat with (S (c' - S c)) by lia. exact Hn.
    + intros (-> & Hle & Hn).
      destruct (Nat.eq_dec c c') as [->|Hne].
      * rewrite Nat.sub_diag in Hn. simpl in Hn. injection Hn as ->. now left.
      * right. repeat split; [lia|].
        replace (c' - c)%nat with (S (c' - S c)) in Hn by lia. exact Hn.
Qed.

Lemma In_cells_from_f64 (r : nat) (D : list (list PrimFloat.float)) (d : PrimFloat.float)
  (r' c' : nat) :
  In (d, r', c') (cells_from_f64 r D) <->
  (r <= r')%nat /\ cell_f64 D (r' - r) c' = Some d.
Proof.
  revert r. induction D as [|row D IH]; intros r; simpl.
  - split; [tauto|]. intros [_ H]. unfold cell_f64 in H. now destruct (r' - r)%nat.
  - rewrite in_app_iff, In_cells_row_f64, IH. unfold cell_f64. split.
    + intros [(-> & _ & Hn) | (Hle & Hn)].
      * rewrite Nat.sub_diag, Nat.sub_0_r in *. auto.
      * split; [lia|].
        replace (r' - r)%nat with (S (r' - S r)) by lia. exact Hn.
    + intros (Hle & Hn).
      destruct (Nat.eq_dec r r') as [->|Hne].
      * rewrite Nat.sub_diag in Hn. simpl in Hn. left.
        rewrite Nat.sub_0_r. repeat split; auto; lia.
      * right. split; [lia|].
        replace (r' - r)%nat with (S (r' - S r)) in Hn by lia. exact Hn.
Qed.

Lemma cells_row_sorted_f64 (r c : nat) (row : list PrimFloat.float) :
  StronglySorted cell_lt_f64 (cells_row_f64 r c row).
Proof.
  revert c. induction row as [|d row IH]; intros c; simpl; constructor; [apply IH|].
  apply Forall_forall. intros [[e r'] c'] H. apply In_cells_row_f64 in H.
  unfold cell_lt_f64, row_major_lt; simpl. right. split; [symmetry; tauto | lia].
Qed.

Lemma cells_from_sorted_f64 (r : nat) (D : list (list PrimFloat.float)) :
  StronglySorted cell_lt_f64 (cells_from_f64 r D).
Proof.
  revert r. induction D as [|row D IH]; intros r; simpl; [constructor|].
  apply sorted_app; [apply cells_row_sorted_f64 | apply IH |].
  intros [[d1 r1] c1] [[d2 r2] c2] H1 H2.
  apply In_cells_row_f64 in H1. apply In_cells_from_f64 in H2.
  unfold cell_lt_f64, row_major_lt; simpl. left. lia.
Qed.

Lemma find_min_flat_f64 (D : list (list PrimFloat.float)) (aR aC : list nat) :
  find_min_f64 D aR aC =
  fold_left (pick_f64 weight_f64) (filter (free_f64 aR aC) (cells_from_f64 0 D)) None.
Proof. apply scan_rows_flat_f64. Qed.

Lemma free_iff_f64 (aR aC : list nat) (d : PrimFloat.float) (r c : nat) :
  free_f64 aR aC (d, r, c) = true <-> ~ In r aR /\ ~ In c aC.
Proof.
  unfold free_f64; simpl. rewrite andb_true_iff, !negb_true_iff, !set_has_not_In.
  tauto.
Qed.

Lemma free_cell_listed (D : list (list PrimFloat.float)) (aR aC : list nat)
  (r c : nat) (v : PrimFloat.float) :
  cell_f64 D r c = Some v -> ~ In r aR -> ~ In c aC ->
  In (v, r, c) (filter (free_f64 aR aC) (cells_from_f64 0 D)).
Proof.
  intros Hc Hr Hcol. apply filter_In. split.
  - apply In_cells_from_f64. rewrite Nat.sub_0_r. split; [lia | assumption].
  - apply free_iff_f64. auto.
Qed.

Lemma find_min_some_f64 (D : list (list PrimFloat.float)) (aR aC : list nat)
  (v : PrimFloat.float) (r c : nat) :
  find_min_f64 D aR aC = Some (v, r, c) -> first_min_f64 D aR aC r c v.
Proof.
  rewrite find_min_flat_f64. intros H.
  apply fold_pick_first_f64 in H. destruct H as (l1 & l2 & E & Hfin & H1 & H2).
  unfold weight_f64 in Hfin, H1, H2. simpl in Hfin.
  assert (Hx : In (v, r, c) (filter (free_f64 aR aC) (cells_from_f64 0 D)))
    by (rewrite E; apply in_elt).
  apply filter_In in Hx. destruct Hx as [Hc Hf].
  apply In_cells_from_f64 in Hc. rewrite Nat.sub_0_r in Hc. destruct Hc as [_ Hc].
  apply free_iff_f64 in Hf. destruct Hf as [Hr Hcol].
  split; [exact Hc|]. split; [exact Hr|]. split; [exact Hcol|].
  split; [exact Hfin|].
  intros r' c' v' Hc' Hr' Hcol'.
  pose proof (free_cell_listed D aR aC r' c' v' Hc' Hr' Hcol') as Hy.
  pose proof (sorted_filter cell_lt_f64 (free_f64 aR aC) _ (cells_from_sorted_f64 0 D))
    as Hs.
  rewrite E in Hs, Hy. apply sorted_split in Hs. destruct Hs as [_ Hs].
  apply in_app_or in Hy. rewrite Forall_forall in H1, H2, Hs.
  destruct Hy as [Hy | [Hy | Hy]].
  - specialize (H1 _ Hy). simpl in H1. split; [now apply not_leb_not_ltb | auto].
  - injection Hy as -> -> ->. split; [apply ltb_irrefl|].
    unfold row_major_lt. lia.
  - specialize (H2 _ Hy). simpl in H2. split; [exact H2|].
    specialize (Hs _ Hy). unfold cell_lt_f64, row_major_lt in *; simpl in Hs. lia.
Qed.

Lemma find_min_none_f64 (D : list (list PrimFloat.float)) (aR aC : list nat) :
  find_min_f64 D aR aC = None ->
  forall r c v, cell_f64 D r c = Some v -> ~ In r aR -> ~ In c aC ->
                (v <? PrimFloat.infinity)%float = false.
Proof.
  rewrite find_min_flat_f64. intros H r c v Hc Hr Hcol.
  apply fold_pick_none_f64 in H. rewrite Forall_forall in H.
  exact (H _ (free_cell_listed D aR aC r c v Hc Hr Hcol)).
Qed.

(** ** The matching loop over doubles *)

Lemma cell_bounds_f64 (D : list (list PrimFloat.float)) (r c : nat)
  (v : PrimFloat.float) :
  cell_f64 D r c = Some v -> (r < length D)%nat.
Proof.
  unfold cell_f64. destruct (nth_error D r) eqn:E; [|discriminate].
  intros _. apply nth_error_Some. congruence.
Qed.

(** One iteration of the loop, by cases on what the scan found. *)
Lemma greedy_loop_step_f64 (fuel : nat) (D : list (list PrimFloat.float))
  (maxDist : PrimFloat.float) (aR aC : list nat) (acc : list (nat * nat)) :
  greedy_loop_f64 (S fuel) D maxDist aR aC acc =
  match find_min_f64 D aR aC with
  | None => Some acc
  | Some (minVal, minR, minC) =>
      if (maxDist <? minVal)%float then Some acc
      else greedy_loop_f64 fuel D maxDist (minR :: aR) (minC :: aC)
             (acc ++ [(minR, minC)])
  end.
Proof.
  cbn [greedy_loop_f64]. cbv zeta.
  destruct (find_min_f64 D aR aC) as [[[v r] c]|] eqn:E; cbn [minVal_of].
  - apply find_min_some_f64 in E. destruct E as (_ & _ & _ & Hfin & _).
    now rewrite (below_inf_neq _ Hfin).
  - reflexivity.
Qed.

Lemma greedy_loop_sound_f64 (fuel : nat) (D : list (list PrimFloat.float))
  (maxDist : PrimFloat.float) (aR aC : list nat) (acc res : list (nat * nat)) :
  greedy_loop_f64 fuel D maxDist aR aC acc = Some res ->
  exists ms, res = acc ++ ms /\ greedy_spec_f64 D maxDist aR aC ms.
Proof.
  revert aR aC acc. induction fuel as [|fuel IH]; intros aR aC acc;
    [discriminate|].
  rewrite greedy_loop_step_f64.
  destruct (find_min_f64 D aR aC) as [[[v r] c]|] eqn:E.
  - apply find_min_some_f64 in E.
    destruct (maxDist <? v)%float eqn:Ex.
    + intros [= <-]. exists []. rewrite app_nil_r. split; [reflexivity|].
      eapply greedy_stop_f64; eauto.
    + intros H. apply IH in H. destruct H as (ms & -> & Hg).
      exists ((r, c) :: ms). rewrite <- app_assoc. split; [reflexivity|].
      eapply greedy_commit_f64; eauto.
  - intros [= <-]. exists []. rewrite app_nil_r. split; [reflexivity|].
    apply greedy_exhausted_f64. now apply find_min_none_f64.
Qed.

Lemma greedy_loop_total_f64 (fuel : nat) (D : list (list PrimFloat.float))
  (maxDist : PrimFloat.float) (aR aC : list nat) (acc : list (nat * nat)) :
  NoDup aR -> (forall r, In r aR -> (r < length D)%nat) ->
  (length D < fuel + length aR)%nat ->
  exists res, greedy_loop_f64 fuel D maxDist aR aC acc = Some res.
Proof.
  revert aR aC acc. induction fuel as [|fuel IH]; intros aR aC acc Hnd Hb Hf.
  - pose proof (bounded_nodup_length _ _ Hnd Hb). simpl in Hf. lia.
  - rewrite greedy_loop_step_f64.
    destruct (find_min_f64 D aR aC) as [[[v r] c]|] eqn:E; [|eauto].
    destruct (maxDist <? v)%float; [eauto|].
    apply find_min_some_f64 in E. destruct E as (Hc & Hr & _).
    apply IH.
    + now constructor.
    + intros x [<-|Hx]; [eapply cell_bounds_f64; eauto | auto].
    + simpl. lia.
Qed.

Lemma greedy_terminates_f64 (D : list (list PrimFloat.float))
  (maxDist : PrimFloat.float) :
  greedy_loop_f64 (S (length D)) D maxDist [] [] [] = Some (greedy_f64 D maxDist).
Proof.
  unfold greedy_f64.
  destruct (greedy_loop_total_f64 (S (length D)) D maxDist [] [] []) as [res ->].
  - constructor.
  - intros r [].
  - simpl. lia.
  - reflexivity.
Qed.

Lemma greedy_meets_spec_f64 (D : list (list PrimFloat.float))
  (maxDist : PrimFloat.float) :
  greedy_spec_f64 D maxDist [] [] (greedy_f64 D maxDist).
Proof.
  pose proof (greedy_terminates_f64 D maxDist) as H.
  apply greedy_loop_sound_f64 in H. destruct H as (ms & -> & H). exact H.
Qed.

Lemma first_min_unique_f64 (D : list (list PrimFloat.float)) (aR aC : list nat)
  (r c r' c' : nat) (v v' : PrimFloat.float) :
  first_min_f64 D aR aC r c v -> first_min_f64 D aR aC r' c' v' ->
  r = r' /\ c = c' /\ v = v'.
Proof.
  intros (Hc & Hr & Hcol & Hf & Hmin) (Hc' & Hr' & Hcol' & Hf' & Hmin').
  destruct (Hmin _ _ _ Hc' Hr' Hcol') as [L1 S1].
  destruct (Hmin' _ _ _ Hc Hr Hcol) as [L2 S2].
  assert (N1 : ~ row_major_lt r' c' r c).
  { intros G. specialize (S1 G).
    rewrite (not_leb_ltb _ _ Hf' Hf S1) in L2. discriminate. }
  assert (N2 : ~ row_major_lt r c r' c').
  { intros G. specialize (S2 G).
    rewrite (not_leb_ltb _ _ Hf Hf' S2) in L1. discriminate. }
  unfold row_major_lt in *.
  assert (r = r' /\ c = c') as [-> ->].
  { destruct (Nat.lt_trichotomy r r') as [H|[H|H]]; [tauto| |tauto].
    destruct (Nat.lt_trichotomy c c') as [G|[G|G]]; [tauto|tauto|]. subst. tauto. }
  repeat split. congruence.
Qed.

Lemma greedy_spec_unique_f64 (D : list (list PrimFloat.float))
  (maxDist : PrimFloat.float)
  (aR aC : list nat) (ms ms' : list (nat * nat)) :
  greedy_spec_f64 D maxDist aR aC ms -> greedy_spec_f64 D maxDist aR aC ms' ->
  ms = ms'.
Proof.
  intros H. revert ms'.
  induction H as [aR aC Hnone | aR aC r c v Hm Hx | aR aC r c v ms Hm Hx Hg IH];
    intros ms' H'; inversion H'; subst; try reflexivity.
  - exfalso. destruct H as (Hc & Hr & Hcol & Hf & _).
    rewrite (Hnone _ _ _ Hc Hr Hcol) in Hf. discriminate.
  - exfalso. destruct (first_min_unique_f64 _ _ _ _ _ _ _ _ _ Hm H) as (_ & _ & ->).
    congruence.
  - exfalso. destruct Hm as (Hc & Hr & Hcol & Hf & _).
    rewrite (H _ _ _ Hc Hr Hcol) in Hf. discriminate.
  - exfalso. destruct (first_min_unique_f64 _ _ _ _ _ _ _ _ _ Hm H) as (_ & _ & ->).
    congruence.
  - destruct (first_min_unique_f64 _ _ _ _ _ _ _ _ _ Hm H) as (-> & -> & ->).
    f_equal. now apply IH.
Qed.

Lemma greedy_spec_wellformed_f64 (D : list (list PrimFloat.float))
  (maxDist : PrimFloat.float)
  (aR aC : list nat) (ms : list (nat * nat)) :
  greedy_spec_f64 D maxDist aR aC ms ->
  NoDup (map fst ms) /\ NoDup (map snd ms) /\
  (forall r, In r (map fst ms) -> ~ In r aR) /\
  (forall c, In c (map snd ms) -> ~ In c aC) /\
  (forall r c, In (r, c) ms ->
     exists v, cell_f64 D r c = Some v /\
               (v <? PrimFloat.infinity)%float = true /\
               (maxDist <? v)%float = false).
Proof.
  induction 1 as [aR aC Hnone | aR aC r c v Hm Hx | aR aC r c v ms Hm Hx Hg IH];
    simpl.
  - repeat split; try constructor; intros; tauto.
  - repeat split; try constructor; intros; tauto.
  - destruct IH as (N1 & N2 & F1 & F2 & Hin).
    destruct Hm as (Hc & Hr & Hcol & Hf & _).
    split; [|split; [|split; [|split]]].
    + constructor; [|exact N1]. intros Hin'. apply (F1 _ Hin'). now left.
    + constructor; [|exact N2]. intros Hin'. apply (F2 _ Hin'). now left.
    + intros r' [<-|Hr']; [exact Hr|]. intros G. apply (F1 _ Hr'). now right.
    + intros c' [<-|Hc']; [exact Hcol|]. intros G. apply (F2 _ Hc'). now right.
    + intros r' c' [[= <- <-]|H']; [eauto | auto].
Qed.

(** What the loop leaves: a remaining entry below [Infinity] is above
    the threshold. *)
Lemma greedy_spec_maximal_f64 (D : list (list PrimFloat.float))
  (maxDist : PrimFloat.float)
  (aR aC : list nat) (ms : list (nat * nat)) :
  greedy_spec_f64 D maxDist aR aC ms ->
  forall r c v,
    cell_f64 D r c = Some v ->
    ~ In r aR -> ~ In r (map fst ms) ->
    ~ In c aC -> ~ In c (map snd ms) ->
    (v <? PrimFloat.infinity)%float = true ->
    (maxDist <? v)%float = true.
Proof.
  induction 1 as [aR aC Hnone | aR aC r0 c0 v0 Hm Hx | aR aC r0 c0 v0 ms Hm Hx Hg IH];
    intros r c v Hc Hr1 Hr2 Hc1 Hc2 Hf.
  - rewrite (Hnone _ _ _ Hc Hr1 Hc1) in Hf. discriminate.
  - destruct Hm as (_ & _ & _ & Hf0 & Hmin).
    destruct (Hmin _ _ _ Hc Hr1 Hc1) as [Hle _].
    eapply ltb_leb_trans; [exact Hx|]. now apply not_ltb_leb.
  - simpl in Hr2, Hc2. apply (IH r c v Hc); simpl; tauto.
Qed.

(** ** The matches of a frame, on doubles *)

Lemma cell_matrix_f64 (ps cs : list centroid) (r c : nat) (v : PrimFloat.float) :
  cell_f64 (hypot_matrix ps cs) r c = Some v <->
  exists p q, nth_error ps r = Some p /\ nth_error cs c = Some q /\ v = distance p q.
Proof.
  unfold cell_f64, hypot_matrix. rewrite nth_error_map.
  destruct (nth_error ps r) as [p|]; simpl.
  - rewrite nth_error_map. destruct (nth_error cs c) as [q|]; simpl.
    + split.
      * intros [= <-]. eauto.
      * intros (p' & q' & [= <-] & [= <-] & ->). reflexivity.
    + split; [discriminate|]. intros (p' & q' & _ & H & _). discriminate.
  - split; [discriminate|]. intros (p' & q' & H & _). discriminate.
Qed.

Lemma matches_f64_spec (t : CentroidTracker) (rects : list rect) :
  greedy_spec_f64 (D_of t rects) (number (maxDistance t)) [] [] (matches_f64 t rects).
Proof. apply greedy_meets_spec_f64. Qed.

Lemma matches_f64_within (t : CentroidTracker) (rects : list rect) (r c : nat) :
  In (r, c) (matches_f64 t rects) ->
  exists p q, nth_error (map_values (objects t)) r = Some p /\
              nth_error (map centroid_of rects) c = Some q /\
              (distance p q <? PrimFloat.infinity)%float = true /\
              (number (maxDistance t) <? distance p q)%float = false.
Proof.
  intros H.
  destruct (greedy_spec_wellformed_f64 _ _ _ _ _ (matches_f64_spec t rects))
    as (_ & _ & _ & _ & Hin).
  destruct (Hin _ _ H) as (v & Hc & Hf & Hx).
  apply cell_matrix_f64 in Hc. destruct Hc as (p & q & Hp & Hq & ->). eauto 6.
Qed.

Lemma matches_f64_valid (t : CentroidTracker) (rects : list rect) :
  valid_matches t rects (matches_f64 t rects).
Proof.
  destruct (greedy_spec_wellformed_f64 _ _ _ _ _ (matches_f64_spec t rects))
    as (N1 & N2 & _ & _ & _).
  repeat split; auto.
  - destruct (matches_f64_within _ _ _ _ H) as (p & q & Hp & _).
    assert (G : (r < length (map_values (objects t)))%nat)
      by (apply nth_error_Some; congruence).
    unfold map_values in G. now rewrite length_map in G.
  - destruct (matches_f64_within _ _ _ _ H) as (p & q & _ & Hq & _).
    assert (G : (c < length (map centroid_of rects))%nat)
      by (apply nth_error_Some; congruence).
    now rewrite length_map in G.
Qed.

(** ** Doubles against exact distances

    [update] compares exact squared distances where the code compares
    the doubles of [Math.hypot].  Rounding can flip such a comparison:
    two pairs at the same exact distance can get different doubles,
    and a pair at exactly [maxDistance] can get a double above it. *)

Example hypot_3_4 : Math_hypot (number 3) (number 4) = number 5.
Proof. vm_compute. reflexivity. Qed.

Example rounding_splits_a_tie :
  dist2 (0, 0) (2, 9) = dist2 (0, 0) (6, 7) /\
  (distance (0, 0) (6, 7) <? distance (0, 0) (2, 9))%float = true.
Proof. split; vm_compute; reflexivity. Qed.

Example rounding_passes_the_threshold :
  exceeds (dist2 (0, 0) (35, 120)) 125 = false /\
  (number 125 <? distance (0, 0) (35, 120))%float = true.
Proof. split; vm_compute; reflexivity. Qed.

Example rounding_changes_a_match :
  let t := update (new_tracker 40 80) [box_at 100 100] in
  let rects := [box_at 102 109; box_at 106 107] in
  matches_of t rects = [(0%nat, 0%nat)] /\ matches_f64 t rects = [(0%nat, 1%nat)].
Proof. split; vm_compute; reflexivity. Qed.

(** On a frame where no comparison is flipped the two selections are
    the same. *)

Section RoundingNeutral.
Variables (t : CentroidTracker) (rects : list rect).
Hypothesis Hn : rounding_neutral t rects = true.

Lemma neutral_pair (p q : centroid) :
  In p (map_values (objects t)) -> In q (map centroid_of rects) ->
  (distance p q <? PrimFloat.infinity)%float = true /\
  (number (maxDistance t) <? distance p q)%float = exceeds (dist2 p q) (maxDistance t) /\
  forall p' q', In p' (map_values (objects t)) -> In q' (map centroid_of rects) ->
    (distance p q <? distance p' q')%float = (dist2 p q <? dist2 p' q').
Proof.
  intros Hp Hq. unfold rounding_neutral in Hn. rewrite forallb_forall in Hn.
  assert (Hin : In (p, q) (frame_pairs t rects)) by (apply in_prod; assumption).
  specialize (Hn _ Hin). simpl in Hn.
  apply andb_true_iff in Hn. destruct Hn as [H12 H3].
  apply andb_true_iff in H12. destruct H12 as [H1 H2].
  split; [exact H1|]. split; [now apply Bool.eqb_prop|].
  intros p' q' Hp' Hq'. rewrite forallb_forall in H3.
  assert (Hin' : In (p', q') (frame_pairs t rects)) by (apply in_prod; assumption).
  specialize (H3 _ Hin'). simpl in H3. now apply Bool.eqb_prop.
Qed.

Lemma neutral_first_min (aR aC : list nat) (r c : nat) (v' : PrimFloat.float) :
  first_min_f64 (D_of t rects) aR aC r c v' ->
  exists v, first_min (matrix_of t rects) aR aC r c v /\
            (number (maxDistance t) <? v')%float = exceeds v (maxDistance t).
Proof.
  intros (Hc & Hr & Hcol & Hf & Hmin).
  apply cell_matrix_f64 in Hc. destruct Hc as (p & q & Hp & Hq & ->).
  pose proof (nth_error_In _ _ Hp) as Ip. pose proof (nth_error_In _ _ Hq) as Iq.
  destruct (neutral_pair p q Ip Iq) as (_ & Hx & Hord).
  exists (dist2 p q). split; [|exact Hx].
  split; [apply cell_matrix; eauto|]. split; [exact Hr|]. split; [exact Hcol|].
  intros r1 c1 v1 Hc1 Hr1 Hcol1.
  apply cell_matrix in Hc1. destruct Hc1 as (p1 & q1 & Hp1 & Hq1 & ->).
  pose proof (nth_error_In _ _ Hp1) as Ip1. pose proof (nth_error_In _ _ Hq1) as Iq1.
  destruct (neutral_pair p1 q1 Ip1 Iq1) as (Hf1 & _ & Hord1).
  assert (Hc1 : cell_f64 (D_of t rects) r1 c1 = Some (distance p1 q1))
    by (apply cell_matrix_f64; eauto).
  destruct (Hmin _ _ _ Hc1 Hr1 Hcol1) as [L S]. split.
  - rewrite (Hord1 p q Ip Iq) in L. now apply Z.ltb_ge.
  - intros G. specialize (S G).
    pose proof (not_leb_ltb _ _ Hf1 Hf S) as L'.
    rewrite (Hord p1 q1 Ip1 Iq1) in L'. now apply Z.ltb_lt.
Qed.

Lemma neutral_spec (aR aC : list nat) (ms : list (nat * nat)) :
  greedy_spec_f64 (D_of t rects) (number (maxDistance t)) aR aC ms ->
  greedy_spec (matrix_of t rects) (maxDistance t) aR aC ms.
Proof.
  induction 1 as [aR aC Hnone | aR aC r c v Hm Hx | aR aC r c v ms Hm Hx Hg IH].
  - apply greedy_exhausted. intros r c v Hc Hr Hcol.
    apply cell_matrix in Hc. destruct Hc as (p & q & Hp & Hq & ->).
    destruct (neutral_pair p q (nth_error_In _ _ Hp) (nth_error_In _ _ Hq))
      as (Hf & _).
    rewrite (Hnone r c (distance p q)) in Hf; [discriminate | | auto | auto].
    apply cell_matrix_f64. eauto.
  - destruct (neutral_first_min _ _ _ _ _ Hm) as (v0 & Hm0 & E).
    eapply greedy_stop; [exact Hm0|]. now rewrite <- E.
  - destruct (neutral_first_min _ _ _ _ _ Hm) as (v0 & Hm0 & E).
    eapply greedy_commit; [exact Hm0 | now rewrite <- E | exact IH].
Qed.

Lemma neutral_matches : matches_f64 t rects = matches_of t rects.
Proof.
  eapply greedy_spec_unique; [|apply matches_of_spec].
  apply neutral_spec, matches_f64_spec.
Qed.

End RoundingNeutral.


(* ================================================================= *)
(** * The claims *)

(** ** C1 -- greedy selection of matches *)

(** C1.  In the general case of [update] (at least one live object and
    at least one input box) the matches the code applies are the ones
    the matching loop leaves when it ends, over the matrix [D] of the
    doubles [Math.hypot] returns, and they are exactly the greedy
    selection of the specification: repeatedly the globally smallest
    entry of [D] over the rows and columns not yet assigned, the first
    one in row-major order among equal minima, until that minimum is
    above [maxDistance] or nothing is left.  No other list of matches
    fits that description.  Smallest, equal and above are the
    comparisons of doubles, on the entries as [D] holds them. *)
Theorem update_selects_greedily (t : CentroidTracker) (rects : list rect) :
  objects t <> [] -> rects <> [] ->
  let D := D_of t rects in
  let maxDist := number (maxDistance t) in
  update_full_f64 t rects = apply_matches t rects (matches_f64 t rects) /\
  greedy_loop_f64 (S (length D)) D maxDist [] [] [] = Some (matches_f64 t rects) /\
  greedy_spec_f64 D maxDist [] [] (matches_f64 t rects) /\
  (forall ms, greedy_spec_f64 D maxDist [] [] ms -> ms = matches_f64 t rects) /\
  (forall i j p q,
     nth_error (map_values (objects t)) i = Some p ->
     nth_error (map centroid_of rects) j = Some q ->
     cell_f64 D i j = Some (distance p q)).
Proof.
  intros Ho Hr D maxDist. split; [|split; [|split; [|split]]].
  - unfold update_full_f64.
    destruct (objects t) as [|o os]; [contradiction|].
    destruct rects as [|r rs]; [contradiction|]. reflexivity.
  - apply greedy_terminates_f64.
  - apply matches_f64_spec.
  - intros ms Hms. eapply greedy_spec_unique_f64; [exact Hms | apply matches_f64_spec].
  - intros i j p q Hp Hq. apply cell_matrix_f64. eauto.
Qed.

Lemma update_selects_greedily_witness :
  let t := update_f64 (new_tracker 40 80) [box_at 100 100] in
  let rects := [box_at 102 109; box_at 106 107] in
  matches_f64 t rects = [(0%nat, 1%nat)] /\
  greedy_spec_f64 (D_of t rects) (number (maxDistance t)) [] [] (matches_f64 t rects).
Proof.
  intros t rects. split; [vm_compute; reflexivity|].
  apply (update_selects_greedily t rects); discriminate.
Defined.

(** ** C9 -- the two tables share their keys *)

(** C9.  [register], [deregister] and [update] each keep the id-to-centroid
    table and the id-to-count table on the same keys: after the
    operation an id has a centroid exactly when it has a missed count.
    (The two lists are taken to stand for [Map]s, without repeated
    keys, which the operations also preserve.) *)
Theorem operations_keep_same_keys (t : CentroidTracker) :
  maps_ok t -> same_keys t ->
  (forall c, let t' := snd (register c t) in maps_ok t' /\ same_keys t') /\
  (forall id, let t' := deregister id t in
      maps_ok t' /\ same_keys t' /\
      map_get id (objects t') = None /\ map_get id (disappeared t') = None) /\
  (forall rects, let t' := update t rects in maps_ok t' /\ same_keys t').
Proof.
  intros Hm Hs. split; [|split].
  - intros c t'. split; [now apply register_maps_ok | now apply register_same_keys].
  - intros id t'. split; [now apply deregister_maps_ok|].
    split; [now apply deregister_same_keys|].
    unfold t'. simpl. now rewrite !map_get_delete, Z.eqb_refl.
  - intros rects t'. split; [now apply update_maps_ok | now apply update_same_keys].
Qed.

Lemma operations_keep_same_keys_witness :
  let t := mkTracker 3 [(1, (0, 0)); (2, (100, 100))]
             [(1, Num 0); (2, Num 1)] 1 50 in
  same_keys (update t [box_at 2 1]).
Proof.
  intros t. apply (operations_keep_same_keys t).
  - split; simpl; repeat constructor; simpl; lia.
  - intros k. cbn -[Z.eqb].
    destruct (1 =? k); [split; discriminate|].
    destruct (2 =? k); [split; discriminate|]. tauto.
Defined.

(** ** C4 -- ids only grow *)

Lemma id_range_app (a : Z) (n m : nat) :
  id_range a n ++ id_range (a + Z.of_nat n) m = id_range a (n + m).
Proof.
  unfold id_range. rewrite seq_app, map_app. f_equal. simpl.
  induction m as [|m IH]; [reflexivity|].
  rewrite !seq_S, !map_app, IH. simpl. do 2 f_equal. lia.
Qed.

Lemma id_range_sorted (a : Z) (n : nat) : StronglySorted Z.lt (id_range a n).
Proof.
  revert a. induction n as [|n IH]; intros a; [constructor|].
  unfold id_range in *. simpl. constructor.
  - rewrite <- seq_shift, map_map.
    specialize (IH (a + 1)).
    erewrite map_ext; [exact IH|]. intros i. simpl. lia.
  - apply Forall_forall. intros x Hx. apply in_map_iff in Hx.
    destruct Hx as (i & <- & Hi). apply in_seq in Hi. lia.
Qed.

Lemma id_range_In (a : Z) (n : nat) (x : Z) :
  In x (id_range a n) <-> a <= x < a + Z.of_nat n.
Proof.
  unfold id_range. rewrite in_map_iff. split.
  - intros (i & <- & Hi). apply in_seq in Hi. lia.
  - intros H. exists (Z.to_nat (x - a)). split; [lia|]. apply in_seq. lia.
Qed.

Lemma sorted_lt_nodup (l : list Z) : StronglySorted Z.lt l -> NoDup l.
Proof.
  induction 1 as [|a l Hs IH Hf]; constructor; [|exact IH].
  intros Hin. rewrite Forall_forall in Hf. specialize (Hf a Hin). lia.
Qed.

Lemma run_cons (t : CentroidTracker) (rects : list rect) (frames : list (list rect)) :
  run t (rects :: frames) = run (update t rects) frames.
Proof.
  unfold run, update. simpl.
  destruct (update_full t rects) as [ids t1]. simpl.
  now destruct (run_full t1 frames).
Qed.

Lemma run_full_ids (t : CentroidTracker) (frames : list (list rect)) :
  wf t ->
  exists k, fst (run_full t frames) = id_range (nextObjectID t) k /\
            nextObjectID (run t frames) = nextObjectID t + Z.of_nat k.
Proof.
  revert t. induction frames as [|rects frames IH]; intros t Hwf.
  - exists 0%nat. split; [reflexivity | unfold run; simpl; lia].
  - destruct (IH (update t rects) (wf_update t rects Hwf)) as (k & E1 & E2).
    pose proof (update_ids t rects Hwf) as Hi.
    destruct (update_fields t rects Hwf) as (Hn & _).
    rewrite run_cons, E2, Hn.
    set (f := length (new_centroids rects (matches_of t rects))) in *.
    exists (f + k)%nat. split; [|lia].
    rewrite Hn in E1. unfold update in E1. simpl.
    destruct (update_full t rects) as [ids t1]. simpl in *.
    destruct (run_full t1 frames) as [ids' t2]. simpl in *.
    rewrite Hi, E1. apply id_range_app.
Qed.

(** C4.  Over any run of [update] calls on an engine, whatever its
    thresholds, the ids [register] hands out form, in the order they
    are issued, a strictly increasing list of positive integers: each
    is above every id issued before it and none is issued twice,
    whether or not the objects that bore the earlier ones are still
    tracked. *)
Theorem ids_strictly_increase (maxDisappeared maxDistance : Z)
  (frames : list (list rect)) :
  let issued := fst (run_full (new_tracker maxDisappeared maxDistance) frames) in
  StronglySorted Z.lt issued /\
  Forall (fun id => 0 < id) issued /\
  NoDup issued /\
  issued = id_range 1 (length issued).
Proof.
  intros issued.
  destruct (run_full_ids (new_tracker maxDisappeared maxDistance) frames
              (wf_new _ _)) as (k & E & _).
  simpl in E. fold issued in E.
  assert (Hs : StronglySorted Z.lt issued) by (rewrite E; apply id_range_sorted).
  repeat split.
  - exact Hs.
  - rewrite E. apply Forall_forall. intros x Hx. apply id_range_In in Hx. lia.
  - now apply sorted_lt_nodup.
  - rewrite E at 1. f_equal. rewrite E. unfold id_range.
    now rewrite length_map, length_seq.
Qed.

(** ** C8 -- missed counts stay within the threshold *)

Lemma live_unmatched (t : CentroidTracker) (rects : list rect) (k : Z) :
  wf t -> In k (map_keys (objects t)) -> ~ In k (matched_ids t rects) ->
  In k (unmatched_ids t (matches_of t rects)).
Proof.
  intros Hwf Hk Hn.
  destruct (keys_matched_or_not t rects (matches_of t rects) k Hk) as [H|H];
    [contradiction | exact H].
Qed.

(** What one frame does to a live object it does not match. *)
Lemma update_missed (t : CentroidTracker) (rects : list rect) (k : Z)
  (p : centroid) (n : Z) :
  wf t ->
  map_get k (objects t) = Some p ->
  map_get k (disappeared t) = Some (Num n) ->
  ~ In k (matched_ids t rects) ->
  (n + 1 <= maxDisappeared t ->
     map_get k (objects (update t rects)) = Some p /\
     map_get k (disappeared (update t rects)) = Some (Num (n + 1))) /\
  (maxDisappeared t < n + 1 ->
     map_get k (objects (update t rects)) = None /\
     map_get k (disappeared (update t rects)) = None).
Proof.
  intros Hwf Hp Hc Hn.
  assert (Hk : In k (map_keys (objects t))) by (apply map_get_live; eauto).
  pose proof (live_unmatched t rects k Hwf Hk Hn) as Hu.
  destruct (update_unmatched t rects Hwf k Hu) as [E1 E2].
  rewrite Hc, Hp in *. simpl in E1, E2.
  split; intros H.
  - replace (maxDisappeared t <? n + 1) with false in *
      by (symmetry; apply Z.ltb_ge; lia). auto.
  - replace (maxDisappeared t <? n + 1) with true in *
      by (symmetry; apply Z.ltb_lt; lia). auto.
Qed.

Lemma counts_bounded_update (t : CentroidTracker) (rects : list rect) :
  wf t -> 0 <= maxDisappeared t -> counts_bounded (update t rects).
Proof.
  intros Hwf Hmd k c Hk.
  destruct (update_fields t rects Hwf) as (_ & -> & _).
  destruct (update_classes t rects k) as [(i & Hi & ->) | [(c0 & Hc) | [Hu | [Hd Ho]]]].
  - destruct (update_new t rects Hwf i Hi) as [_ E]. rewrite E in Hk.
    injection Hk as <-. exists 0. split; [reflexivity | lia].
  - destruct (update_matched t rects Hwf k c0 Hc) as [_ E]. rewrite E in Hk.
    injection Hk as <-. exists 0. split; [reflexivity | lia].
  - destruct (update_unmatched t rects Hwf k Hu) as [_ E]. rewrite E in Hk.
    assert (Hl : In k (map_keys (disappeared t))).
    { apply same_keys_In; [apply Hwf|]. exact (unmatched_in_keys t _ k Hu). }
    apply map_get_live in Hl. destruct Hl as [c1 Hc1].
    destruct (wf_count _ Hwf _ _ Hc1) as (m & -> & Hm).
    rewrite Hc1 in Hk. simpl in Hk.
    destruct (maxDisappeared t <? m + 1) eqn:El; [discriminate|].
    injection Hk as <-. apply Z.ltb_ge in El.
    exists (m + 1). split; [reflexivity | lia].
  - destruct (update_dead t rects Hwf k Hd Ho) as [_ E]. congruence.
Qed.



(** ** C2 -- ageing *)




(** ** C3 -- distance gating *)

Lemma row_entry {V} (m : list (Z * V)) (row : nat) (v : V) :
  nth_error (map_values m) row = Some v ->
  In (nth row (map_keys m) 0, v) m.
Proof.
  unfold map_values, map_keys. rewrite nth_error_map.
  destruct (nth_error m row) as [[k w]|] eqn:E; simpl; [|discriminate].
  intros [= <-].
  assert (Hk : nth_error (map fst m) row = Some k)
    by (rewrite nth_error_map, E; reflexivity).
  apply (nth_error_nth _ _ 0) in Hk. rewrite Hk.
  eapply nth_error_In; eauto.
Qed.

Lemma matched_pair_close (t : CentroidTracker) (rects : list rect) (row c : nat) :
  In (row, c) (matches_of t rects) ->
  exists p r, In (nth row (map_keys (objects t)) 0, p) (objects t) /\
              nth_error rects c = Some r /\
              exceeds (dist2 p (centroid_of r)) (maxDistance t) = false.
Proof.
  intros H. destruct (matches_within t rects row c H) as (p & q & Hp & Hq & Hx).
  rewrite nth_error_map in Hq.
  destruct (nth_error rects c) as [r|] eqn:Er; [|discriminate].
  injection Hq as <-. exists p, r. split; [|auto]. now apply row_entry.
Qed.

Lemma far_object_unmatched (t : CentroidTracker) (rects : list rect) (k : Z)
  (p : centroid) :
  wf t ->
  map_get k (objects t) = Some p ->
  (forall r, In r rects -> exceeds (dist2 p (centroid_of r)) (maxDistance t) = true) ->
  ~ In k (matched_ids t rects).
Proof.
  intros Hwf Hp Hfar Hin. unfold matched_ids, pairs_of in Hin.
  rewrite map_map in Hin. apply in_map_iff in Hin.
  destruct Hin as ([row c] & E & Hm). simpl in E.
  destruct (matched_pair_close t rects row c Hm) as (p' & r & He & Hr & Hx).
  rewrite E in He. apply map_In_get in He; [|apply Hwf].
  assert (p' = p) by congruence. subst p'.
  rewrite (Hfar r) in Hx; [discriminate|]. eapply nth_error_In; eauto.
Qed.

(** C3.  In a reachable state, let the detection at position [j] of the
    frame be farther than [maxDistance] from the centroid of every live
    object.  Then no match pairs it with an existing object; it is
    registered under an id that was never in use (at least
    [nextObjectID]), at its own centroid and with count 0; and every
    live object with no detection of the frame within [maxDistance] --
    every live object, when this detection is the only one -- has its
    missed count incremented (and is deregistered by the ageing rule if
    the new count is above [maxDisappeared]). *)
Theorem far_detection_spawns_new_id (t : CentroidTracker) (rects : list rect)
  (j : nat) (r : rect) :
  reachable t ->
  nth_error rects j = Some r ->
  (forall id p, In (id, p) (objects t) ->
                exceeds (dist2 p (centroid_of r)) (maxDistance t) = true) ->
  (forall row, ~ In (row, j) (matches_of t rects)) /\
  (exists id,
     nextObjectID t <= id /\
     map_get id (objects t) = None /\
     In id (fst (update_full t rects)) /\
     map_get id (objects (update t rects)) = Some (centroid_of r) /\
     map_get id (disappeared (update t rects)) = Some (Num 0)) /\
  (forall k p n,
     map_get k (objects t) = Some p ->
     map_get k (disappeared t) = Some (Num n) ->
     (forall r', In r' rects ->
                 exceeds (dist2 p (centroid_of r')) (maxDistance t) = true) ->
     (n + 1 <= maxDisappeared t ->
        map_get k (objects (update t rects)) = Some p /\
        map_get k (disappeared (update t rects)) = Some (Num (n + 1))) /\
     (maxDisappeared t < n + 1 ->
        map_get k (objects (update t rects)) = None /\
        map_get k (disappeared (update t rects)) = None)).
Proof.
  intros Hr Hj Hfar. pose proof (reachable_wf _ Hr) as Hwf.
  assert (Hno : forall row, ~ In (row, j) (matches_of t rects)).
  { intros row Hin.
    destruct (matched_pair_close t rects row j Hin) as (p & r' & He & Hr' & Hx).
    assert (r' = r) by congruence. subst r'.
    rewrite (Hfar _ _ He) in Hx. discriminate. }
  split; [exact Hno | split].
  - assert (Hu : In j (unmatched_cols rects (matches_of t rects))).
    { apply unmatched_cols_spec. split.
      - apply nth_error_Some. congruence.
      - intros Hin. apply in_map_iff in Hin.
        destruct Hin as ([row c] & E & Hin). simpl in E; subst c.
        exact (Hno row Hin). }
    apply In_nth_error in Hu. destruct Hu as [i Hi].
    assert (Hlt : (i < length (new_centroids rects (matches_of t rects)))%nat).
    { unfold new_centroids. rewrite length_map. apply nth_error_Some. congruence. }
    destruct (update_new t rects Hwf i Hlt) as [E1 E2].
    exists (nextObjectID t + Z.of_nat i). repeat split.
    + lia.
    + apply map_get_None. intros Hk. apply (wf_fresh _ Hwf) in Hk. lia.
    + rewrite (update_ids t rects Hwf). apply id_range_In. lia.
    + rewrite E1. unfold new_centroids. rewrite nth_error_map, Hi. simpl.
      f_equal. apply nth_error_nth. rewrite nth_error_map, Hj. reflexivity.
    + exact E2.
  - intros k p n Hp Hc Hall.
    apply update_missed; auto.
    now apply (far_object_unmatched t rects k p).
Qed.

(** Scenario C of the specification. *)
Lemma far_detection_spawns_new_id_witness :
  let t := update (new_tracker 50 10) [box_at 0 0] in
  exists id,
    nextObjectID t <= id /\
    map_get id (objects t) = None /\
    In id (fst (update_full t [box_at 50 50])) /\
    map_get id (objects (update t [box_at 50 50])) = Some (centroid_of (box_at 50 50)) /\
    map_get id (disappeared (update t [box_at 50 50])) = Some (Num 0).
Proof.
  intros t.
  apply (far_detection_spawns_new_id t [box_at 50 50] 0 (box_at 50 50)).
  - apply reach_update, reach_new.
  - reflexivity.
  - intros id p [E|[]]. injection E as <- <-. reflexivity.
Defined.

(** ** C10 -- every input box ends up as a live object *)

Lemma combine_fst {A B} (l1 : list A) (l2 : list B) :
  length l1 = length l2 -> map fst (combine l1 l2) = l1.
Proof.
  revert l2. induction l1 as [|a l1 IH]; intros [|b l2]; simpl; try discriminate;
    [reflexivity|]. intros [= E]. f_equal. now apply IH.
Qed.

Lemma combine_snd {A B} (l1 : list A) (l2 : list B) :
  length l1 = length l2 -> map snd (combine l1 l2) = l2.
Proof.
  revert l2. induction l1 as [|a l1 IH]; intros [|b l2]; simpl; try discriminate;
    [reflexivity|]. intros [= E]. f_equal. now apply IH.
Qed.

Lemma id_range_length (a : Z) (n : nat) : length (id_range a n) = n.
Proof. unfold id_range. now rewrite length_map, length_seq. Qed.

Lemma id_range_nth (a : Z) (n i : nat) :
  (i < n)%nat -> nth_error (id_range a n) i = Some (a + Z.of_nat i).
Proof.
  intros Hi. unfold id_range. rewrite nth_error_map.
  rewrite (nth_error_nth' _ 0%nat) by (now rewrite length_seq).
  rewrite seq_nth by exact Hi. reflexivity.
Qed.

Lemma In_combine_nth {A B} (l1 : list A) (l2 : list B) (a : A) (b : B) :
  In (a, b) (combine l1 l2) ->
  exists i, nth_error l1 i = Some a /\ nth_error l2 i = Some b.
Proof.
  revert l2. induction l1 as [|x l1 IH]; intros [|y l2]; simpl; try tauto.
  intros [[= -> ->]|H].
  - exists 0%nat. auto.
  - destruct (IH _ H) as (i & H1 & H2). exists (S i). auto.
Qed.

Lemma cols_partition (t : CentroidTracker) (rects : list rect) (M : list (nat * nat)) :
  valid_matches t rects M ->
  Permutation (map snd M ++ unmatched_cols rects M) (seq 0 (length rects)).
Proof.
  intros (_ & N2 & Hb).
  apply NoDup_Permutation.
  - apply NoDup_app; [exact N2 | apply NoDup_filter, seq_NoDup |].
    intros c Hc Hu. apply unmatched_cols_spec in Hu. tauto.
  - apply seq_NoDup.
  - intros c. rewrite in_app_iff, unmatched_cols_spec, in_seq. split.
    + intros [H|[H _]]; [|lia]. apply in_map_iff in H.
      destruct H as ([r c'] & E & Hin). simpl in E; subst c'.
      destruct (Hb _ _ Hin). lia.
    + intros H. destruct (in_dec Nat.eq_dec c (map snd M)); [tauto|].
      right. split; [lia | assumption].
Qed.

Lemma owners_centroids (t : CentroidTracker) (rects : list rect) :
  Permutation (map snd (owners t rects)) (map centroid_of rects).
Proof.
  unfold owners. rewrite map_app, combine_snd by apply id_range_length.
  assert (E : map snd (pairs_of t rects (matches_of t rects)) =
              map (fun c => nth c (map centroid_of rects) (0, 0))
                  (map snd (matches_of t rects)))
    by (unfold pairs_of; rewrite !map_map; reflexivity).
  rewrite E. unfold new_centroids. rewrite <- map_app.
  eapply perm_trans.
  - apply Permutation_map. apply (cols_partition t), matches_of_valid.
  - rewrite <- (length_map centroid_of rects), map_nth_seq0.
    apply Permutation_refl.
Qed.

Lemma owners_keys (t : CentroidTracker) (rects : list rect) :
  map fst (owners t rects) =
  matched_ids t rects ++
  id_range (nextObjectID t) (length (new_centroids rects (matches_of t rects))).
Proof.
  unfold owners. rewrite map_app, combine_fst by apply id_range_length.
  reflexivity.
Qed.

Lemma owners_nodup (t : CentroidTracker) (rects : list rect) :
  wf t -> NoDup (map fst (owners t rects)).
Proof.
  intros Hwf. rewrite owners_keys. apply NoDup_app.
  - apply pairs_nodup; [apply Hwf | apply matches_of_valid].
  - apply sorted_lt_nodup, id_range_sorted.
  - intros k Hk Hn. apply id_range_In in Hn.
    apply (pairs_in_keys t rects _ (matches_of_valid t rects)) in Hk.
    apply (wf_fresh _ Hwf) in Hk. lia.
Qed.

Lemma owners_live (t : CentroidTracker) (rects : list rect) (id : Z) (c : centroid) :
  wf t -> In (id, c) (owners t rects) ->
  map_get id (objects (update t rects)) = Some c /\
  map_get id (disappeared (update t rects)) = Some (Num 0) /\
  (In id (matched_ids t rects) \/ In id (fst (update_full t rects))).
Proof.
  intros Hwf Hin. unfold owners in Hin. apply in_app_or in Hin.
  destruct Hin as [Hin|Hin].
  - destruct (update_matched t rects Hwf id c Hin) as [E1 E2].
    repeat split; auto. left. unfold matched_ids.
    change id with (fst (id, c)). now apply in_map.
  - apply In_combine_nth in Hin. destruct Hin as (i & Hi & Hc).
    assert (Hlt : (i < length (new_centroids rects (matches_of t rects)))%nat)
      by (apply nth_error_Some; congruence).
    rewrite id_range_nth in Hi by exact Hlt. injection Hi as <-.
    destruct (update_new t rects Hwf i Hlt) as [E1 E2].
    repeat split; [congruence | exact E2 |].
    right. rewrite (update_ids t rects Hwf). apply id_range_In. lia.
Qed.

Lemma update_holds_frame (t : CentroidTracker) (rects : list rect) :
  wf t -> (length rects <= length (objects (update t rects)))%nat.
Proof.
  intros Hwf.
  rewrite <- (length_map centroid_of rects).
  rewrite <- (Permutation_length (owners_centroids t rects)).
  rewrite length_map, <- (length_map fst (owners t rects)).
  rewrite <- (keys_length (objects (update t rects))).
  apply NoDup_incl_length; [now apply owners_nodup|].
  intros id Hid. apply in_map_iff in Hid. destruct Hid as ([id' c] & E & Hin).
  simpl in E; subst id'. apply map_get_live.
  destruct (owners_live t rects id c Hwf Hin) as [E _]. eauto.
Qed.

Lemma update_nonempty (t : CentroidTracker) (rects : list rect) :
  wf t -> rects <> [] -> objects (update t rects) <> [].
Proof.
  intros Hwf Hne E. pose proof (update_holds_frame t rects Hwf) as Hlen.
  rewrite E in Hlen. destruct rects; [contradiction|]. simpl in Hlen. lia.
Qed.



(** ** C6 -- re-association of detections with ids *)

Lemma nearest_flat (cx cy : Z) (objs : list (Z * centroid)) (b : option (Z * Z)) :
  fold_left (nearest_step cx cy) objs b =
  fold_left (pick_by fst) (map (tagged cx cy) objs) b.
Proof.
  revert b. induction objs as [|[id cent] objs IH]; intros b; simpl; [reflexivity|].
  rewrite IH. f_equal. destruct b as [[bd bi]|]; reflexivity.
Qed.

Lemma nearest_spec (objs : list (Z * centroid)) (cx cy : Z) :
  match nearest objs cx cy with
  | None => objs = []
  | Some (d, id) =>
      exists p before after,
        objs = before ++ (id, p) :: after /\
        d = dist2 p (cx, cy) /\
        (forall id' p', In (id', p') before -> dist2 p (cx, cy) < dist2 p' (cx, cy)) /\
        (forall id' p', In (id', p') after -> dist2 p (cx, cy) <= dist2 p' (cx, cy))
  end.
Proof.
  unfold nearest. rewrite nearest_flat.
  destruct (fold_left _ _ None) as [[d id]|] eqn:E.
  - apply fold_pick_first in E. destruct E as (l1 & l2 & E & H1 & H2).
    apply map_eq_app in E. destruct E as (before & rest & -> & <- & E).
    apply map_eq_cons in E. destruct E as ([id0 p] & after & -> & E & <-).
    unfold tagged in E. simpl in E. injection E as <- <-.
    exists p, before, after. repeat split.
    + intros id' p' Hin. rewrite Forall_forall in H1.
      apply (H1 (tagged cx cy (id', p'))). now apply in_map.
    + intros id' p' Hin. rewrite Forall_forall in H2.
      apply (H2 (tagged cx cy (id', p'))). now apply in_map.
  - apply fold_pick_none in E. now destruct objs.
Qed.

(** C6.  In a reachable state, for every detection of the frame handed
    to [update], the id [tick] attaches to it is the id of an object of
    the returned map whose centroid is nearest to the detection's
    centroid: every entry before it in the map's iteration order is
    strictly farther, every entry after it at least as far. *)
Theorem detection_gets_nearest_id (t : CentroidTracker) (rects : list rect)
  (i : nat) (r : rect) :
  reachable t ->
  nth_error rects i = Some r ->
  exists id p before after,
    nth_error (tick_ids t rects) i = Some (Some id) /\
    objects (update t rects) = before ++ (id, p) :: after /\
    (forall id' p', In (id', p') before ->
       dist2 p (centroid_of r) < dist2 p' (centroid_of r)) /\
    (forall id' p', In (id', p') after ->
       dist2 p (centroid_of r) <= dist2 p' (centroid_of r)).
Proof.
  intros Hr Hi.
  assert (Hrects : rects <> []) by (intros ->; destruct i; discriminate).
  pose proof (update_nonempty t rects (reachable_wf _ Hr) Hrects) as Hne.
  unfold tick_ids. rewrite nth_error_map, Hi. simpl. unfold track_id.
  destruct (centroid_of r) as [cx cy] eqn:Ec.
  pose proof (nearest_spec (objects (update t rects)) cx cy) as H.
  destruct (nearest _ cx cy) as [[d id]|]; [|contradiction].
  destruct H as (p & before & after & E & _ & H1 & H2).
  exists id, p, before, after. simpl. auto.
Qed.

Lemma detection_gets_nearest_id_witness :
  let t := update (new_tracker 1 50) [box_at 0 0; box_at 100 100] in
  exists id p before after,
    nth_error (tick_ids t [box_at 2 1]) 0 = Some (Some id) /\
    objects (update t [box_at 2 1]) = before ++ (id, p) :: after /\
    (forall id' p', In (id', p') before ->
       dist2 p (centroid_of (box_at 2 1)) < dist2 p' (centroid_of (box_at 2 1))) /\
    (forall id' p', In (id', p') after ->
       dist2 p (centroid_of (box_at 2 1)) <= dist2 p' (centroid_of (box_at 2 1))).
Proof.
  intros t.
  apply (detection_gets_nearest_id t [box_at 2 1] 0 (box_at 2 1)).
  - apply reach_update, reach_new.
  - reflexivity.
Defined.

(** ** C7 -- the constructor takes any thresholds *)

(** The claim as the specification states it fails: an engine with
    non-positive thresholds is constructed all the same. *)
Lemma constructor_accepts_nonpositive :
  ~ (forall maxDisappeared maxDistance,
       maxDisappeared <= 0 \/ maxDistance <= 0 ->
       constructor maxDisappeared maxDistance = None).
Proof.
  intros H. specialize (H 0 (-5)). discriminate H. left. lia.
Qed.

(** C7, amended.  Construction never fails: for every pair of
    thresholds, non-positive ones included, the constructor returns an
    engine with no objects and next id 1 that stores the thresholds as
    given, and that engine works: its first [update] registers the
    boxes of the frame, in order, under the ids 1, 2, ... *)
Theorem constructor_never_rejects (maxDisappeared maxDistance : Z) :
  exists t,
    constructor maxDisappeared maxDistance = Some t /\
    t = new_tracker maxDisappeared maxDistance /\
    forall rects,
      fst (update_full t rects) = id_range 1 (length rects) /\
      forall i, (i < length rects)%nat ->
        map_get (1 + Z.of_nat i) (objects (update t rects)) =
          nth_error (map centroid_of rects) i.
Proof.
  exists (new_tracker maxDisappeared maxDistance).
  split; [reflexivity|]. split; [reflexivity|]. intros rects.
  assert (Eu : update_full (new_tracker maxDisappeared maxDistance) rects =
               register_all (map centroid_of rects)
                 (new_tracker maxDisappeared maxDistance)) by reflexivity.
  unfold update. rewrite Eu. split.
  - rewrite register_all_ids, length_map. reflexivity.
  - intros i Hi.
    destruct (register_all_get (map centroid_of rects) (1 + Z.of_nat i)
                (new_tracker maxDisappeared maxDistance)) as [E _].
    rewrite E. cbn [new_tracker nextObjectID]. rewrite length_map.
    replace ((1 <=? 1 + Z.of_nat i) && _) with true
      by (symmetry; apply andb_true_iff; split;
          [apply Z.leb_le | apply Z.ltb_lt]; lia).
    f_equal. lia.
Qed.

(** ** C5 -- the same frame twice *)

Lemma centroid_eqb_eq (p q : centroid) : centroid_eqb p q = true <-> p = q.
Proof.
  destruct p as [a b], q as [c d]. unfold centroid_eqb; simpl.
  rewrite andb_true_iff, !Z.eqb_eq. split; [intros [-> ->] | intros [= -> ->]]; auto.
Qed.

Lemma dist2_zero (p q : centroid) : dist2 p q = 0 <-> p = q.
Proof.
  destruct p as [a b], q as [c d]. unfold dist2, hypot2; simpl. split.
  - intros H.
    pose proof (Z.square_nonneg (a - c)) as Ha.
    pose proof (Z.square_nonneg (b - d)) as Hb.
    assert (H1 : (a - c) * (a - c) = 0) by lia.
    assert (H2 : (b - d) * (b - d) = 0) by lia.
    apply Z.mul_eq_0 in H1, H2. f_equal; lia.
  - intros [= -> ->]. lia.
Qed.

Lemma dist2_nonneg (p q : centroid) : 0 <= dist2 p q.
Proof.
  unfold dist2, hypot2.
  pose proof (Z.square_nonneg (fst p - fst q)).
  pose proof (Z.square_nonneg (snd p - snd q)). lia.
Qed.

Lemma In_indexed_from {A} (k : nat) (l : list A) (i : nat) (x : A) :
  In (i, x) (combine (seq k (length l)) l) <->
  (k <= i)%nat /\ nth_error l (i - k) = Some x.
Proof.
  revert k. induction l as [|a l IH]; intros k; simpl.
  - split; [tauto|]. intros [_ H]. now destruct (i - k)%nat.
  - rewrite IH. split.
    + intros [[= -> ->] | (Hle & Hn)].
      * rewrite Nat.sub_diag. auto.
      * split; [lia|]. replace (i - k)%nat with (S (i - S k)) by lia. exact Hn.
    + intros (Hle & Hn). destruct (Nat.eq_dec k i) as [->|Hne].
      * rewrite Nat.sub_diag in Hn. simpl in Hn. injection Hn as ->. now left.
      * right. split; [lia|].
        replace (i - k)%nat with (S (i - S k)) in Hn by lia. exact Hn.
Qed.

Lemma In_indexed {A} (l : list A) (i : nat) (x : A) :
  In (i, x) (indexed l) <-> nth_error l i = Some x.
Proof.
  unfold indexed. rewrite In_indexed_from, Nat.sub_0_r. intuition lia.
Qed.

Lemma indexed_keys {A} (l : list A) : NoDup (map fst (indexed l)).
Proof.
  unfold indexed. rewrite combine_fst by apply length_seq. apply seq_NoDup.
Qed.

Lemma tally_indexed_from (p : centroid) (k : nat) (l : list centroid) :
  length (filter (spare_at [] p) (combine (seq k (length l)) l)) = tally p l.
Proof.
  revert k. induction l as [|a l IH]; intros k; simpl; [reflexivity|].
  unfold tally, spare_at in *. simpl.
  destruct (centroid_eqb a p); simpl; now rewrite IH.
Qed.

Lemma spare_nil (l : list centroid) (p : centroid) : spare l [] p = tally p l.
Proof. apply tally_indexed_from. Qed.

Lemma spare_at_cons (r : nat) (used : list nat) (p : centroid) (ix : nat * centroid) :
  spare_at (r :: used) p ix = negb (fst ix =? r)%nat && spare_at used p ix.
Proof.
  unfold spare_at, set_has. simpl. rewrite negb_orb, andb_assoc. reflexivity.
Qed.

Lemma spare_at_free (r : nat) (used : list nat) (p x : centroid) :
  ~ In r used -> spare_at used p (r, x) = centroid_eqb x p.
Proof.
  intros Hr. unfold spare_at. simpl.
  apply set_has_not_In in Hr. now rewrite Hr.
Qed.

Lemma spare_take (L : list (nat * centroid)) (used : list nat) (p : centroid)
  (r : nat) (x : centroid) :
  NoDup (map fst L) -> In (r, x) L -> ~ In r used ->
  (length (filter (spare_at (r :: used) p) L)
   + (if centroid_eqb x p then 1 else 0)
   = length (filter (spare_at used p) L))%nat.
Proof.
  intros Hnd Hin Hr. induction L as [|[r' x'] L IH]; [inversion Hin|].
  simpl in Hnd. inversion Hnd as [|? ? Hn' Hnd']; subst.
  cbn [filter]. rewrite spare_at_cons. cbn [fst].
  destruct Hin as [[= -> ->]|Hin].
  - assert (E : filter (spare_at (r :: used) p) L = filter (spare_at used p) L).
    { apply filter_ext_in. intros [i y] Hi. rewrite spare_at_cons. cbn [fst].
      destruct (i =? r)%nat eqn:Ei; [|reflexivity].
      apply Nat.eqb_eq in Ei; subst i. exfalso. apply Hn'.
      change r with (fst (r, y)). now apply in_map. }
    rewrite E, Nat.eqb_refl, (spare_at_free r used p x Hr). cbn [negb andb].
    destruct (centroid_eqb x p); cbn [length]; lia.
  - specialize (IH Hnd' Hin).
    assert (Hne : (r' =? r)%nat = false).
    { apply Nat.eqb_neq. intros ->. apply Hn'.
      change r with (fst (r, x)). now apply in_map. }
    rewrite Hne. cbn [negb andb].
    destruct (spare_at used p (r', x')); cbn [length]; lia.
Qed.

Lemma spare_assign (l : list centroid) (used : list nat) (p x : centroid) (r : nat) :
  nth_error l r = Some x -> ~ In r used ->
  (spare l (r :: used) p + (if centroid_eqb x p then 1 else 0) = spare l used p)%nat.
Proof.
  intros Hn Hr. unfold spare. apply spare_take; auto.
  - apply indexed_keys.
  - now apply In_indexed.
Qed.

Lemma spare_positive (l : list centroid) (used : list nat) (p : centroid) :
  (0 < spare l used p)%nat ->
  exists r, nth_error l r = Some p /\ ~ In r used.
Proof.
  unfold spare. intros H.
  destruct (filter (spare_at used p) (indexed l)) as [|[r x] L] eqn:E;
    [simpl in H; lia|].
  assert (Hin : In (r, x) (filter (spare_at used p) (indexed l)))
    by (rewrite E; now left).
  apply filter_In in Hin. destruct Hin as [Hi Hs].
  unfold spare_at in Hs; simpl in Hs. apply andb_true_iff in Hs.
  destruct Hs as [Hu Hx]. apply centroid_eqb_eq in Hx. subst x.
  apply negb_true_iff, set_has_not_In in Hu.
  exists r. split; [now apply In_indexed | exact Hu].
Qed.

Lemma spare_witness (l : list centroid) (used : list nat) (p : centroid) (c : nat) :
  nth_error l c = Some p -> ~ In c used -> (0 < spare l used p)%nat.
Proof.
  intros Hn Hc. pose proof (spare_assign l used p p c Hn Hc) as H.
  replace (centroid_eqb p p) with true in H
    by (symmetry; now apply centroid_eqb_eq).
  lia.
Qed.

Lemma exceeds_zero (maxDist : Z) : 0 <= maxDist -> exceeds 0 maxDist = false.
Proof.
  intros H. unfold exceeds. apply orb_false_iff. rewrite !Z.ltb_ge. nia.
Qed.

Section ZeroDistanceMatching.
Variables (ps cs : list centroid) (maxDist : Z).
Hypothesis Hmax : 0 <= maxDist.

(** While every centroid is spare among the rows at least as often as
    among the columns, a free column has a free row at distance 0. *)
Lemma zero_cell_available (aR aC : list nat) (c : nat) (q : centroid) :
  (forall p, spare cs aC p <= spare ps aR p)%nat ->
  nth_error cs c = Some q -> ~ In c aC ->
  exists r, ~ In r aR /\ cell (distance_matrix ps cs) r c = Some 0.
Proof.
  intros Hinv Hq Hc.
  pose proof (spare_witness cs aC q c Hq Hc) as Hpos.
  specialize (Hinv q).
  destruct (spare_positive ps aR q) as (r & Hr & Hn); [lia|].
  exists r. split; [exact Hn|]. apply cell_matrix.
  exists q, q. repeat split; auto. symmetry. now apply dist2_zero.
Qed.

Lemma first_min_zero (aR aC : list nat) (r c : nat) (v : Z) :
  (forall p, spare cs aC p <= spare ps aR p)%nat ->
  first_min (distance_matrix ps cs) aR aC r c v ->
  v = 0 /\ exists p, nth_error ps r = Some p /\ nth_error cs c = Some p.
Proof.
  intros Hinv (Hcell & Hr & Hc & Hmin).
  apply cell_matrix in Hcell. destruct Hcell as (p & q & Hp & Hq & ->).
  destruct (zero_cell_available aR aC c q Hinv Hq Hc) as (r0 & Hr0 & Hz).
  destruct (Hmin _ _ _ Hz Hr0 Hc) as [Hle _].
  pose proof (dist2_nonneg p q) as Hge.
  assert (E : dist2 p q = 0) by lia.
  split; [exact E|]. apply dist2_zero in E. subst q. eauto.
Qed.

Lemma greedy_covers (aR aC : list nat) (ms : list (nat * nat)) :
  greedy_spec (distance_matrix ps cs) maxDist aR aC ms ->
  (forall p, spare cs aC p <= spare ps aR p)%nat ->
  (forall r c, In (r, c) ms ->
     exists p, nth_error ps r = Some p /\ nth_error cs c = Some p) /\
  (forall c, (c < length cs)%nat -> In c aC \/ In c (map snd ms)).
Proof.
  induction 1 as [aR aC Hnone | aR aC r c v Hm Hx | aR aC r c v ms Hm Hx Hg IH];
    intros Hinv.
  - split; [intros r c []|]. intros c Hc.
    destruct (in_dec Nat.eq_dec c aC) as [i|n]; [now left|]. exfalso.
    destruct (nth_error cs c) as [q|] eqn:Eq;
      [|apply nth_error_None in Eq; lia].
    destruct (zero_cell_available aR aC c q Hinv Eq n) as (r0 & Hr0 & Hz).
    exact (Hnone _ _ _ Hz Hr0 n).
  - exfalso. destruct (first_min_zero _ _ _ _ _ Hinv Hm) as [-> _].
    rewrite exceeds_zero in Hx by exact Hmax. discriminate.
  - destruct (first_min_zero _ _ _ _ _ Hinv Hm) as (-> & p & Hp & Hq).
    destruct Hm as (_ & Hr & Hc & _).
    destruct IH as [IH1 IH2].
    { intros p'.
      pose proof (spare_assign ps aR p' p r Hp Hr).
      pose proof (spare_assign cs aC p' p c Hq Hc).
      specialize (Hinv p'). lia. }
    split.
    + intros r' c' [[= <- <-]|Hin]; [eauto | now apply IH1].
    + intros c' Hc'. destruct (IH2 c' Hc') as [[<-|Hin]|Hin].
      * right. now left.
      * now left.
      * right. now right.
Qed.

End ZeroDistanceMatching.

Lemma tally_perm (p : centroid) (l l' : list centroid) :
  Permutation l l' -> tally p l = tally p l'.
Proof.
  unfold tally. induction 1 as [|x l l' HP IH|x y l|l l' l'' H1 IH1 H2 IH2]; simpl.
  - reflexivity.
  - destruct (centroid_eqb x p); simpl; now rewrite IH.
  - destruct (centroid_eqb x p), (centroid_eqb y p); reflexivity.
  - now rewrite IH1.
Qed.

Lemma tally_app (p : centroid) (l l' : list centroid) :
  tally p (l ++ l') = (tally p l + tally p l')%nat.
Proof. unfold tally. now rewrite filter_app, length_app. Qed.

Lemma tally_sub (p : centroid) (E m : list (Z * centroid)) :
  NoDup (map fst E) -> incl E m ->
  (tally p (map snd E) <= tally p (map snd m))%nat.
Proof.
  revert m. induction E as [|e E IH]; intros m Hnd Hincl.
  - unfold tally at 1. simpl. lia.
  - simpl in Hnd. inversion Hnd as [|? ? Hn Hnd']; subst.
    assert (He : In e m) by (apply Hincl; now left).
    apply in_split in He. destruct He as (m1 & m2 & ->).
    assert (Hincl' : incl E (m1 ++ m2)).
    { intros x Hx. assert (Hxm : In x (m1 ++ e :: m2)) by (apply Hincl; now right).
      apply in_app_or in Hxm. apply in_or_app.
      destruct Hxm as [H|[H|H]]; auto.
      subst x. exfalso. apply Hn. now apply in_map. }
    specialize (IH _ Hnd' Hincl').
    rewrite map_app, tally_app in IH.
    rewrite map_app, tally_app. simpl.
    change (snd e :: map snd m2) with ([snd e] ++ map snd m2).
    change (snd e :: map snd E) with ([snd e] ++ map snd E).
    rewrite !tally_app. lia.
Qed.

(** After [update rects], each input centroid occurs among the
    centroids of the live objects at least as often as in the frame. *)
Lemma update_covers_frame (t : CentroidTracker) (rects : list rect) (p : centroid) :
  wf t ->
  (spare (map centroid_of rects) [] p
   <= spare (map_values (objects (update t rects))) [] p)%nat.
Proof.
  intros Hwf. rewrite !spare_nil.
  rewrite <- (tally_perm p _ _ (owners_centroids t rects)).
  apply tally_sub; [now apply owners_nodup|].
  intros [id c] Hin. apply map_get_In.
  now destruct (owners_live t rects id c Hwf Hin).
Qed.

(** On the frame just processed every column is matched, at distance 0. *)
Lemma repeat_matches (t : CentroidTracker) (rects : list rect) :
  wf t -> 0 <= maxDistance t ->
  let t1 := update t rects in
  (forall k q, In (k, q) (pairs_of t1 rects (matches_of t1 rects)) ->
               map_get k (objects t1) = Some q) /\
  new_centroids rects (matches_of t1 rects) = [].
Proof.
  intros Hwf Hmax t1.
  pose proof (wf_update t rects Hwf) as Hwf1. fold t1 in Hwf1.
  destruct (update_fields t rects Hwf) as (_ & _ & Emax). fold t1 in Emax.
  assert (Hmax1 : 0 <= maxDistance t1) by (rewrite Emax; exact Hmax).
  destruct (greedy_covers (map_values (objects t1)) (map centroid_of rects)
              (maxDistance t1) Hmax1 [] [] (matches_of t1 rects)
              (matches_of_spec t1 rects)
              (fun p => update_covers_frame t rects p Hwf)) as [H1 H2].
  split.
  - intros k q Hin. unfold pairs_of in Hin. apply in_map_iff in Hin.
    destruct Hin as ([r c] & E & Hm). simpl in E. injection E as <- <-.
    destruct (H1 r c Hm) as (p & Hp & Hq).
    rewrite (nth_error_nth _ _ _ Hq).
    apply map_In_get; [apply Hwf1 | now apply row_entry].
  - unfold new_centroids.
    destruct (unmatched_cols rects (matches_of t1 rects)) as [|c U] eqn:E;
      [reflexivity|].
    exfalso.
    assert (Hc : In c (unmatched_cols rects (matches_of t1 rects)))
      by (rewrite E; now left).
    apply unmatched_cols_spec in Hc. destruct Hc as [Hlt Hn].
    destruct (H2 c) as [[]|Hin]; [now rewrite length_map | contradiction].
Qed.

(** The claim as the specification states it fails: an object that the
    frame does not match keeps ageing when the frame is repeated, and
    is deregistered once its count passes the threshold.  Here
    [maxDisappeared = 1]; after frame 1 the engine holds id 1 at (0,0);
    the frame [(50,50)] leaves id 1 unmatched (count 1) and registers
    id 2; the same frame again removes id 1. *)
Lemma repeat_is_not_noop : ~ repeat_is_noop.
Proof.
  intros H.
  specialize (H (update (new_tracker 1 10) [box_at 0 0]) [box_at 50 50]
                (reach_update _ _ (reach_new 1 10)) 1).
  vm_compute in H. discriminate H.
Qed.

(** C5, amended.  In a reachable state of an engine whose [maxDistance]
    is not negative, calling [update] again with the box list of the
    call just made registers nothing, adds no id to the map and leaves
    the centroid of every object still in the map unchanged.  An object
    leaves the map in the repeated call only if its missed count had
    already reached [maxDisappeared]; so when every count is below
    [maxDisappeared] after the first call, the repeated call changes no
    id and no centroid. *)
Theorem repeated_frame_keeps_centroids (t : CentroidTracker) (rects : list rect) :
  reachable t -> 0 <= maxDistance t ->
  let t1 := update t rects in
  let t2 := update t1 rects in
  fst (update_full t1 rects) = [] /\
  nextObjectID t2 = nextObjectID t1 /\
  (forall id p, map_get id (objects t2) = Some p ->
                map_get id (objects t1) = Some p) /\
  (forall id, map_get id (objects t1) <> None ->
              map_get id (objects t2) = None ->
              exists n, map_get id (disappeared t1) = Some (Num n) /\
                        maxDisappeared t <= n) /\
  ((forall id n, map_get id (disappeared t1) = Some (Num n) ->
                 n < maxDisappeared t) ->
   forall id, map_get id (objects t2) = map_get id (objects t1)).
Proof.
  intros Hr Hmax t1 t2. pose proof (reachable_wf _ Hr) as Hwf.
  pose proof (wf_update t rects Hwf) as Hwf1. fold t1 in Hwf1.
  destruct (repeat_matches t rects Hwf Hmax) as [Hsame Hnone]. fold t1 in Hsame, Hnone.
  destruct (update_fields t rects Hwf) as (_ & Emd & _). fold t1 in Emd.
  destruct (update_fields t1 rects Hwf1) as (Hn & _). fold t2 in Hn.
  rewrite Hnone in Hn. simpl in Hn.
  assert (Hkeep : forall id p, map_get id (objects t2) = Some p ->
                               map_get id (objects t1) = Some p).
  { intros id p Hp.
    destruct (update_classes t1 rects id)
      as [(i & Hi & ->) | [(c & Hc) | [Hu | [Hd Ho]]]].
    - rewrite Hnone in Hi. inversion Hi.
    - destruct (update_matched t1 rects Hwf1 id c Hc) as [E _]. fold t2 in E.
      rewrite (Hsame _ _ Hc). congruence.
    - destruct (update_unmatched t1 rects Hwf1 id Hu) as [E _]. fold t2 in E.
      rewrite E in Hp. destruct (count_gt _ _); [discriminate | exact Hp].
    - destruct (update_dead t1 rects Hwf1 id Hd Ho) as [E _]. fold t2 in E.
      congruence. }
  assert (Hleave : forall id, map_get id (objects t1) <> None ->
                     map_get id (objects t2) = None ->
                     exists n, map_get id (disappeared t1) = Some (Num n) /\
                               maxDisappeared t <= n).
  { intros id Hlive Hgone.
    destruct (update_classes t1 rects id)
      as [(i & Hi & ->) | [(c & Hc) | [Hu | [Hd Ho]]]].
    - rewrite Hnone in Hi. inversion Hi.
    - destruct (update_matched t1 rects Hwf1 id c Hc) as [E _]. fold t2 in E.
      congruence.
    - destruct (update_unmatched t1 rects Hwf1 id Hu) as [E _]. fold t2 in E.
      rewrite E in Hgone.
      destruct (map_get id (disappeared t1)) as [[n|]|] eqn:Ec; simpl in Hgone;
        try contradiction.
      destruct (maxDisappeared t1 <? n + 1) eqn:El; [|contradiction].
      apply Z.ltb_lt in El. exists n. split; [reflexivity | lia].
    - apply map_get_None in Hd. contradiction. }
  split; [|split; [|split; [|split]]].
  - rewrite (update_ids t1 rects Hwf1), Hnone. reflexivity.
  - lia.
  - exact Hkeep.
  - exact Hleave.
  - intros Hlow id.
    destruct (map_get id (objects t2)) as [p|] eqn:E2.
    + symmetry. now apply Hkeep.
    + destruct (map_get id (objects t1)) as [p|] eqn:E1; [|reflexivity].
      destruct (Hleave id) as (n & Hc & Hge); [congruence | exact E2 |].
      specialize (Hlow _ _ Hc). lia.
Qed.

Lemma repeated_frame_keeps_centroids_witness :
  let t := update (new_tracker 1 50) [box_at 0 0; box_at 100 100] in
  let rects := [box_at 2 1; box_at 2 1; box_at 300 300] in
  fst (update_full (update t rects) rects) = [].
Proof.
  intros t rects.
  apply (repeated_frame_keeps_centroids t rects).
  - apply reach_update, reach_new.
  - vm_compute. discriminate.
Defined.

(* ================================================================= *)
(** * Further properties of the code *)

(** ** Keys of a map, as a list *)

Lemma map_set_present_keys {V} (k : Z) (v : V) (m : list (Z * V)) :
  In k (map_keys m) -> map_keys (map_set k v m) = map_keys m.
Proof.
  induction m as [|[a w] m IH]; simpl; [tauto|].
  destruct (a =? k) eqn:E; simpl.
  - apply Z.eqb_eq in E. subst. reflexivity.
  - apply Z.eqb_neq in E. intros [H|H]; [contradiction|]. f_equal. now apply IH.
Qed.

Lemma map_set_absent {V} (k : Z) (v : V) (m : list (Z * V)) :
  ~ In k (map_keys m) -> map_set k v m = m ++ [(k, v)].
Proof.
  induction m as [|[a w] m IH]; simpl; [reflexivity|].
  intros H. destruct (a =? k) eqn:E.
  - apply Z.eqb_eq in E. tauto.
  - f_equal. apply IH. tauto.
Qed.

Lemma map_delete_keys {V} (k : Z) (m : list (Z * V)) :
  map_keys (map_delete k m) = filter (fun x => negb (x =? k)) (map_keys m).
Proof.
  induction m as [|[a w] m IH]; simpl; [reflexivity|].
  destruct (a =? k); simpl; now rewrite IH.
Qed.

Lemma map_delete_absent {V} (k : Z) (m : list (Z * V)) :
  ~ In k (map_keys m) -> map_delete k m = m.
Proof.
  intros H. apply filter_all. intros [a w] Hin.
  apply negb_true_iff, Z.eqb_neq. simpl. intros ->. apply H.
  change k with (fst (k, w)). now apply in_map.
Qed.

Lemma map_delete_appended {V} (k : Z) (v : V) (m : list (Z * V)) :
  ~ In k (map_keys m) -> map_delete k (m ++ [(k, v)]) = m.
Proof.
  intros H. unfold map_delete. rewrite filter_app. simpl.
  rewrite Z.eqb_refl. simpl. rewrite app_nil_r. now apply map_delete_absent.
Qed.

Lemma map_all_none {V} (m : list (Z * V)) :
  (forall k, map_get k m = None) -> m = [].
Proof.
  destruct m as [|[a w] m]; [reflexivity|]. intros H.
  specialize (H a). simpl in H. rewrite Z.eqb_refl in H. discriminate.
Qed.

Lemma mem_z_In (k : Z) (l : list Z) : mem_z k l = true <-> In k l.
Proof.
  unfold mem_z. rewrite existsb_exists. split.
  - intros (x & Hx & E). apply Z.eqb_eq in E. now subst.
  - intros H. exists k. split; [exact H | apply Z.eqb_refl].
Qed.

Lemma mem_z_cons (k a : Z) (l : list Z) :
  mem_z k (a :: l) = (k =? a) || mem_z k l.
Proof. reflexivity. Qed.

(** ** The key lists across the three loops of [update] *)

Lemma rematch_all_keys (pairs : list (Z * centroid)) (t : CentroidTracker) :
  (forall p, In p pairs -> In (fst p) (map_keys (objects t))) ->
  (forall p, In p pairs -> In (fst p) (map_keys (disappeared t))) ->
  map_keys (objects (rematch_all pairs t)) = map_keys (objects t) /\
  map_keys (disappeared (rematch_all pairs t)) = map_keys (disappeared t).
Proof.
  revert t. induction pairs as [|p pairs IH]; intros t Ho Hd; simpl; [auto|].
  assert (E1 : map_keys (objects (rematch (fst p) (snd p) t)) = map_keys (objects t))
    by (simpl; apply map_set_present_keys, Ho; now left).
  assert (E2 : map_keys (disappeared (rematch (fst p) (snd p) t)) =
               map_keys (disappeared t))
    by (simpl; apply map_set_present_keys, Hd; now left).
  destruct (IH (rematch (fst p) (snd p) t)) as [H1 H2].
  - intros q Hq. rewrite E1. apply Ho. now right.
  - intros q Hq. rewrite E2. apply Hd. now right.
  - unfold rematch_all in *. simpl. rewrite H1, H2. auto.
Qed.

Lemma miss_keys (a : Z) (t : CentroidTracker) :
  In a (map_keys (disappeared t)) ->
  map_keys (objects (miss a t)) =
    (if ages_out t a then filter (fun x => negb (x =? a)) (map_keys (objects t))
     else map_keys (objects t)) /\
  map_keys (disappeared (miss a t)) =
    (if ages_out t a then filter (fun x => negb (x =? a)) (map_keys (disappeared t))
     else map_keys (disappeared t)).
Proof.
  intros Ha. rewrite (miss_unfold a t). unfold ages_out.
  destruct (count_gt _ _); simpl.
  - rewrite !map_delete_keys, map_set_present_keys by exact Ha. auto.
  - rewrite map_set_present_keys by exact Ha. auto.
Qed.

Lemma ages_out_miss (a k : Z) (t : CentroidTracker) :
  k <> a -> ages_out (miss a t) k = ages_out t k.
Proof.
  intros Hne. unfold ages_out. rewrite miss_disappeared.
  destruct (miss_fields a t) as (_ & -> & _).
  assert (E : (a =? k) = false) by (apply Z.eqb_neq; congruence).
  now rewrite E.
Qed.

Lemma miss_all_keys (ids : list Z) (t : CentroidTracker) :
  NoDup ids -> (forall a, In a ids -> In a (map_keys (disappeared t))) ->
  map_keys (objects (miss_all ids t)) =
    filter (fun k => negb (mem_z k ids && ages_out t k)) (map_keys (objects t)) /\
  map_keys (disappeared (miss_all ids t)) =
    filter (fun k => negb (mem_z k ids && ages_out t k)) (map_keys (disappeared t)).
Proof.
  intros Hnd. revert t. induction Hnd as [|a ids Ha Hnd IH]; intros t Hin.
  - simpl. rewrite !filter_all by reflexivity. auto.
  - destruct (miss_keys a t (Hin a (or_introl eq_refl))) as [K1 K2].
    destruct (IH (miss a t)) as [H1 H2].
    { intros b Hb. rewrite K2.
      assert (Hba : b <> a) by (intros ->; contradiction).
      destruct (ages_out t a); [|apply Hin; now right].
      apply filter_In. split; [apply Hin; now right|].
      now apply negb_true_iff, Z.eqb_neq. }
    unfold miss_all in *. simpl. rewrite H1, H2, K1, K2.
    assert (Hp : forall k,
      (if ages_out t a then negb (k =? a) else true)
      && negb (mem_z k ids && ages_out (miss a t) k)
      = negb (mem_z k (a :: ids) && ages_out t k)).
    { intros k. rewrite mem_z_cons. destruct (Z.eq_dec k a) as [->|Hne].
      - rewrite Z.eqb_refl.
        assert (E : mem_z a ids = false).
        { destruct (mem_z a ids) eqn:E; [|reflexivity].
          apply mem_z_In in E. contradiction. }
        rewrite E. simpl. now destruct (ages_out t a).
      - rewrite (ages_out_miss a k t Hne).
        assert (E : (k =? a) = false) by now apply Z.eqb_neq.
        rewrite E. simpl. now destruct (ages_out t a). }
    split.
    + destruct (ages_out t a) eqn:Ea.
      * rewrite filter_twice. apply filter_ext. intros k.
        exact (Hp k).
      * apply filter_ext. intros k.
        exact (Hp k).
    + destruct (ages_out t a) eqn:Ea.
      * rewrite filter_twice. apply filter_ext. intros k.
        exact (Hp k).
      * apply filter_ext. intros k.
        exact (Hp k).
Qed.

Lemma register_all_cons (c : centroid) (cs : list centroid) (t : CentroidTracker) :
  snd (register_all (c :: cs) t) = snd (register_all cs (snd (register c t))).
Proof. simpl. now destruct (register_all cs _). Qed.

Lemma id_range_succ (a : Z) (n : nat) :
  id_range a (S n) = a :: id_range (a + 1) n.
Proof.
  unfold id_range. simpl. f_equal; [lia|].
  rewrite <- seq_shift, map_map. apply map_ext. intros i. lia.
Qed.

Lemma register_all_appends (cs : list centroid) (t : CentroidTracker) :
  (forall k, In k (map_keys (objects t)) -> k < nextObjectID t) ->
  (forall k, In k (map_keys (disappeared t)) -> k < nextObjectID t) ->
  objects (snd (register_all cs t)) =
    objects t ++ combine (id_range (nextObjectID t) (length cs)) cs /\
  disappeared (snd (register_all cs t)) =
    disappeared t ++
    map (fun id => (id, Num 0)) (id_range (nextObjectID t) (length cs)).
Proof.
  revert t. induction cs as [|c cs IH]; intros t Ho Hd.
  - simpl. now rewrite !app_nil_r.
  - assert (No : ~ In (nextObjectID t) (map_keys (objects t)))
      by (intros H; apply Ho in H; lia).
    assert (Nd : ~ In (nextObjectID t) (map_keys (disappeared t)))
      by (intros H; apply Hd in H; lia).
    rewrite register_all_cons.
    destruct (IH (snd (register c t))) as [H1 H2].
    + intros k Hk. cbn [register snd objects nextObjectID] in Hk |- *.
      rewrite (map_set_absent _ _ _ No) in Hk. unfold map_keys in Hk.
      rewrite map_app in Hk. apply in_app_or in Hk.
      destruct Hk as [Hk|[Hk|[]]]; [apply Ho in Hk; lia | simpl in Hk; lia].
    + intros k Hk. cbn [register snd disappeared nextObjectID] in Hk |- *.
      rewrite (map_set_absent _ _ _ Nd) in Hk. unfold map_keys in Hk.
      rewrite map_app in Hk. apply in_app_or in Hk.
      destruct Hk as [Hk|[Hk|[]]]; [apply Hd in Hk; lia | simpl in Hk; lia].
    + rewrite H1, H2. cbn [register snd objects disappeared nextObjectID].
      rewrite (map_set_absent _ _ _ No), (map_set_absent _ _ _ Nd).
      cbn [length]. rewrite id_range_succ. cbn [combine map].
      rewrite <- !app_assoc. auto.
Qed.

Lemma keys_app {V} (m1 m2 : list (Z * V)) :
  map_keys (m1 ++ m2) = map_keys m1 ++ map_keys m2.
Proof. apply map_app. Qed.

Lemma wf_fresh_disappeared (t : CentroidTracker) (k : Z) :
  wf t -> In k (map_keys (disappeared t)) -> 0 < k < nextObjectID t.
Proof.
  intros Hwf Hk. apply (wf_fresh _ Hwf). now apply same_keys_In; [apply Hwf|].
Qed.

Lemma ages_out_rematch_all (pairs : list (Z * centroid)) (t : CentroidTracker) (k : Z) :
  ~ In k (map fst pairs) -> ages_out (rematch_all pairs t) k = ages_out t k.
Proof.
  intros Hk. unfold ages_out.
  destruct (rematch_all_other pairs k t Hk) as [_ ->].
  destruct (rematch_all_fields pairs t) as (_ & -> & _). reflexivity.
Qed.

(** The keys both tables hold after the three loops of the general case. *)
Lemma apply_matches_keys (t : CentroidTracker) (rects : list rect) :
  wf t ->
  let M := matches_of t rects in
  let keep := fun k => negb (mem_z k (unmatched_ids t M) && ages_out t k) in
  let t' := snd (apply_matches t rects M) in
  map_keys (objects t') =
    filter keep (map_keys (objects t)) ++ fst (apply_matches t rects M) /\
  map_keys (disappeared t') =
    filter keep (map_keys (disappeared t)) ++ fst (apply_matches t rects M).
Proof.
  intros Hwf M keep t'. unfold t'.
  pose proof (matches_of_valid t rects) as HM. fold M in HM.
  pose proof (proj1 (wf_maps _ Hwf)) as Hids.
  rewrite apply_matches_unfold, register_all_ids.
  set (t1 := rematch_all (pairs_of t rects M) t).
  set (t2 := miss_all (unmatched_ids t M) t1).
  destruct (rematch_all_keys (pairs_of t rects M) t) as [K1o K1d].
  { intros p Hp. apply (pairs_in_keys t rects M HM). now apply in_map. }
  { intros p Hp. apply same_keys_In; [apply Hwf|].
    apply (pairs_in_keys t rects M HM). now apply in_map. }
  fold t1 in K1o, K1d.
  destruct (miss_all_keys (unmatched_ids t M) t1) as [K2o K2d].
  { now apply unmatched_ids_nodup. }
  { intros a Ha. rewrite K1d. apply same_keys_In; [apply Hwf|].
    now apply (unmatched_in_keys t M). }
  fold t2 in K2o, K2d. rewrite K1o in K2o. rewrite K1d in K2d.
  assert (Hkeep : forall k,
            negb (mem_z k (unmatched_ids t M) && ages_out t1 k) = keep k).
  { intros k. unfold keep. destruct (mem_z k (unmatched_ids t M)) eqn:E;
      [|reflexivity].
    apply mem_z_In in E. simpl. f_equal. unfold t1.
    apply ages_out_rematch_all. intros G.
    exact (matched_not_unmatched t rects M Hids HM k G E). }
  rewrite (filter_ext _ _ Hkeep) in K2o, K2d.
  assert (Hn : nextObjectID t2 = nextObjectID t).
  { unfold t2, t1.
    destruct (miss_all_fields (unmatched_ids t M) (rematch_all (pairs_of t rects M) t))
      as (-> & _).
    now destruct (rematch_all_fields (pairs_of t rects M) t) as (-> & _). }
  destruct (register_all_appends (new_centroids rects M) t2) as [A1 A2].
  { intros k Hk. rewrite K2o in Hk. apply filter_In in Hk. destruct Hk as [Hk _].
    rewrite Hn. apply (wf_fresh _ Hwf) in Hk. lia. }
  { intros k Hk. rewrite K2d in Hk. apply filter_In in Hk. destruct Hk as [Hk _].
    rewrite Hn. apply (wf_fresh_disappeared _ _ Hwf) in Hk. lia. }
  rewrite A1, A2, !keys_app, K2o, K2d, Hn. split; f_equal.
  - unfold map_keys. apply combine_fst, id_range_length.
  - unfold map_keys. rewrite map_map. simpl. apply map_id.
Qed.

Lemma dropped_no_matches (t : CentroidTracker) (k : Z) (M : list (nat * nat)) :
  M = [] ->
  mem_z k (unmatched_ids t M) && ages_out t k =
  mem_z k (map_keys (objects t)) && ages_out t k.
Proof. intros ->. now rewrite unmatched_ids_nil. Qed.

Lemma update_keys (t : CentroidTracker) (rects : list rect) :
  wf t ->
  map_keys (objects (update t rects)) =
    filter (fun k => negb (dropped t rects k)) (map_keys (objects t))
    ++ fst (update_full t rects) /\
  map_keys (disappeared (update t rects)) =
    filter (fun k => negb (dropped t rects k)) (map_keys (disappeared t))
    ++ fst (update_full t rects).
Proof.
  intros Hwf. unfold update, update_full, dropped.
  destruct (length (objects t) =? 0)%nat eqn:E1.
  - apply Nat.eqb_eq, length_zero_iff_nil in E1.
    assert (E2 : disappeared t = []).
    { apply map_all_none. intros k. apply (wf_same _ Hwf). now rewrite E1. }
    destruct (register_all_appends (map centroid_of rects) t) as [A1 A2].
    { rewrite E1. intros k []. }
    { rewrite E2. intros k []. }
    rewrite A1, A2, register_all_ids, E1, E2. simpl. split.
    + unfold map_keys. apply combine_fst, id_range_length.
    + unfold map_keys. rewrite map_map. simpl. apply map_id.
  - destruct (length rects =? 0)%nat eqn:E2.
    + apply Nat.eqb_eq, length_zero_iff_nil in E2. subst rects.
      destruct (miss_all_keys (map_keys (disappeared t)) t) as [K1 K2];
        [apply Hwf | auto |].
      simpl. rewrite K1, K2, !app_nil_r. split; apply filter_ext_in; intros k Hk.
      * rewrite (dropped_no_matches t k _ (matches_of_no_rects t)).
        assert (G1 : mem_z k (map_keys (objects t)) = true) by now apply mem_z_In.
        assert (G2 : mem_z k (map_keys (disappeared t)) = true)
          by (apply mem_z_In, same_keys_In; [apply Hwf | exact Hk]).
        now rewrite G1, G2.
      * rewrite (dropped_no_matches t k _ (matches_of_no_rects t)).
        assert (G2 : mem_z k (map_keys (disappeared t)) = true) by now apply mem_z_In.
        assert (G1 : mem_z k (map_keys (objects t)) = true)
          by (apply mem_z_In, same_keys_In; [apply Hwf | exact Hk]).
        now rewrite G1, G2.
    + apply (apply_matches_keys t rects Hwf).
Qed.

(** ** The iteration order of the two maps *)

Lemma in_order_new (maxDisappeared maxDistance : Z) :
  in_order (new_tracker maxDisappeared maxDistance).
Proof. split; [reflexivity | constructor]. Qed.

Lemma in_order_update (t : CentroidTracker) (rects : list rect) :
  wf t -> in_order t -> in_order (update t rects).
Proof.
  intros Hwf [Heq Hs]. destruct (update_keys t rects Hwf) as [K1 K2].
  split.
  - rewrite K1, K2, Heq. reflexivity.
  - rewrite K1, (update_ids t rects Hwf). apply sorted_app.
    + now apply sorted_filter.
    + apply id_range_sorted.
    + intros x y Hx Hy. apply filter_In in Hx. destruct Hx as [Hx _].
      apply (wf_fresh _ Hwf) in Hx. apply id_range_In in Hy. lia.
Qed.

Lemma reachable_in_order (t : CentroidTracker) : reachable t -> in_order t.
Proof.
  induction 1 as [md mx | t rects Hr IH]; [apply in_order_new|].
  apply in_order_update; [now apply reachable_wf | exact IH].
Qed.

(** X1.  In every reachable state the two maps iterate over the same
    ids in the same order, that order is the ascending order of the
    ids, and every id in them was issued earlier: it is positive and
    below [nextObjectID]. *)
Theorem maps_iterate_in_id_order (t : CentroidTracker) :
  reachable t ->
  map_keys (objects t) = map_keys (disappeared t) /\
  StronglySorted Z.lt (map_keys (objects t)) /\
  Forall (fun k => 0 < k < nextObjectID t) (map_keys (objects t)).
Proof.
  intros Hr. destruct (reachable_in_order t Hr) as [H1 H2].
  split; [exact H1|]. split; [exact H2|].
  apply Forall_forall. intros k Hk. now apply (wf_fresh _ (reachable_wf _ Hr)).
Qed.

Lemma maps_iterate_in_id_order_witness :
  let t := update (update (new_tracker 0 10) [box_at 0 0; box_at 40 40])
             [box_at 90 90; box_at 41 40] in
  map_keys (objects t) = map_keys (disappeared t) /\
  StronglySorted Z.lt (map_keys (objects t)) /\
  Forall (fun k => 0 < k < nextObjectID t) (map_keys (objects t)).
Proof.
  intros t. apply (maps_iterate_in_id_order t).
  apply reach_update, reach_update, reach_new.
Defined.

(** ** How many objects [update] leaves *)




(** ** [update], whatever matches are committed

    What the loops after the matching loop do to the two maps depends
    on the matches only through their being over distinct rows and
    distinct columns, all in range.  The lemmas of [update] key by key
    are repeated here for any such choice of matches. *)

Section AnyMatcher.
Variable matcher : CentroidTracker -> list rect -> list (nat * nat).
Hypothesis Hvalid : forall t rects, valid_matches t rects (matcher t rects).

Lemma matcher_no_objects (t : CentroidTracker) (rects : list rect) :
  objects t = [] -> matcher t rects = [].
Proof.
  intros E. destruct (Hvalid t rects) as (_ & _ & H).
  destruct (matcher t rects) as [|[r c] M]; [reflexivity|].
  destruct (H r c) as [G _]; [now left|]. rewrite E in G. inversion G.
Qed.

Lemma matcher_no_rects (t : CentroidTracker) :
  matcher t [] = [].
Proof.
  destruct (Hvalid t []) as (_ & _ & H).
  destruct (matcher t []) as [|[r c] M]; [reflexivity|].
  destruct (H r c) as [_ G]; [now left|]. inversion G.
Qed.

Lemma update_with_general (t : CentroidTracker) (rects : list rect) :
  maps_ok t -> same_keys t ->
  fst (update_full_with matcher t rects) = fst (apply_matches t rects (matcher t rects)) /\
  same_view (update_with matcher t rects) (snd (apply_matches t rects (matcher t rects))).
Proof.
  intros [Ho Hd] Hs. unfold update_with, update_full_with.
  destruct (length (objects t) =? 0)%nat eqn:E1.
  - apply Nat.eqb_eq, length_zero_iff_nil in E1.
    rewrite (matcher_no_objects t rects E1), apply_matches_unfold.
    rewrite new_centroids_nil, unmatched_ids_nil, E1. simpl.
    split; [reflexivity | apply same_view_refl].
  - destruct (length rects =? 0)%nat eqn:E2.
    + apply Nat.eqb_eq, length_zero_iff_nil in E2. subst rects.
      rewrite matcher_no_rects, apply_matches_unfold.
      rewrite unmatched_ids_nil. simpl. split; [reflexivity|].
      apply miss_all_same_view; auto.
      intros k. symmetry. now apply same_keys_In.
    + split; [reflexivity | apply same_view_refl].
Qed.

Lemma update_with_same_keys (t : CentroidTracker) (rects : list rect) :
  maps_ok t -> same_keys t -> same_keys (update_with matcher t rects).
Proof.
  intros Hm Hs.
  destruct (update_with_general t rects Hm Hs) as [_ Hv].
  apply (same_view_same_keys _ _ Hv).
  apply apply_matches_same_keys; [apply Hm | apply Hvalid | exact Hs].
Qed.

Lemma update_with_maps_ok (t : CentroidTracker) (rects : list rect) :
  maps_ok t -> maps_ok (update_with matcher t rects).
Proof.
  intros H. unfold update_with, update_full_with.
  destruct (length (objects t) =? 0)%nat.
  - now apply register_all_maps_ok.
  - destruct (length rects =? 0)%nat.
    + now apply miss_all_maps_ok.
    + rewrite apply_matches_unfold.
      now apply register_all_maps_ok, miss_all_maps_ok, rematch_all_maps_ok.
Qed.

Section UpdateKeysWith.
Variables (t : CentroidTracker) (rects : list rect).
Hypothesis Hwf : wf t.

Lemma update_with_fields :
  nextObjectID (update_with matcher t rects) =
    nextObjectID t + Z.of_nat (length (new_centroids rects (matcher t rects))) /\
  maxDisappeared (update_with matcher t rects) = maxDisappeared t /\
  maxDistance (update_with matcher t rects) = maxDistance t.
Proof.
  destruct (update_with_general t rects (wf_maps _ Hwf) (wf_same _ Hwf))
    as (_ & V1 & V2 & V3 & _).
  rewrite V1, V2, V3. apply am_fields.
Qed.

Lemma update_with_ids :
  fst (update_full_with matcher t rects) =
  id_range (nextObjectID t) (length (new_centroids rects (matcher t rects))).
Proof.
  destruct (update_with_general t rects (wf_maps _ Hwf) (wf_same _ Hwf))
    as (-> & _).
  apply am_ids.
Qed.

Lemma update_with_new (i : nat) :
  (i < (length (new_centroids rects (matcher t rects))))%nat ->
  map_get (nextObjectID t + Z.of_nat i) (objects (update_with matcher t rects)) =
    nth_error (new_centroids rects (matcher t rects)) i /\
  map_get (nextObjectID t + Z.of_nat i) (disappeared (update_with matcher t rects)) = Some (Num 0).
Proof.
  intros Hi.
  destruct (update_with_general t rects (wf_maps _ Hwf) (wf_same _ Hwf))
    as (_ & _ & _ & _ & V).
  destruct (V (nextObjectID t + Z.of_nat i)) as [-> ->]. now apply am_new.
Qed.

Lemma update_with_matched (k : Z) (c : centroid) :
  In (k, c) (pairs_of t rects (matcher t rects)) ->
  map_get k (objects (update_with matcher t rects)) = Some c /\
  map_get k (disappeared (update_with matcher t rects)) = Some (Num 0).
Proof.
  intros Hin.
  destruct (update_with_general t rects (wf_maps _ Hwf) (wf_same _ Hwf))
    as (_ & _ & _ & _ & V).
  destruct (V k) as [-> ->].
  pose proof (Hvalid t rects) as HM.
  pose proof (proj1 (wf_maps _ Hwf)) as Hids.
  assert (Hk : k < nextObjectID t).
  { apply (wf_fresh _ Hwf). apply (pairs_in_keys t rects (matcher t rects) HM).
    change k with (fst (k, c)). now apply in_map. }
  destruct (am_outside t rects (matcher t rects) k) as [-> ->]; [now left|].
  now apply mid_matched.
Qed.

Lemma update_with_unmatched (k : Z) :
  In k (unmatched_ids t (matcher t rects)) ->
  let c' := count_incr (map_get k (disappeared t)) in
  map_get k (objects (update_with matcher t rects)) =
    (if count_gt (Some c') (maxDisappeared t) then None else map_get k (objects t)) /\
  map_get k (disappeared (update_with matcher t rects)) =
    (if count_gt (Some c') (maxDisappeared t) then None else Some c').
Proof.
  intros Hin.
  destruct (update_with_general t rects (wf_maps _ Hwf) (wf_same _ Hwf))
    as (_ & _ & _ & _ & V).
  destruct (V k) as [-> ->].
  pose proof (Hvalid t rects) as HM.
  pose proof (proj1 (wf_maps _ Hwf)) as Hids.
  assert (Hk : k < nextObjectID t).
  { apply (wf_fresh _ Hwf). now apply (unmatched_in_keys t (matcher t rects)). }
  destruct (am_outside t rects (matcher t rects) k) as [-> ->]; [now left|].
  now apply mid_unmatched.
Qed.

Lemma update_with_dead (k : Z) :
  ~ In k (map_keys (objects t)) ->
  k < nextObjectID t \/
  nextObjectID t + Z.of_nat (length (new_centroids rects (matcher t rects))) <= k ->
  map_get k (objects (update_with matcher t rects)) = None /\
  map_get k (disappeared (update_with matcher t rects)) = None.
Proof.
  intros Hk Hout.
  destruct (update_with_general t rects (wf_maps _ Hwf) (wf_same _ Hwf))
    as (_ & _ & _ & _ & V).
  destruct (V k) as [-> ->].
  pose proof (Hvalid t rects) as HM.
  destruct (am_outside t rects (matcher t rects) k Hout) as [-> ->].
  destruct (mid_dead t rects (matcher t rects) HM k Hk) as [-> ->].
  apply map_get_None in Hk. split; [exact Hk|].
  now apply (wf_same _ Hwf).
Qed.

Lemma update_with_classes (k : Z) :
  (exists i, (i < length (new_centroids rects (matcher t rects)))%nat /\
             k = nextObjectID t + Z.of_nat i) \/
  (exists c, In (k, c) (pairs_of t rects (matcher t rects))) \/
  In k (unmatched_ids t (matcher t rects)) \/
  (~ In k (map_keys (objects t)) /\
   (k < nextObjectID t \/
    nextObjectID t + Z.of_nat (length (new_centroids rects (matcher t rects))) <= k)).
Proof.
  destruct (in_dec Z.eq_dec k (map_keys (objects t))) as [i|no].
  - destruct (keys_matched_or_not t rects (matcher t rects) k i) as [H|H]; [|auto].
    right; left. apply in_map_iff in H. destruct H as ([k' c] & E & H).
    simpl in E; subst. eauto.
  - destruct (Z_lt_dec k (nextObjectID t)) as [L|G]; [tauto|].
    destruct (Z_le_dec (nextObjectID t
                        + Z.of_nat (length (new_centroids rects (matcher t rects)))) k)
      as [L'|G']; [tauto|].
    left. exists (Z.to_nat (k - (nextObjectID t))). split; lia.
Qed.

End UpdateKeysWith.

Lemma wf_update_with (t : CentroidTracker) (rects : list rect) :
  wf t -> wf (update_with matcher t rects).
Proof.
  intros Hwf.
  destruct (update_with_fields t rects Hwf) as (Hn & _ & _).
  constructor.
  - apply update_with_maps_ok, Hwf.
  - apply update_with_same_keys; apply Hwf.
  - rewrite Hn. pose proof (wf_next _ Hwf). lia.
  - intros k Hk. rewrite Hn. apply map_get_live in Hk. destruct Hk as [v Hv].
    destruct (update_with_classes t rects k) as [(i & Hi & ->) | [(c & Hc) | [Hu | [Hd Ho]]]].
    + pose proof (wf_next _ Hwf). lia.
    + assert (G : 0 < k < nextObjectID t).
      { apply (wf_fresh _ Hwf).
        apply (pairs_in_keys t rects _ (Hvalid t rects)).
        change k with (fst (k, c)). now apply in_map. }
      lia.
    + assert (G : 0 < k < nextObjectID t).
      { apply (wf_fresh _ Hwf). exact (unmatched_in_keys t _ k Hu). }
      lia.
    + destruct (update_with_dead t rects Hwf k Hd Ho) as [E _]. congruence.
  - intros k c Hk.
    destruct (update_with_classes t rects k) as [(i & Hi & ->) | [(c0 & Hc) | [Hu | [Hd Ho]]]].
    + destruct (update_with_new t rects Hwf i Hi) as [_ E]. rewrite E in Hk.
      injection Hk as <-. exists 0. split; [reflexivity | lia].
    + destruct (update_with_matched t rects Hwf k c0 Hc) as [_ E]. rewrite E in Hk.
      injection Hk as <-. exists 0. split; [reflexivity | lia].
    + destruct (update_with_unmatched t rects Hwf k Hu) as [_ E]. rewrite E in Hk.
      destruct (count_gt _ _); [discriminate|]. injection Hk as <-.
      assert (Hl : In k (map_keys (disappeared t))).
      { apply same_keys_In; [apply Hwf|]. exact (unmatched_in_keys t _ k Hu). }
      apply map_get_live in Hl. destruct Hl as [c1 Hc1].
      destruct (wf_count _ Hwf _ _ Hc1) as (m & -> & Hm).
      rewrite Hc1. simpl. exists (m + 1). split; [reflexivity | lia].
    + destruct (update_with_dead t rects Hwf k Hd Ho) as [_ E]. congruence.
Qed.

Lemma apply_matcher_keys (t : CentroidTracker) (rects : list rect) :
  wf t ->
  let M := matcher t rects in
  let keep := fun k => negb (mem_z k (unmatched_ids t M) && ages_out t k) in
  let t' := snd (apply_matches t rects M) in
  map_keys (objects t') =
    filter keep (map_keys (objects t)) ++ fst (apply_matches t rects M) /\
  map_keys (disappeared t') =
    filter keep (map_keys (disappeared t)) ++ fst (apply_matches t rects M).
Proof.
  intros Hwf M keep t'. unfold t'.
  pose proof (Hvalid t rects) as HM. fold M in HM.
  pose proof (proj1 (wf_maps _ Hwf)) as Hids.
  rewrite apply_matches_unfold, register_all_ids.
  set (t1 := rematch_all (pairs_of t rects M) t).
  set (t2 := miss_all (unmatched_ids t M) t1).
  destruct (rematch_all_keys (pairs_of t rects M) t) as [K1o K1d].
  { intros p Hp. apply (pairs_in_keys t rects M HM). now apply in_map. }
  { intros p Hp. apply same_keys_In; [apply Hwf|].
    apply (pairs_in_keys t rects M HM). now apply in_map. }
  fold t1 in K1o, K1d.
  destruct (miss_all_keys (unmatched_ids t M) t1) as [K2o K2d].
  { now apply unmatched_ids_nodup. }
  { intros a Ha. rewrite K1d. apply same_keys_In; [apply Hwf|].
    now apply (unmatched_in_keys t M). }
  fold t2 in K2o, K2d. rewrite K1o in K2o. rewrite K1d in K2d.
  assert (Hkeep : forall k,
            negb (mem_z k (unmatched_ids t M) && ages_out t1 k) = keep k).
  { intros k. unfold keep. destruct (mem_z k (unmatched_ids t M)) eqn:E;
      [|reflexivity].
    apply mem_z_In in E. simpl. f_equal. unfold t1.
    apply ages_out_rematch_all. intros G.
    exact (matched_not_unmatched t rects M Hids HM k G E). }
  rewrite (filter_ext _ _ Hkeep) in K2o, K2d.
  assert (Hn : nextObjectID t2 = nextObjectID t).
  { unfold t2, t1.
    destruct (miss_all_fields (unmatched_ids t M) (rematch_all (pairs_of t rects M) t))
      as (-> & _).
    now destruct (rematch_all_fields (pairs_of t rects M) t) as (-> & _). }
  destruct (register_all_appends (new_centroids rects M) t2) as [A1 A2].
  { intros k Hk. rewrite K2o in Hk. apply filter_In in Hk. destruct Hk as [Hk _].
    rewrite Hn. apply (wf_fresh _ Hwf) in Hk. lia. }
  { intros k Hk. rewrite K2d in Hk. apply filter_In in Hk. destruct Hk as [Hk _].
    rewrite Hn. apply (wf_fresh_disappeared _ _ Hwf) in Hk. lia. }
  rewrite A1, A2, !keys_app, K2o, K2d, Hn. split; f_equal.
  - unfold map_keys. apply combine_fst, id_range_length.
  - unfold map_keys. rewrite map_map. simpl. apply map_id.
Qed.

Lemma update_with_keys (t : CentroidTracker) (rects : list rect) :
  wf t ->
  map_keys (objects (update_with matcher t rects)) =
    filter (fun k => negb (dropped_with matcher t rects k)) (map_keys (objects t))
    ++ fst (update_full_with matcher t rects) /\
  map_keys (disappeared (update_with matcher t rects)) =
    filter (fun k => negb (dropped_with matcher t rects k)) (map_keys (disappeared t))
    ++ fst (update_full_with matcher t rects).
Proof.
  intros Hwf. unfold update_with, update_full_with, dropped_with.
  destruct (length (objects t) =? 0)%nat eqn:E1.
  - apply Nat.eqb_eq, length_zero_iff_nil in E1.
    assert (E2 : disappeared t = []).
    { apply map_all_none. intros k. apply (wf_same _ Hwf). now rewrite E1. }
    destruct (register_all_appends (map centroid_of rects) t) as [A1 A2].
    { rewrite E1. intros k []. }
    { rewrite E2. intros k []. }
    rewrite A1, A2, register_all_ids, E1, E2. simpl. split.
    + unfold map_keys. apply combine_fst, id_range_length.
    + unfold map_keys. rewrite map_map. simpl. apply map_id.
  - destruct (length rects =? 0)%nat eqn:E2.
    + apply Nat.eqb_eq, length_zero_iff_nil in E2. subst rects.
      destruct (miss_all_keys (map_keys (disappeared t)) t) as [K1 K2];
        [apply Hwf | auto |].
      simpl. rewrite K1, K2, !app_nil_r. split; apply filter_ext_in; intros k Hk.
      * rewrite (dropped_no_matches t k _ (matcher_no_rects t)).
        assert (G1 : mem_z k (map_keys (objects t)) = true) by now apply mem_z_In.
        assert (G2 : mem_z k (map_keys (disappeared t)) = true)
          by (apply mem_z_In, same_keys_In; [apply Hwf | exact Hk]).
        now rewrite G1, G2.
      * rewrite (dropped_no_matches t k _ (matcher_no_rects t)).
        assert (G2 : mem_z k (map_keys (disappeared t)) = true) by now apply mem_z_In.
        assert (G1 : mem_z k (map_keys (objects t)) = true)
          by (apply mem_z_In, same_keys_In; [apply Hwf | exact Hk]).
        now rewrite G1, G2.
    + apply (apply_matcher_keys t rects Hwf).
Qed.

Lemma in_order_update_with (t : CentroidTracker) (rects : list rect) :
  wf t -> in_order t -> in_order (update_with matcher t rects).
Proof.
  intros Hwf [Heq Hs]. destruct (update_with_keys t rects Hwf) as [K1 K2].
  split.
  - rewrite K1, K2, Heq. reflexivity.
  - rewrite K1, (update_with_ids t rects Hwf). apply sorted_app.
    + now apply sorted_filter.
    + apply id_range_sorted.
    + intros x y Hx Hy. apply filter_In in Hx. destruct Hx as [Hx _].
      apply (wf_fresh _ Hwf) in Hx. apply id_range_In in Hy. lia.
Qed.

End AnyMatcher.

Lemma update_full_f64_with (t : CentroidTracker) (rects : list rect) :
  update_full_f64 t rects = update_full_with matches_f64 t rects.
Proof. reflexivity. Qed.

Lemma update_full_exact_with (t : CentroidTracker) (rects : list rect) :
  update_full t rects = update_full_with matches_of t rects.
Proof. reflexivity. Qed.

Lemma wf_update_f64 (t : CentroidTracker) (rects : list rect) :
  wf t -> wf (update_f64 t rects).
Proof. apply (wf_update_with matches_f64 matches_f64_valid). Qed.

Lemma in_order_update_f64 (t : CentroidTracker) (rects : list rect) :
  wf t -> in_order t -> in_order (update_f64 t rects).
Proof. apply (in_order_update_with matches_f64 matches_f64_valid). Qed.

Lemma matches_count (t : CentroidTracker) (rects : list rect) (M : list (nat * nat)) :
  valid_matches t rects M ->
  (length (new_centroids rects M) + length M = length rects)%nat.
Proof.
  intros HM. unfold new_centroids. rewrite length_map.
  pose proof (Permutation_length (cols_partition t rects M HM)) as H.
  rewrite length_app, length_map, length_seq in H. lia.
Qed.

(** ** The state after [update] on doubles *)

(** X25.  [update] with its matching loop run on doubles keeps the
    state as the other methods expect it: from a well-formed state
    whose ids are in ascending order it leaves a well-formed state
    whose two maps list the same ids in ascending order, namely the
    objects it keeps, in their old order, followed by the ids it
    issues, which are [nextObjectID] onwards, one for each box that no
    match takes. *)
Theorem update_f64_keeps_invariants (t : CentroidTracker) (rects : list rect) :
  wf t -> in_order t ->
  let issued := fst (update_full_f64 t rects) in
  let kept := filter (fun k => negb (dropped_with matches_f64 t rects k))
                (map_keys (objects t)) in
  wf (update_f64 t rects) /\
  in_order (update_f64 t rects) /\
  map_keys (objects (update_f64 t rects)) = kept ++ issued /\
  map_keys (disappeared (update_f64 t rects)) = kept ++ issued /\
  issued = id_range (nextObjectID t) (length rects - length (matches_f64 t rects)).
Proof.
  intros Hwf Ho issued kept.
  destruct (update_with_keys matches_f64 matches_f64_valid t rects Hwf) as [K1 K2].
  change (update_with matches_f64 t rects) with (update_f64 t rects) in K1, K2.
  change (update_full_with matches_f64 t rects) with (update_full_f64 t rects)
    in K1, K2.
  split; [now apply wf_update_f64|]. split; [now apply in_order_update_f64|].
  split; [exact K1|]. split.
  - rewrite K2. destruct Ho as [<- _]. reflexivity.
  - unfold issued. rewrite update_full_f64_with.
    rewrite (update_with_ids matches_f64 matches_f64_valid t rects Hwf). f_equal.
    pose proof (matches_count t rects _ (matches_f64_valid t rects)). lia.
Qed.

Lemma update_f64_keeps_invariants_witness :
  let t := update_f64 (new_tracker 40 80) [box_at 2 9; box_at 6 7] in
  wf (update_f64 t [box_at 0 0]) /\
  map_keys (objects (update_f64 t [box_at 0 0])) = [1; 2].
Proof.
  intros t.
  destruct (update_f64_keeps_invariants t [box_at 0 0]) as (H1 & _ & H3 & _).
  - apply wf_update_f64, wf_new.
  - apply in_order_update_f64; [apply wf_new | apply in_order_new].
  - split; [exact H1 | vm_compute; reflexivity].
Defined.

(** ** Distance gating on doubles *)

(** X26.  In a well-formed state the threshold gates the matches on the
    distances as computed.  A match is committed only between an object
    and a box whose computed distance is not above [maxDistance], and
    the object then sits at the centroid of that box with its count
    back at 0.  A box whose computed distance to every live object is
    above [maxDistance] is in no match: it is registered under an id
    from [nextObjectID] on, at its own centroid and with count 0. *)
Theorem gating_on_doubles (t : CentroidTracker) (rects : list rect) :
  wf t ->
  (forall r c, In (r, c) (matches_f64 t rects) ->
     exists p b,
       In (nth r (map_keys (objects t)) 0, p) (objects t) /\
       nth_error rects c = Some b /\
       (number (maxDistance t) <? distance p (centroid_of b))%float = false /\
       map_get (nth r (map_keys (objects t)) 0) (objects (update_f64 t rects))
         = Some (centroid_of b) /\
       map_get (nth r (map_keys (objects t)) 0) (disappeared (update_f64 t rects))
         = Some (Num 0)) /\
  (forall c b,
     nth_error rects c = Some b ->
     (forall id p, In (id, p) (objects t) ->
        (number (maxDistance t) <? distance p (centroid_of b))%float = true) ->
     (forall r, ~ In (r, c) (matches_f64 t rects)) /\
     exists id,
       nextObjectID t <= id < nextObjectID (update_f64 t rects) /\
       map_get id (objects t) = None /\
       map_get id (objects (update_f64 t rects)) = Some (centroid_of b) /\
       map_get id (disappeared (update_f64 t rects)) = Some (Num 0)).
Proof.
  intros Hwf. split.
  - intros r c Hin.
    destruct (matches_f64_within t rects r c Hin) as (p & q & Hp & Hq & _ & Hx).
    rewrite nth_error_map in Hq.
    destruct (nth_error rects c) as [b|] eqn:Eb; [|discriminate].
    injection Hq as <-. exists p, b.
    split; [now apply row_entry|]. split; [reflexivity|]. split; [exact Hx|].
    change (update_f64 t rects) with (update_with matches_f64 t rects).
    apply (update_with_matched matches_f64 matches_f64_valid t rects Hwf).
    unfold pairs_of. apply in_map_iff. exists (r, c). split; [|exact Hin].
    simpl. f_equal. apply nth_error_nth. now rewrite nth_error_map, Eb.
  - intros c b Hb Hfar.
    assert (Hno : forall r, ~ In (r, c) (matches_f64 t rects)).
    { intros r Hin.
      destruct (matches_f64_within t rects r c Hin) as (p & q & Hp & Hq & _ & Hx).
      rewrite nth_error_map, Hb in Hq. injection Hq as <-.
      rewrite (Hfar _ _ (row_entry _ _ _ Hp)) in Hx. discriminate. }
    split; [exact Hno|].
    assert (Hu : In c (unmatched_cols rects (matches_f64 t rects))).
    { apply unmatched_cols_spec. split.
      - apply nth_error_Some. congruence.
      - intros Hin. apply in_map_iff in Hin.
        destruct Hin as ([r c'] & E & Hin). simpl in E; subst c'.
        exact (Hno r Hin). }
    apply In_nth_error in Hu. destruct Hu as [i Hi].
    assert (Hlt : (i < length (new_centroids rects (matches_f64 t rects)))%nat).
    { unfold new_centroids. rewrite length_map. apply nth_error_Some. congruence. }
    destruct (update_with_new matches_f64 matches_f64_valid t rects Hwf i Hlt)
      as [E1 E2].
    destruct (update_with_fields matches_f64 matches_f64_valid t rects Hwf)
      as (En & _).
    change (update_f64 t rects) with (update_with matches_f64 t rects).
    exists (nextObjectID t + Z.of_nat i). split; [|split; [|split]].
    + rewrite En. lia.
    + apply map_get_None. intros Hk. apply (wf_fresh _ Hwf) in Hk. lia.
    + rewrite E1. unfold new_centroids. rewrite nth_error_map, Hi. simpl.
      f_equal. apply nth_error_nth. rewrite nth_error_map, Hb. reflexivity.
    + exact E2.
Qed.

Lemma gating_on_doubles_witness :
  let t := update_f64 (new_tracker 5 125) [box_at 0 0] in
  (forall r, ~ In (r, 0%nat) (matches_f64 t [box_at 35 120])) /\
  exists id,
    nextObjectID t <= id < nextObjectID (update_f64 t [box_at 35 120]) /\
    map_get id (objects t) = None /\
    map_get id (objects (update_f64 t [box_at 35 120])) = Some (centroid_of (box_at 35 120)) /\
    map_get id (disappeared (update_f64 t [box_at 35 120])) = Some (Num 0).
Proof.
  intros t.
  destruct (gating_on_doubles t [box_at 35 120]) as [_ H].
  - apply wf_update_f64, wf_new.
  - apply (H 0%nat (box_at 35 120)); [reflexivity|].
    intros id p [E|[]]. injection E as <- <-. vm_compute. reflexivity.
Defined.

(** ** Which id [tick] attaches *)

Lemma sorted_after (l1 l2 : list (Z * centroid)) (id id' : Z) (p p' : centroid) :
  StronglySorted Z.lt (map_keys (l1 ++ (id, p) :: l2)) ->
  In (id', p') l2 -> id < id'.
Proof.
  intros Hs Hin. rewrite keys_app in Hs. simpl in Hs.
  apply sorted_split in Hs. destruct Hs as [_ Hs].
  rewrite Forall_forall in Hs. apply Hs.
  change id' with (fst (id', p')). now apply in_map.
Qed.

(** X3.  In a reachable state, the id [tick] attaches to a detection
    is never [null]: it is the id of a live object whose centroid is
    exactly the detection's centroid, and the lowest id among the live
    objects at that centroid. *)
Theorem tick_id_sits_on_detection (t : CentroidTracker) (rects : list rect)
  (i : nat) (r : rect) :
  reachable t ->
  nth_error rects i = Some r ->
  exists id,
    nth_error (tick_ids t rects) i = Some (Some id) /\
    map_get id (objects (update t rects)) = Some (centroid_of r) /\
    forall id', map_get id' (objects (update t rects)) = Some (centroid_of r) ->
                id <= id'.
Proof.
  intros Hr Hi. pose proof (reachable_wf _ Hr) as Hwf.
  pose proof (wf_update t rects Hwf) as Hwf'.
  destruct (reachable_in_order _ (reach_update t rects Hr)) as [_ Hs].
  assert (Hown : exists id0, map_get id0 (objects (update t rects)) =
                             Some (centroid_of r)).
  { assert (Hc : In (centroid_of r) (map snd (owners t rects))).
    { apply (Permutation_in _ (Permutation_sym (owners_centroids t rects))).
      apply in_map. eapply nth_error_In; eauto. }
    apply in_map_iff in Hc. destruct Hc as ([id0 c] & E & Hin). simpl in E. subst c.
    exists id0. now destruct (owners_live t rects id0 _ Hwf Hin). }
  destruct Hown as [id0 Hid0].
  unfold tick_ids. rewrite nth_error_map, Hi. simpl. unfold track_id.
  destruct (centroid_of r) as [cx cy] eqn:Ec.
  pose proof (nearest_spec (objects (update t rects)) cx cy) as H.
  destruct (nearest _ cx cy) as [[d id]|].
  - destruct H as (p & before & after & E & _ & H1 & H2).
    assert (Hz : forall id' , map_get id' (objects (update t rects)) = Some (cx, cy) ->
                 ~ In (id', (cx, cy)) before).
    { intros id' _ Hin. specialize (H1 _ _ Hin).
      pose proof (dist2_nonneg p (cx, cy)).
      rewrite (proj2 (dist2_zero (cx, cy) (cx, cy)) eq_refl) in H1. lia. }
    assert (Hp : p = (cx, cy)).
    { apply map_get_In in Hid0 as Hin0. rewrite E in Hin0.
      apply in_app_or in Hin0. destruct Hin0 as [Hin0|[Hin0|Hin0]].
      - exfalso. exact (Hz id0 Hid0 Hin0).
      - congruence.
      - specialize (H2 _ _ Hin0).
        rewrite (proj2 (dist2_zero (cx, cy) (cx, cy)) eq_refl) in H2.
        pose proof (dist2_nonneg p (cx, cy)).
        apply dist2_zero. lia. }
    subst p. exists id. simpl. split; [reflexivity|]. split.
    + apply map_In_get; [apply Hwf'|]. rewrite E. apply in_elt.
    + intros id' Hid'. apply map_get_In in Hid' as Hin'. rewrite E in Hin'.
      apply in_app_or in Hin'. destruct Hin' as [Hin'|[Hin'|Hin']].
      * exfalso. exact (Hz id' Hid' Hin').
      * injection Hin' as ->. lia.
      * rewrite E in Hs. pose proof (sorted_after _ _ _ _ _ _ Hs Hin'). lia.
  - rewrite H in Hid0. discriminate.
Qed.

Lemma tick_id_sits_on_detection_witness :
  let t := update (new_tracker 5 10) [box_at 0 0; box_at 0 0] in
  exists id,
    nth_error (tick_ids t [box_at 1 1]) 0 = Some (Some id) /\
    map_get id (objects (update t [box_at 1 1])) = Some (centroid_of (box_at 1 1)) /\
    forall id', map_get id' (objects (update t [box_at 1 1])) =
                Some (centroid_of (box_at 1 1)) -> id <= id'.
Proof.
  intros t. apply (tick_id_sits_on_detection t [box_at 1 1] 0 (box_at 1 1)).
  - apply reach_update, reach_new.
  - reflexivity.
Defined.

(** ** What the matching loop leaves unmatched *)

(** X4.  The matching of [update] is maximal: when the loop is done, an
    object left without a match and a detection left without a match
    are never a pair it could still commit.  Their computed distance,
    if it is a number below [Infinity] at all, is above [maxDistance].
    So a detection is registered as a new object only if every object
    that misses the frame is out of its range. *)
Theorem unmatched_pairs_are_far (t : CentroidTracker) (rects : list rect)
  (r c : nat) (p : centroid) (b : rect) :
  nth_error (map_values (objects t)) r = Some p ->
  nth_error rects c = Some b ->
  ~ In r (map fst (matches_f64 t rects)) ->
  ~ In c (map snd (matches_f64 t rects)) ->
  (distance p (centroid_of b) <? PrimFloat.infinity)%float = true ->
  (number (maxDistance t) <? distance p (centroid_of b))%float = true.
Proof.
  intros Hp Hb Hr Hc Hf.
  apply (greedy_spec_maximal_f64 _ _ _ _ _ (matches_f64_spec t rects) r c);
    auto.
  apply cell_matrix_f64. exists p, (centroid_of b). repeat split; auto.
  now rewrite nth_error_map, Hb.
Qed.

Lemma unmatched_pairs_are_far_witness :
  let t := update_f64 (new_tracker 5 125) [box_at 0 0] in
  matches_f64 t [box_at 35 120] = [] /\
  (number (maxDistance t) <? distance (0, 0) (centroid_of (box_at 35 120)))%float = true.
Proof.
  intros t. split; [vm_compute; reflexivity|].
  apply (unmatched_pairs_are_far t [box_at 35 120] 0 0 (0, 0) (box_at 35 120));
    try (vm_compute; reflexivity); vm_compute; intuition discriminate.
Defined.

(** ** How far a track can move in one frame *)

(** X5.  In a reachable state, one call of [update] either leaves a
    live object's centroid as it was or moves it to the centroid of a
    box of the frame that is not farther than [maxDistance] from where
    the object was: a track never jumps by more than [maxDistance]. *)
Theorem track_moves_within_range (t : CentroidTracker) (rects : list rect)
  (id : Z) (p p' : centroid) :
  reachable t ->
  map_get id (objects t) = Some p ->
  map_get id (objects (update t rects)) = Some p' ->
  p' = p \/
  (exceeds (dist2 p p') (maxDistance t) = false /\
   exists b, In b rects /\ p' = centroid_of b).
Proof.
  intros Hr Hp Hp'. pose proof (reachable_wf _ Hr) as Hwf.
  assert (Hk : In id (map_keys (objects t))) by (apply map_get_live; eauto).
  destruct (keys_matched_or_not t rects (matches_of t rects) id Hk) as [Hm|Hu].
  - right. unfold pairs_of in Hm. rewrite map_map in Hm. apply in_map_iff in Hm.
    destruct Hm as ([r c] & E & Hin). simpl in E.
    destruct (matched_pair_close t rects r c Hin) as (p0 & b & He & Hb & Hx).
    rewrite E in He. apply map_In_get in He; [|apply Hwf].
    assert (p0 = p) by congruence. subst p0.
    destruct (update_matched t rects Hwf id (centroid_of b)) as [E1 _].
    { unfold pairs_of. apply in_map_iff. exists (r, c). split; [|exact Hin].
      simpl. rewrite E. f_equal. apply nth_error_nth.
      now rewrite nth_error_map, Hb. }
    assert (p' = centroid_of b) by congruence. subst p'.
    split; [exact Hx|]. exists b. split; [|reflexivity].
    eapply nth_error_In; eauto.
  - left. destruct (update_unmatched t rects Hwf id Hu) as [E _].
    rewrite E in Hp'. destruct (count_gt _ _); congruence.
Qed.

Lemma track_moves_within_range_witness :
  let t := update (new_tracker 5 10) [box_at 0 0] in
  (3, 4) = (0, 0) \/
  (exceeds (dist2 (0, 0) (3, 4)) (maxDistance t) = false /\
   exists b, In b [box_at 3 4] /\ (3, 4) = centroid_of b).
Proof.
  intros t.
  apply (track_moves_within_range t [box_at 3 4] 1 (0, 0) (3, 4)).
  - apply reach_update, reach_new.
  - reflexivity.
  - reflexivity.
Defined.

(** ** A frame that finds nothing tracked *)

(** X6.  In a reachable state with no live object, [update] registers
    the boxes of the frame in input order under the ids
    [nextObjectID], [nextObjectID + 1], ...: the returned map is
    exactly that list of ids paired with the rounded centroids, every
    counter is 0, and the id counter has advanced by the number of
    boxes. *)
Theorem empty_tracker_registers_frame (t : CentroidTracker) (rects : list rect) :
  reachable t ->
  objects t = [] ->
  let ids := id_range (nextObjectID t) (length rects) in
  fst (update_full t rects) = ids /\
  objects (update t rects) = combine ids (map centroid_of rects) /\
  disappeared (update t rects) = map (fun id => (id, Num 0)) ids /\
  nextObjectID (update t rects) = nextObjectID t + Z.of_nat (length rects).
Proof.
  intros Hr E ids. pose proof (reachable_wf _ Hr) as Hwf.
  assert (E2 : disappeared t = []).
  { apply map_all_none. intros k. apply (wf_same _ Hwf). now rewrite E. }
  assert (Eu : update_full t rects = register_all (map centroid_of rects) t)
    by (unfold update_full; now rewrite E).
  unfold update. rewrite Eu.
  destruct (register_all_appends (map centroid_of rects) t) as [A1 A2].
  { rewrite E. intros k []. }
  { rewrite E2. intros k []. }
  destruct (register_all_fields (map centroid_of rects) t) as (Hn & _).
  rewrite register_all_ids, A1, A2, Hn, E, E2, !length_map. auto.
Qed.

Lemma empty_tracker_registers_frame_witness :
  let t := update (update (new_tracker 0 10) [box_at 5 5]) [] in
  objects (update t [box_at 1 2; box_at 3 4]) =
  combine (id_range (nextObjectID t) 2) (map centroid_of [box_at 1 2; box_at 3 4]).
Proof.
  intros t.
  apply (empty_tracker_registers_frame t [box_at 1 2; box_at 3 4]).
  - apply reach_update, reach_update, reach_new.
  - reflexivity.
Defined.

(** ** Frames without boxes *)

Lemma reachable_run (t : CentroidTracker) (frames : list (list rect)) :
  reachable t -> reachable (run t frames).
Proof.
  revert t. induction frames as [|f frames IH]; intros t Hr; [exact Hr|].
  rewrite run_cons. apply IH. now apply reach_update.
Qed.

Lemma reachable_counts_bounded (t : CentroidTracker) :
  reachable t -> 0 <= maxDisappeared t -> counts_bounded t.
Proof.
  intros Hr Hmd. destruct Hr as [md mx | t0 rects0 Hr0].
  - intros k c H. discriminate.
  - pose proof (reachable_wf _ Hr0) as Hwf0.
    destruct (update_fields t0 rects0 Hwf0) as (_ & E & _).
    apply counts_bounded_update; [exact Hwf0 | now rewrite <- E].
Qed.

Lemma run_fields (t : CentroidTracker) (frames : list (list rect)) :
  wf t ->
  maxDisappeared (run t frames) = maxDisappeared t /\
  maxDistance (run t frames) = maxDistance t /\
  nextObjectID t <= nextObjectID (run t frames).
Proof.
  revert t. induction frames as [|f frames IH]; intros t Hwf.
  - unfold run; simpl. repeat split; lia.
  - rewrite run_cons.
    destruct (IH (update t f) (wf_update t f Hwf)) as (H1 & H2 & H3).
    destruct (update_fields t f Hwf) as (G1 & G2 & G3).
    rewrite H1, H2, G2, G3. repeat split; lia.
Qed.

Lemma empty_frame_issues_nothing (t : CentroidTracker) :
  wf t ->
  fst (update_full t []) = [] /\ nextObjectID (update t []) = nextObjectID t.
Proof.
  intros Hwf. rewrite (update_ids t [] Hwf).
  destruct (update_fields t [] Hwf) as (-> & _). simpl. split; [reflexivity | lia].
Qed.

Lemma empty_frame_counts (t : CentroidTracker) (k : Z) (c : count) :
  wf t ->
  map_get k (disappeared (update t [])) = Some c ->
  exists n, map_get k (disappeared t) = Some (Num n) /\ c = Num (n + 1).
Proof.
  intros Hwf Hk.
  destruct (update_classes t [] k) as [(i & Hi & _) | [(c0 & Hc) | [Hu | [Hd Ho]]]].
  - simpl in Hi. lia.
  - rewrite matches_of_no_rects in Hc. inversion Hc.
  - destruct (update_unmatched t [] Hwf k Hu) as [_ E]. rewrite E in Hk.
    assert (Hl : In k (map_keys (disappeared t))).
    { apply same_keys_In; [apply Hwf|]. exact (unmatched_in_keys t _ k Hu). }
    apply map_get_live in Hl. destruct Hl as [c1 Hc1].
    destruct (wf_count _ Hwf _ _ Hc1) as (m & -> & Hm).
    rewrite Hc1 in Hk |- *. simpl in Hk.
    destruct (maxDisappeared t <? m + 1); [discriminate|].
    injection Hk as <-. eauto.
  - destruct (update_dead t [] Hwf k Hd Ho) as [_ E]. congruence.
Qed.

Lemma empty_frames_floor (n : nat) (t : CentroidTracker) (j : Z) :
  wf t ->
  (forall k c, map_get k (disappeared t) = Some (Num c) -> j <= c) ->
  (forall k c, map_get k (disappeared (run t (repeat [] n))) = Some (Num c) ->
               j + Z.of_nat n <= c) /\
  nextObjectID (run t (repeat [] n)) = nextObjectID t.
Proof.
  revert t j. induction n as [|n IH]; intros t j Hwf Hj.
  - unfold run; simpl. split; [|reflexivity]. intros k c H. specialize (Hj k c H). lia.
  - simpl repeat. rewrite run_cons.
    destruct (IH (update t []) (j + 1) (wf_update t [] Hwf)) as [H1 H2].
    + intros k c Hk. destruct (empty_frame_counts t k _ Hwf Hk) as (m & Hm & E).
      injection E as ->. specialize (Hj k m Hm). lia.
    + split.
      * intros k c Hk. specialize (H1 k c Hk). lia.
      * rewrite H2. now destruct (empty_frame_issues_nothing t Hwf).
Qed.

(** X7.  In a reachable state of an engine with [maxDisappeared >= 0],
    [maxDisappeared + 1] consecutive frames without boxes empty the
    tracker: both maps are empty afterwards, and, no id having been
    issued on the way, the id counter is where it was. *)
Theorem empty_frames_clear_tracker (t : CentroidTracker) :
  reachable t -> 0 <= maxDisappeared t ->
  let t' := run t (repeat [] (Z.to_nat (maxDisappeared t + 1))) in
  objects t' = [] /\ disappeared t' = [] /\
  nextObjectID t' = nextObjectID t.
Proof.
  intros Hr Hmd t'. pose proof (reachable_wf _ Hr) as Hwf.
  pose proof (reachable_run t (repeat [] (Z.to_nat (maxDisappeared t + 1))) Hr) as Hr'.
  fold t' in Hr'. pose proof (reachable_wf _ Hr') as Hwf'.
  destruct (run_fields t (repeat [] (Z.to_nat (maxDisappeared t + 1))) Hwf)
    as (Emd & _). fold t' in Emd.
  destruct (empty_frames_floor (Z.to_nat (maxDisappeared t + 1)) t 0 Hwf)
    as [Hfloor Hnext].
  { intros k c Hk. destruct (wf_count _ Hwf _ _ Hk) as (m & [= ->] & Hm). exact Hm. }
  fold t' in Hfloor, Hnext.
  assert (Hd : disappeared t' = []).
  { apply map_all_none. intros k.
    destruct (map_get k (disappeared t')) as [c|] eqn:E; [|reflexivity].
    exfalso.
    destruct (reachable_counts_bounded t' Hr') with (k := k) (c := c)
      as (m & -> & Hm); [now rewrite Emd | exact E |].
    specialize (Hfloor k m E). rewrite Emd in Hm. lia. }
  split; [|auto].
  apply map_all_none. intros k. apply (wf_same _ Hwf'). now rewrite Hd.
Qed.

Lemma empty_frames_clear_tracker_witness :
  let t := update (new_tracker 2 10) [box_at 0 0; box_at 50 50] in
  objects (run t (repeat [] (Z.to_nat (maxDisappeared t + 1)))) = [].
Proof.
  intros t. apply (empty_frames_clear_tracker t).
  - apply reach_update, reach_new.
  - vm_compute. discriminate.
Defined.

(** ** [register] and [deregister] *)

Lemma map_delete_twice {V} (k : Z) (m : list (Z * V)) :
  map_delete k (map_delete k m) = map_delete k m.
Proof.
  unfold map_delete. rewrite filter_twice. apply filter_ext.
  intros e. now destruct (fst e =? k).
Qed.

(** X8.  [deregister] of an id that is in neither table changes
    nothing at all. *)
Theorem deregister_unknown_id (t : CentroidTracker) (id : Z) :
  map_get id (objects t) = None ->
  map_get id (disappeared t) = None ->
  deregister id t = t.
Proof.
  intros Ho Hd. destruct t as [n os ds md mx]. unfold deregister. simpl in *.
  apply map_get_None in Ho, Hd.
  now rewrite (map_delete_absent _ _ Ho), (map_delete_absent _ _ Hd).
Qed.

Lemma deregister_unknown_id_witness :
  let t := update (new_tracker 2 10) [box_at 0 0; box_at 50 50] in
  deregister 7 t = t.
Proof.
  intros t. apply (deregister_unknown_id t 7); reflexivity.
Defined.

(** X9.  [deregister id] removes [id], and nothing else, from both
    tables, leaves the id counter and the thresholds alone, and doing
    it a second time changes nothing more. *)
Theorem deregister_removes_one_id (t : CentroidTracker) (id : Z) :
  (forall k, map_get k (objects (deregister id t)) =
             if id =? k then None else map_get k (objects t)) /\
  (forall k, map_get k (disappeared (deregister id t)) =
             if id =? k then None else map_get k (disappeared t)) /\
  nextObjectID (deregister id t) = nextObjectID t /\
  maxDisappeared (deregister id t) = maxDisappeared t /\
  maxDistance (deregister id t) = maxDistance t /\
  deregister id (deregister id t) = deregister id t.
Proof.
  repeat split.
  - intros k. simpl. apply map_get_delete.
  - intros k. simpl. apply map_get_delete.
  - unfold deregister. simpl. now rewrite !map_delete_twice.
Qed.

(** X10.  In a well-formed state, [register] returns [nextObjectID],
    stores the centroid with count 0 at the end of both maps and steps
    the counter.  Deregistering the id just returned restores both
    maps exactly, but not the counter: the next [register] returns a
    different id. *)
Theorem register_then_deregister (t : CentroidTracker) (c c' : centroid) :
  wf t ->
  let id := fst (register c t) in
  let t1 := snd (register c t) in
  id = nextObjectID t /\
  objects t1 = objects t ++ [(id, c)] /\
  disappeared t1 = disappeared t ++ [(id, Num 0)] /\
  deregister id t1 =
    mkTracker (nextObjectID t + 1) (objects t) (disappeared t)
      (maxDisappeared t) (maxDistance t) /\
  fst (register c' (deregister id t1)) = id + 1.
Proof.
  intros Hwf id t1.
  assert (No : ~ In (nextObjectID t) (map_keys (objects t)))
    by (intros H; apply (wf_fresh _ Hwf) in H; lia).
  assert (Nd : ~ In (nextObjectID t) (map_keys (disappeared t)))
    by (intros H; apply (wf_fresh_disappeared _ _ Hwf) in H; lia).
  unfold id, t1, register, deregister. simpl.
  rewrite (map_set_absent _ _ _ No), (map_set_absent _ _ _ Nd).
  rewrite (map_delete_appended _ _ _ No), (map_delete_appended _ _ _ Nd).
  auto.
Qed.

Lemma register_then_deregister_witness :
  let t := update (new_tracker 2 10) [box_at 0 0; box_at 50 50] in
  deregister (fst (register (7, 7) t)) (snd (register (7, 7) t)) =
  mkTracker (nextObjectID t + 1) (objects t) (disappeared t)
    (maxDisappeared t) (maxDistance t).
Proof.
  intros t. apply (register_then_deregister t (7, 7) (0, 0)).
  apply wf_update, wf_new.
Defined.

(** ** Live objects and issued ids *)

Lemma wf_run (t : CentroidTracker) (frames : list (list rect)) :
  wf t -> wf (run t frames).
Proof.
  revert t. induction frames as [|f frames IH]; intros t Hwf; [exact Hwf|].
  rewrite run_cons. apply IH. now apply wf_update.
Qed.

(** X11.  After any run of frames on a fresh engine, every live id is
    one of the ids issued during the run, there are never more live
    objects than issued ids, and [nextObjectID] is one more than the
    number of ids issued. *)
Theorem live_ids_were_issued (maxDisappeared maxDistance : Z)
  (frames : list (list rect)) :
  let issued := fst (run_full (new_tracker maxDisappeared maxDistance) frames) in
  let t := run (new_tracker maxDisappeared maxDistance) frames in
  (forall k, In k (map_keys (objects t)) -> In k issued) /\
  (length (objects t) <= length issued)%nat /\
  nextObjectID t = 1 + Z.of_nat (length issued).
Proof.
  intros issued t.
  destruct (run_full_ids (new_tracker maxDisappeared maxDistance) frames
              (wf_new _ _)) as (n & E & Hn).
  change (nextObjectID (new_tracker maxDisappeared maxDistance)) with 1 in E, Hn.
  fold issued in E. fold t in Hn.
  pose proof (wf_run _ frames (wf_new maxDisappeared maxDistance)) as Hwf.
  fold t in Hwf.
  assert (Hin : forall k, In k (map_keys (objects t)) -> In k issued).
  { intros k Hk. rewrite E. apply id_range_In.
    apply (wf_fresh _ Hwf) in Hk. lia. }
  split; [exact Hin|]. split.
  - rewrite <- (keys_length (objects t)).
    apply NoDup_incl_length; [apply Hwf | exact Hin].
  - rewrite E, id_range_length. exact Hn.
Qed.

(** ** Boxes and their centroids *)

Lemma update_full_centroids (t : CentroidTracker) (r1 r2 : list rect) :
  map centroid_of r1 = map centroid_of r2 ->
  update_full t r1 = update_full t r2.
Proof.
  intros E.
  assert (El : length r1 = length r2)
    by (rewrite <- (length_map centroid_of r1), E; apply length_map).
  unfold update_full, matches_of, apply_matches, matrix_of.
  now rewrite E, El.
Qed.

Lemma centroid_of_flip (r : rect) : centroid_of (flip_rect r) = centroid_of r.
Proof.
  destruct r as [[[x1 y1] x2] y2]. unfold centroid_of, flip_rect.
  now rewrite (Z.add_comm x2 x1), (Z.add_comm y2 y1).
Qed.

(** X12.  [update] sees a box only through its rounded centroid, so a
    box given with its corners swapped (inverted, of negative width or
    height) is tracked exactly like the same box given the usual way:
    same state afterwards, same ids issued. *)
Theorem update_ignores_corner_order (t : CentroidTracker) (rects : list rect) :
  update_full t (map flip_rect rects) = update_full t rects.
Proof.
  apply update_full_centroids. rewrite map_map. apply map_ext.
  apply centroid_of_flip.
Qed.

(** X13.  For a box with [x1 <= x2] and [y1 <= y2] the centroid
    [update] computes lies inside the box, and on each axis it is the
    midpoint of the two corners, rounded up by a half when their sum
    is odd. *)
Theorem centroid_inside_box (x1 y1 x2 y2 : Z) :
  x1 <= x2 -> y1 <= y2 ->
  let c := centroid_of (x1, y1, x2, y2) in
  x1 <= fst c <= x2 /\ y1 <= snd c <= y2 /\
  0 <= 2 * fst c - (x1 + x2) <= 1 /\
  0 <= 2 * snd c - (y1 + y2) <= 1.
Proof.
  intros Hx Hy c. unfold c, centroid_of, round_half. cbn [fst snd].
  pose proof (Z.div_mod (x1 + x2 + 1) 2 ltac:(lia)) as Dx.
  pose proof (Z.mod_pos_bound (x1 + x2 + 1) 2 ltac:(lia)) as Mx.
  pose proof (Z.div_mod (y1 + y2 + 1) 2 ltac:(lia)) as Dy.
  pose proof (Z.mod_pos_bound (y1 + y2 + 1) 2 ltac:(lia)) as My.
  lia.
Qed.

Lemma centroid_inside_box_witness :
  let c := centroid_of (3, -7, 8, -2) in
  3 <= fst c <= 8 /\ -7 <= snd c <= -2 /\
  0 <= 2 * fst c - (3 + 8) <= 1 /\
  0 <= 2 * snd c - (-7 + -2) <= 1.
Proof.
  apply (centroid_inside_box 3 (-7) 8 (-2)); lia.
Defined.

(** ** The configuration over a run *)

(** X14.  Over any run of frames the engine keeps the two thresholds
    the constructor stored, and its id counter never goes down. *)
Theorem thresholds_are_fixed (maxDisappeared0 maxDistance0 : Z)
  (frames : list (list rect)) :
  let t := run (new_tracker maxDisappeared0 maxDistance0) frames in
  maxDisappeared t = maxDisappeared0 /\
  maxDistance t = maxDistance0 /\
  1 <= nextObjectID t.
Proof.
  intros t.
  destruct (run_fields (new_tracker maxDisappeared0 maxDistance0) frames
              (wf_new _ _)) as (H1 & H2 & H3).
  fold t in H1, H2, H3. simpl in H1, H2, H3. auto.
Qed.

(** ** A frame with a single box *)

Lemma sorted_nth_lt (l : list Z) (i j : nat) :
  StronglySorted Z.lt l -> (i < j)%nat -> (j < length l)%nat ->
  nth i l 0 < nth j l 0.
Proof.
  intros Hs. revert i j. induction Hs as [|a l Hs IH Hf]; intros i j Hij Hj.
  - simpl in Hj. lia.
  - destruct j as [|j]; [lia|]. simpl in Hj. destruct i as [|i]; simpl.
    + rewrite Forall_forall in Hf. apply Hf. apply nth_In. lia.
    + apply IH; lia.
Qed.

Lemma entry_row {V} (m : list (Z * V)) (k : Z) (v : V) :
  In (k, v) m ->
  exists r, (r < length m)%nat /\ nth r (map_keys m) 0 = k /\
            nth_error (map_values m) r = Some v.
Proof.
  intros H. apply In_nth_error in H. destruct H as [r Hr].
  exists r. split; [apply nth_error_Some; congruence|]. split.
  - apply nth_error_nth. unfold map_keys. now rewrite nth_error_map, Hr.
  - unfold map_values. now rewrite nth_error_map, Hr.
Qed.

Lemma single_column_matches_f64 (t : CentroidTracker) (b : rect) :
  (exists id p, In (id, p) (objects t) /\
     (distance p (centroid_of b) <? PrimFloat.infinity)%float = true) ->
  exists r v,
    first_min_f64 (D_of t [b]) [] [] r 0 v /\
    matches_f64 t [b] =
      if (number (maxDistance t) <? v)%float then [] else [(r, 0%nat)].
Proof.
  intros (id0 & p0 & Hin0 & Hf0).
  assert (Hcol : forall r c v, cell_f64 (D_of t [b]) r c = Some v -> c = 0%nat).
  { intros r c v H. apply cell_matrix_f64 in H. destruct H as (p & q & _ & Hq & _).
    destruct c as [|c]; [reflexivity|]. simpl in Hq. now destruct c. }
  pose proof (matches_f64_spec t [b]) as Hs.
  inversion Hs as [aR aC Hnone Ea Eb Em | aR aC r c v Hm Hx Ea Eb Em
                  | aR aC r c v ms Hm Hx Hg Ea Eb Em]; subst.
  - exfalso. destruct (entry_row _ _ _ Hin0) as (r0 & _ & _ & Hv0).
    rewrite (Hnone r0 0%nat (distance p0 (centroid_of b))) in Hf0;
      [discriminate | | tauto | tauto].
    apply cell_matrix_f64. exists p0, (centroid_of b). auto.
  - assert (c = 0%nat) by (destruct Hm as (Hc & _); eapply Hcol; eauto). subst c.
    exists r, v. rewrite Hx. split; [exact Hm | reflexivity].
  - assert (c = 0%nat) by (destruct Hm as (Hc & _); eapply Hcol; eauto). subst c.
    exists r, v. rewrite Hx. split; [exact Hm|].
    destruct ms as [|[r' c'] ms]; [reflexivity|]. exfalso.
    destruct (greedy_spec_wellformed_f64 _ _ _ _ _ Hg) as (_ & _ & _ & F2 & Hin).
    destruct (Hin r' c') as (v' & Hc' & _); [now left|].
    apply Hcol in Hc'. subst c'. apply (F2 0%nat); simpl; auto.
Qed.

(** X15.  In a well-formed state whose ids are in ascending order, a
    frame with a single box goes to the live object with the smallest
    computed distance to the box, the one with the lowest id among
    those at the same double: if that distance is not above
    [maxDistance] the object is the only match, nothing is registered
    and it takes the centroid of the box; if it is, nothing is matched
    and the box is registered under [nextObjectID].  (Some live object
    must be at a distance that is a number below [Infinity], as every
    object is when the coordinates are those of a frame.) *)
Theorem single_box_goes_to_nearest (t : CentroidTracker) (b : rect) :
  wf t -> in_order t ->
  (exists id p, In (id, p) (objects t) /\
     (distance p (centroid_of b) <? PrimFloat.infinity)%float = true) ->
  exists id p,
    In (id, p) (objects t) /\
    (forall id' p', In (id', p') (objects t) ->
       (distance p' (centroid_of b) <? distance p (centroid_of b))%float = false /\
       (id' < id ->
        (distance p' (centroid_of b) <=? distance p (centroid_of b))%float = false)) /\
    if (number (maxDistance t) <? distance p (centroid_of b))%float
    then matched_ids_f64 t [b] = [] /\
         fst (update_full_f64 t [b]) = [nextObjectID t]
    else matched_ids_f64 t [b] = [id] /\
         fst (update_full_f64 t [b]) = [] /\
         map_get id (objects (update_f64 t [b])) = Some (centroid_of b).
Proof.
  intros Hwf [_ Hs] Hex.
  assert (Hne : objects t <> []).
  { destruct Hex as (id0 & p0 & Hin0 & _). now destruct (objects t). }
  destruct (single_column_matches_f64 t b Hex) as (r & v & Hm & EM).
  destruct Hm as (Hc & _ & _ & _ & Hmin).
  apply cell_matrix_f64 in Hc. destruct Hc as (p & q & Hp & Hq & Ev).
  simpl in Hq. injection Hq as <-. subst v.
  pose proof (row_entry _ _ _ Hp) as Hin.
  assert (Hrl : (r < length (objects t))%nat).
  { unfold map_values in Hp. rewrite <- (length_map snd). apply nth_error_Some.
    congruence. }
  assert (EU : update_full_f64 t [b] = apply_matches t [b] (matches_f64 t [b])).
  { unfold update_full_f64. now destruct (objects t). }
  exists (nth r (map_keys (objects t)) 0), p. split; [exact Hin|]. split.
  - intros id' p' Hin'. destruct (entry_row _ _ _ Hin') as (r' & Hr' & Hk' & Hv').
    assert (Hc' : cell_f64 (D_of t [b]) r' 0 = Some (distance p' (centroid_of b))).
    { apply cell_matrix_f64. exists p', (centroid_of b). auto. }
    destruct (Hmin _ _ _ Hc') as [Hle Hlt]; [tauto | tauto |].
    split; [exact Hle|]. intros Hid. subst id'. apply Hlt. left.
    destruct (Nat.lt_trichotomy r' r) as [L|[->|G]]; [exact L | lia |].
    exfalso. assert (nth r (map_keys (objects t)) 0 < nth r' (map_keys (objects t)) 0).
    { apply sorted_nth_lt; auto. now rewrite keys_length. }
    lia.
  - unfold matched_ids_f64, update_f64. rewrite EU, am_ids, EM.
    destruct (number (maxDistance t) <? distance p (centroid_of b))%float eqn:Ex.
    + split; [reflexivity|]. rewrite new_centroids_nil. unfold id_range. simpl.
      f_equal. lia.
    + split; [reflexivity|]. split; [reflexivity|].
      pose proof (matches_f64_valid t [b]) as HM. rewrite EM in HM.
      assert (Hk : 0 < nth r (map_keys (objects t)) 0 < nextObjectID t).
      { apply (wf_fresh _ Hwf). apply nth_In. now rewrite keys_length. }
      destruct (am_outside t [b] [(r, 0%nat)] (nth r (map_keys (objects t)) 0))
        as [-> _]; [left; lia|].
      apply (mid_matched t [b] [(r, 0%nat)] (proj1 (wf_maps _ Hwf)) HM).
      simpl. now left.
Qed.

Lemma single_box_goes_to_nearest_witness :
  let t := update_f64 (new_tracker 40 80) [box_at 2 9; box_at 6 7] in
  let b := box_at 0 0 in
  matched_ids_f64 t [b] = [2] /\
  exists id p,
    In (id, p) (objects t) /\
    (forall id' p', In (id', p') (objects t) ->
       (distance p' (centroid_of b) <? distance p (centroid_of b))%float = false /\
       (id' < id ->
        (distance p' (centroid_of b) <=? distance p (centroid_of b))%float = false)) /\
    if (number (maxDistance t) <? distance p (centroid_of b))%float
    then matched_ids_f64 t [b] = [] /\
         fst (update_full_f64 t [b]) = [nextObjectID t]
    else matched_ids_f64 t [b] = [id] /\
         fst (update_full_f64 t [b]) = [] /\
         map_get id (objects (update_f64 t [b])) = Some (centroid_of b).
Proof.
  intros t b. split; [vm_compute; reflexivity|].
  apply (single_box_goes_to_nearest t b).
  - apply wf_update_f64, wf_new.
  - apply in_order_update_f64; [apply wf_new | apply in_order_new].
  - exists 1, (2, 9). split; [now left | vm_compute; reflexivity].
Defined.

(** ** The class filter of [tick] *)

Lemma to_lower_char_idem (c : Ascii.ascii) :
  to_lower_char (to_lower_char c) = to_lower_char c.
Proof. destruct c as [[] [] [] [] [] [] [] []]; reflexivity. Qed.

Lemma is_space_lower (c : Ascii.ascii) : is_space (to_lower_char c) = is_space c.
Proof. destruct c as [[] [] [] [] [] [] [] []]; reflexivity. Qed.

Lemma is_comma_lower (c : Ascii.ascii) : is_comma (to_lower_char c) = is_comma c.
Proof. destruct c as [[] [] [] [] [] [] [] []]; reflexivity. Qed.

Lemma to_lower_idem (s : jsstring) : to_lower (to_lower s) = to_lower s.
Proof.
  unfold to_lower. rewrite map_map. apply map_ext. apply to_lower_char_idem.
Qed.

Lemma trim_start_lower (s : jsstring) :
  trim_start (to_lower s) = to_lower (trim_start s).
Proof.
  induction s as [|c s IH]; simpl; [reflexivity|].
  rewrite is_space_lower. destruct (is_space c); [exact IH | reflexivity].
Qed.

Lemma rev_lower (s : jsstring) : rev (to_lower s) = to_lower (rev s).
Proof. unfold to_lower. symmetry. apply map_rev. Qed.

Lemma trim_end_lower (s : jsstring) :
  trim_end (to_lower s) = to_lower (trim_end s).
Proof.
  unfold trim_end. now rewrite rev_lower, trim_start_lower, rev_lower.
Qed.

Lemma trim_lower (s : jsstring) : trim (to_lower s) = to_lower (trim s).
Proof. unfold trim. now rewrite trim_start_lower, trim_end_lower. Qed.

Lemma split_comma_nonempty (s : jsstring) : split_comma s <> [].
Proof.
  destruct s as [|c s]; simpl; [discriminate|].
  destruct (is_comma c); [discriminate|].
  destruct (split_comma s); discriminate.
Qed.

Lemma split_lower (s : jsstring) :
  split_comma (to_lower s) = map to_lower (split_comma s).
Proof.
  induction s as [|c s IH]; simpl; [reflexivity|].
  rewrite is_comma_lower. destruct (is_comma c); simpl; [now rewrite IH|].
  fold (to_lower s). rewrite IH.
  destruct (split_comma s) as [|piece pieces] eqn:E; [|reflexivity].
  now destruct (split_comma_nonempty s).
Qed.

Lemma wanted_lower (s : jsstring) : wanted_of (to_lower s) = wanted_of s.
Proof.
  unfold wanted_of. rewrite split_lower, map_map. f_equal.
  apply map_ext. intros x. now rewrite trim_lower, to_lower_idem.
Qed.

Lemma trim_start_split (s : jsstring) :
  exists sp, s = sp ++ trim_start s /\ Forall (fun c => is_space c = true) sp.
Proof.
  induction s as [|c s IH]; simpl.
  - exists []. split; [reflexivity | constructor].
  - destruct (is_space c) eqn:E.
    + destruct IH as (sp & Hs & Hf). exists (c :: sp). split.
      * simpl. now rewrite <- Hs.
      * now constructor.
    + exists []. split; [reflexivity | constructor].
Qed.

Lemma trim_start_keeps (s : jsstring) :
  match s with
  | [] => True
  | c :: _ => is_space c = false
  end -> trim_start s = s.
Proof. destruct s as [|c s]; simpl; [reflexivity|]. now intros ->. Qed.

Lemma trim_start_head (s : jsstring) :
  match trim_start s with
  | [] => True
  | c :: _ => is_space c = false
  end.
Proof.
  induction s as [|c s IH]; simpl; [exact I|].
  destruct (is_space c) eqn:E; [exact IH | exact E].
Qed.

Lemma trim_start_idem (s : jsstring) : trim_start (trim_start s) = trim_start s.
Proof. apply trim_start_keeps, trim_start_head. Qed.

Lemma trim_end_split (s : jsstring) :
  exists sp, s = trim_end s ++ sp /\ Forall (fun c => is_space c = true) sp.
Proof.
  destruct (trim_start_split (rev s)) as (sp & Hs & Hf).
  exists (rev sp). split.
  - unfold trim_end. rewrite <- rev_app_distr, <- Hs. symmetry. apply rev_involutive.
  - apply Forall_rev. exact Hf.
Qed.

Lemma trim_end_idem (s : jsstring) : trim_end (trim_end s) = trim_end s.
Proof. unfold trim_end. now rewrite rev_involutive, trim_start_idem. Qed.

Lemma trim_idem (s : jsstring) : trim (trim s) = trim s.
Proof.
  assert (E : trim_start (trim s) = trim s).
  { apply trim_start_keeps. unfold trim.
    destruct (trim_end_split (trim_start s)) as (sp & Hs & _).
    pose proof (trim_start_head s) as Hh. rewrite Hs in Hh.
    destruct (trim_end (trim_start s)); [exact I | exact Hh]. }
  change (trim (trim s)) with (trim_end (trim_start (trim s))).
  rewrite E. unfold trim. apply trim_end_idem.
Qed.

Lemma trim_start_incl (s : jsstring) (c : Ascii.ascii) :
  In c (trim_start s) -> In c s.
Proof.
  destruct (trim_start_split s) as (sp & Hs & _). intros H.
  rewrite Hs. apply in_or_app. now right.
Qed.

Lemma trim_incl (s : jsstring) (c : Ascii.ascii) : In c (trim s) -> In c s.
Proof.
  unfold trim, trim_end. intros H. apply in_rev in H.
  apply trim_start_incl in H. apply in_rev in H. now apply trim_start_incl.
Qed.

Lemma trim_spaces (s : jsstring) :
  Forall (fun c => is_space c = true) s -> trim s = [].
Proof.
  intros H.
  assert (E : forall u, Forall (fun c => is_space c = true) u -> trim_start u = []).
  { induction 1 as [|c u Hc Hu IH]; simpl; [reflexivity|]. now rewrite Hc. }
  unfold trim. now rewrite (E s H).
Qed.

Lemma split_pieces (s : jsstring) (piece : jsstring) (c : Ascii.ascii) :
  In piece (split_comma s) -> In c piece -> In c s /\ is_comma c = false.
Proof.
  revert piece. induction s as [|a s IH]; intros piece; simpl.
  - intros [<-|[]] [].
  - destruct (is_comma a) eqn:E.
    + intros [<-|H] Hc; [inversion Hc|].
      destruct (IH _ H Hc). auto.
    + destruct (split_comma s) as [|p ps] eqn:Es.
      * now destruct (split_comma_nonempty s).
      * intros [<-|H] Hc.
        -- destruct Hc as [<-|Hc]; [auto|].
           destruct (IH p (or_introl eq_refl) Hc). auto.
        -- destruct (IH piece (or_intror H) Hc). auto.
Qed.

Lemma str_eqb_eq (a b : jsstring) : str_eqb a b = true <-> a = b.
Proof.
  revert b. induction a as [|x a IH]; intros [|y b]; simpl;
    try (split; [discriminate | discriminate]); [tauto|].
  rewrite andb_true_iff, IH, Ascii.eqb_eq. split.
  - intros [-> ->]. reflexivity.
  - intros [= -> ->]. auto.
Qed.

Lemma includes_In (wanted : list jsstring) (x : jsstring) :
  includes wanted x = true <-> In x wanted.
Proof.
  unfold includes. rewrite existsb_exists. split.
  - intros (y & Hy & E). apply str_eqb_eq in E. now subst.
  - intros H. exists x. split; [exact H | now apply str_eqb_eq].
Qed.

(** X16.  A filter text made only of commas and white space -- the
    empty text the component starts with in particular -- selects no
    class, and [tick] then keeps every prediction. *)
Theorem blank_filter_keeps_everything {P : Type} (class_of : P -> jsstring)
  (filterClass : jsstring) (predictions : list P) :
  ascii7 filterClass ->
  Forall (fun c => is_comma c = true \/ is_space c = true) filterClass ->
  wanted_of filterClass = [] /\
  filter_predictions class_of filterClass predictions = predictions.
Proof.
  intros _ Hb.
  assert (E : wanted_of filterClass = []).
  { unfold wanted_of. apply filter_none. intros w Hw.
    apply in_map_iff in Hw. destruct Hw as (piece & <- & Hp).
    rewrite trim_spaces; [reflexivity|].
    apply Forall_forall. intros c Hc.
    destruct (split_pieces _ _ _ Hp Hc) as [Hin Hnc].
    rewrite Forall_forall in Hb. destruct (Hb c Hin); congruence. }
  split; [exact E|]. unfold filter_predictions. now rewrite E.
Qed.

Open Scope char_scope.

Lemma blank_filter_keeps_everything_witness :
  filter_predictions (fun p : jsstring => p) [" "; ","; ","; "009"]
    [["c"; "a"; "r"]; ["d"; "o"; "g"]]
  = [["c"; "a"; "r"]; ["d"; "o"; "g"]].
Proof.
  apply (blank_filter_keeps_everything (fun p : jsstring => p)
           [" "; ","; ","; "009"] [["c"; "a"; "r"]; ["d"; "o"; "g"]]).
  - repeat constructor.
  - repeat constructor; (now left) || (now right).
Defined.

Close Scope char_scope.

(** X17.  For a filter text and class names of ASCII characters: every
    class name the filter selects is normalised -- it is not empty,
    holds no comma, has no white space at either end and no upper-case
    letter -- and, when at least one name is selected, [tick] keeps
    exactly the predictions whose lower-cased class is one of them, in
    their order. *)
Theorem filter_selects_normalised_names {P : Type} (class_of : P -> jsstring)
  (filterClass : jsstring) (predictions : list P) :
  ascii7 filterClass ->
  Forall (fun p => ascii7 (class_of p)) predictions ->
  (forall w, In w (wanted_of filterClass) ->
     w <> [] /\ trim w = w /\ to_lower w = w /\
     Forall (fun c => is_comma c = false) w) /\
  (wanted_of filterClass <> [] ->
   filter_predictions class_of filterClass predictions =
   filter (fun p => includes (wanted_of filterClass) (to_lower (class_of p)))
          predictions /\
   forall p, In p (filter_predictions class_of filterClass predictions) <->
             In p predictions /\
             In (to_lower (class_of p)) (wanted_of filterClass)).
Proof.
  intros _ _. split.
  - intros w Hw. unfold wanted_of in Hw. apply filter_In in Hw.
    destruct Hw as [Hw Ht]. apply in_map_iff in Hw.
    destruct Hw as (piece & <- & Hp). repeat split.
    + intros E. rewrite E in Ht. discriminate.
    + now rewrite trim_lower, trim_idem.
    + apply to_lower_idem.
    + apply Forall_forall. intros c Hc. unfold to_lower in Hc.
      apply in_map_iff in Hc. destruct Hc as (c0 & <- & Hc0).
      rewrite is_comma_lower. apply trim_incl in Hc0.
      now destruct (split_pieces _ _ _ Hp Hc0).
  - intros Hne.
    assert (E : filter_predictions class_of filterClass predictions =
                filter (fun p => includes (wanted_of filterClass)
                                   (to_lower (class_of p))) predictions).
    { unfold filter_predictions.
      destruct (wanted_of filterClass); [contradiction | reflexivity]. }
    split; [exact E|]. intros p. rewrite E, filter_In, includes_In. reflexivity.
Qed.

Open Scope char_scope.

Lemma filter_selects_normalised_names_witness :
  let filterClass := [" "; "C"; "a"; "r"; ","; ","; " "; "d"; "o"; "g"; " "] in
  let predictions := [["C"; "A"; "R"]; ["c"; "a"; "t"]; ["d"; "o"; "g"]] in
  filter_predictions (fun p : jsstring => p) filterClass predictions =
  filter (fun p => includes (wanted_of filterClass) (to_lower p)) predictions /\
  filter_predictions (fun p : jsstring => p) filterClass predictions =
  [["C"; "A"; "R"]; ["d"; "o"; "g"]].
Proof.
  intros filterClass predictions. split; [|reflexivity].
  apply (filter_selects_normalised_names (fun p : jsstring => p)
           filterClass predictions).
  - repeat constructor.
  - repeat constructor.
  - discriminate.
Defined.

Close Scope char_scope.

(** X18.  For filter texts and class names of ASCII characters, the
    filter is blind to letter case: two filter texts that differ only
    in the case of their letters select the same names, and
    predictions whose classes differ only in case are kept or dropped
    alike. *)
Theorem filter_ignores_case {P : Type} (class_of class_of' : P -> jsstring)
  (filterClass filterClass' : jsstring) (predictions : list P) :
  ascii7 filterClass -> ascii7 filterClass' ->
  Forall (fun p => ascii7 (class_of p) /\ ascii7 (class_of' p)) predictions ->
  to_lower filterClass = to_lower filterClass' ->
  (forall p, In p predictions -> to_lower (class_of p) = to_lower (class_of' p)) ->
  wanted_of filterClass = wanted_of filterClass' /\
  filter_predictions class_of filterClass predictions =
  filter_predictions class_of' filterClass' predictions.
Proof.
  intros _ _ _ Hf Hc.
  assert (E : wanted_of filterClass = wanted_of filterClass')
    by (rewrite <- (wanted_lower filterClass), Hf; apply wanted_lower).
  split; [exact E|]. unfold filter_predictions. rewrite E.
  destruct (length (wanted_of filterClass') =? 0)%nat; [reflexivity|].
  apply filter_ext_in. intros p Hp. now rewrite (Hc p Hp).
Qed.

Open Scope char_scope.

Lemma filter_ignores_case_witness :
  filter_predictions (fun p : jsstring => p) ["C"; "a"; "R"]
    [["c"; "a"; "r"]; ["d"; "o"; "g"]]
  = filter_predictions (fun p : jsstring => to_lower p) ["c"; "A"; "r"]
    [["c"; "a"; "r"]; ["d"; "o"; "g"]].
Proof.
  apply (filter_ignores_case (fun p : jsstring => p) (fun p : jsstring => to_lower p)
           ["C"; "a"; "R"] ["c"; "A"; "r"] [["c"; "a"; "r"]; ["d"; "o"; "g"]]).
  - repeat constructor.
  - repeat constructor.
  - repeat constructor.
  - reflexivity.
  - intros p _. symmetry. apply to_lower_idem.
Defined.

Close Scope char_scope.

(** ** What is logged and what is stored *)

Lemma to_int32_bounds (x : Z) : fits_int32 (to_int32 x).
Proof.
  unfold fits_int32, to_int32.
  pose proof (Z.mod_pos_bound x (2 ^ 32) ltac:(lia)) as H.
  destruct (2 ^ 31 <=? x mod 2 ^ 32) eqn:E;
    [apply Z.leb_le in E | apply Z.leb_gt in E]; lia.
Qed.

Lemma to_int32_fits (x : Z) : fits_int32 x -> to_int32 x = x.
Proof.
  unfold fits_int32, to_int32. intros H.
  destruct (Z_lt_dec x 0) as [Hn|Hp].
  - assert (E : x mod 2 ^ 32 = x + 2 ^ 32).
    { symmetry. apply (Z.mod_unique x (2 ^ 32) (-1)); lia. }
    rewrite E.
    replace (2 ^ 31 <=? x + 2 ^ 32) with true by (symmetry; apply Z.leb_le; lia).
    lia.
  - rewrite Z.mod_small by lia.
    replace (2 ^ 31 <=? x) with false by (symmetry; apply Z.leb_gt; lia).
    reflexivity.
Qed.

Lemma to_int32_congruent (x : Z) : (to_int32 x - x) mod 2 ^ 32 = 0.
Proof.
  unfold to_int32.
  pose proof (Z.div_mod x (2 ^ 32) ltac:(lia)) as H.
  destruct (2 ^ 31 <=? x mod 2 ^ 32).
  - replace (x mod 2 ^ 32 - 2 ^ 32 - x) with ((- (x / 2 ^ 32) - 1) * 2 ^ 32) by lia.
    apply Z.mod_mul. lia.
  - replace (x mod 2 ^ 32 - x) with ((- (x / 2 ^ 32)) * 2 ^ 32) by lia.
    apply Z.mod_mul. lia.
Qed.

(** X19.  The [| 0] the backend applies to the coordinates and the
    frame index of a logged detection maps every integer into the
    signed 32-bit range, changes it by a multiple of 2^32, and leaves
    it alone exactly when it is in that range already; applying it
    twice is the same as applying it once. *)
Theorem int32_coercion (x : Z) :
  fits_int32 (to_int32 x) /\
  (to_int32 x - x) mod 2 ^ 32 = 0 /\
  (to_int32 x = x <-> fits_int32 x) /\
  to_int32 (to_int32 x) = to_int32 x.
Proof.
  split; [apply to_int32_bounds|]. split; [apply to_int32_congruent|]. split.
  - split; [|apply to_int32_fits]. intros E. rewrite <- E. apply to_int32_bounds.
  - apply to_int32_fits, to_int32_bounds.
Qed.

Lemma track_id_not_null (objs : list (Z * centroid)) (r : rect) :
  objs <> [] -> track_id objs r <> None.
Proof.
  intros Hne. unfold track_id. destruct (centroid_of r) as [cx cy].
  pose proof (nearest_spec objs cx cy) as H.
  destruct (nearest objs cx cy) as [[d id]|]; [discriminate | contradiction].
Qed.

(** X20.  In a reachable state, [tick] builds one detection record per
    filtered prediction, each with the frame index and an id that is
    not [null]; when the box coordinates and the frame index fit in 32
    bits, the row the backend derives from each record carries the
    same id, class, score, coordinates and frame index, so the batch
    is stored as it was logged, one row per prediction. *)
Theorem logged_rows_keep_values {C S : Type} (t : CentroidTracker)
  (filtered : list (C * S * rect)) (frameIdx : Z) :
  reachable t ->
  Forall (fun p => let '(r0, r1, r2, r3) := snd p in
                   fits_int32 r0 /\ fits_int32 r1 /\
                   fits_int32 r2 /\ fits_int32 r3) filtered ->
  fits_int32 frameIdx ->
  let dets := dets_with_ids t filtered frameIdx in
  length (map row_of dets) = length filtered /\
  Forall (fun d => d_track_id d <> None /\ d_frame_index d = frameIdx) dets /\
  map row_of dets =
    map (fun d => (d_track_id d, Some (d_class_name d), d_conf d,
                   d_x1 d, d_y1 d, d_x2 d, d_y2 d, frameIdx)) dets /\
  map (fun d => (d_x1 d, d_y1 d, d_x2 d, d_y2 d)) dets = map snd filtered.
Proof.
  intros Hr Hfit Hf dets. pose proof (reachable_wf _ Hr) as Hwf.
  unfold dets, dets_with_ids. rewrite !length_map.
  split; [reflexivity|]. split; [|split].
  - apply Forall_forall. intros d Hd. apply in_map_iff in Hd.
    destruct Hd as ([[c s] [[[r0 r1] r2] r3]] & <- & Hin). simpl.
    split; [|reflexivity]. apply track_id_not_null.
    apply update_nonempty; [exact Hwf|]. intros E.
    assert (H' : In (snd (c, s, (r0, r1, r2, r3))) (map snd filtered))
      by now apply in_map.
    rewrite E in H'. inversion H'.
  - rewrite !map_map. apply map_ext_in.
    intros [[c s] [[[r0 r1] r2] r3]] Hin. unfold row_of. simpl.
    rewrite Forall_forall in Hfit. specialize (Hfit _ Hin). simpl in Hfit.
    destruct Hfit as (F0 & F1 & F2 & F3).
    now rewrite !to_int32_fits.
  - rewrite map_map. apply map_ext.
    intros [[c s] [[[r0 r1] r2] r3]]. reflexivity.
Qed.

Lemma logged_rows_keep_values_witness :
  let t := update (new_tracker 5 10) [box_at 0 0] in
  let filtered := [(1%nat, 2%nat, box_at 1 1); (3%nat, 4%nat, box_at 70 70)] in
  map row_of (dets_with_ids t filtered 8) =
  map (fun d => (d_track_id d, Some (d_class_name d), d_conf d,
                 d_x1 d, d_y1 d, d_x2 d, d_y2 d, 8))
      (dets_with_ids t filtered 8).
Proof.
  intros t filtered.
  apply (logged_rows_keep_values t filtered 8).
  - apply reach_update, reach_new.
  - repeat constructor; simpl; unfold fits_int32; lia.
  - unfold fits_int32. lia.
Defined.

(** ** Well-formed states *)

(** X21.  The fresh engine is well formed and [register], [deregister]
    and [update] keep it so: in every state they produce neither map
    repeats a key, both hold the same ids, every live id is positive
    and below [nextObjectID], and every counter is a non-negative
    number, never [NaN]. *)
Theorem methods_keep_wellformed (t : CentroidTracker) :
  wf t ->
  (forall c, wf (snd (register c t))) /\
  (forall id, wf (deregister id t)) /\
  (forall rects, wf (update t rects)) /\
  (forall frames, wf (run t frames)).
Proof.
  intros Hwf. split; [|split; [|split]]; intros.
  - now apply wf_register.
  - now apply wf_deregister.
  - now apply wf_update.
  - now apply wf_run.
Qed.

Lemma methods_keep_wellformed_witness :
  wf (update (deregister 1 (snd (register (4, 4) (new_tracker 3 10))))
        [box_at 1 1]).
Proof.
  apply (methods_keep_wellformed
           (deregister 1 (snd (register (4, 4) (new_tracker 3 10))))).
  apply (methods_keep_wellformed (snd (register (4, 4) (new_tracker 3 10)))).
  apply (methods_keep_wellformed (new_tracker 3 10)).
  apply wf_new.
Defined.

(** ** Thresholds that are not positive *)

Lemma exceeds_negative (v maxDist : Z) : maxDist < 0 -> exceeds v maxDist = true.
Proof.
  intros H. unfold exceeds. apply orb_true_iff. left. now apply Z.ltb_lt.
Qed.

(** X22.  With a negative [maxDistance] nothing is ever matched: in a
    reachable state every box of the frame is registered as a new
    object, in order, and every live object misses the frame. *)
Theorem negative_distance_matches_nothing (t : CentroidTracker) (rects : list rect) :
  reachable t -> maxDistance t < 0 ->
  matches_of t rects = [] /\
  fst (update_full t rects) = id_range (nextObjectID t) (length rects) /\
  unmatched_ids t (matches_of t rects) = map_keys (objects t).
Proof.
  intros Hr Hneg. pose proof (reachable_wf _ Hr) as Hwf.
  assert (E : matches_of t rects = []).
  { destruct (matches_of t rects) as [|[r c] M] eqn:EM; [reflexivity|]. exfalso.
    destruct (matches_within t rects r c) as (p & q & _ & _ & Hx).
    { rewrite EM. now left. }
    rewrite exceeds_negative in Hx by exact Hneg. discriminate. }
  split; [exact E|]. split.
  - rewrite (update_ids t rects Hwf), E, new_centroids_nil, length_map. reflexivity.
  - rewrite E. apply unmatched_ids_nil.
Qed.

Lemma negative_distance_matches_nothing_witness :
  let t := update (new_tracker 5 (-1)) [box_at 0 0] in
  matches_of t [box_at 0 0] = [] /\
  fst (update_full t [box_at 0 0]) = id_range (nextObjectID t) 1 /\
  unmatched_ids t (matches_of t [box_at 0 0]) = map_keys (objects t).
Proof.
  intros t. apply (negative_distance_matches_nothing t [box_at 0 0]).
  - apply reach_update, reach_new.
  - vm_compute. reflexivity.
Defined.



(** ** Frames on which rounding changes nothing *)

(** X24.  On a frame where rounding flips no test of the matching loop
    (every computed distance is below [Infinity], is above the
    threshold exactly when the exact distance is, and any two of them
    compare as the exact distances do), the matches the loop selects on
    the doubles are the matches selected on exact distances, and
    [update] gives the same ids and the same state either way. *)
Theorem rounding_neutral_frames (t : CentroidTracker) (rects : list rect) :
  rounding_neutral t rects = true ->
  matches_f64 t rects = matches_of t rects /\
  update_full_f64 t rects = update_full t rects /\
  update_f64 t rects = update t rects.
Proof.
  intros H. pose proof (neutral_matches t rects H) as E.
  assert (E' : update_full_f64 t rects = update_full t rects)
    by (unfold update_full_f64, update_full; now rewrite E).
  split; [exact E|]. split; [exact E'|].
  unfold update_f64, update. now rewrite E'.
Qed.

Lemma rounding_neutral_frames_witness :
  let t := update_f64 (new_tracker 1 50) [box_at 0 0; box_at 100 100] in
  let rects := [box_at 2 1] in
  update_f64 t rects = update t rects /\
  map_keys (objects (update_f64 t rects)) = [1; 2].
Proof.
  intros t rects. split; [|vm_compute; reflexivity].
  apply (rounding_neutral_frames t rects). vm_compute. reflexivity.
Defined.
